(** * AutoAttend: the link resolvers of [src/App.tsx]

    A shallow embedding of [normalizeExternalUrl], [parseGoogleMeet] and
    [parseWhatsAppGroupLink] (App.tsx, lines 181-297), together with the
    platform functions they call: [String.prototype.trim], [startsWith],
    [toLowerCase], the four regular expressions, and the [URL] constructor
    with its [hostname], [pathname] and [toString] members.

    A JavaScript string is a sequence of UTF-16 code units; it is modelled
    as a [list N].  The [URL] constructor is the WHATWG basic URL parser run
    without a base URL; it is modelled state by state.  Two table-driven
    parts of host parsing are parameters of the development: Unicode IDNA
    processing and the IPv6 literal parser.  Every theorem holds for every
    choice of them. *)

From Stdlib Require Import String Ascii Arith NArith ZArith DecimalPos DecimalN Bool Lia List.
Import ListNotations.
Open Scope N_scope.

(* Comparisons of code units reduce on numerals only. *)
#[local] Arguments N.eqb !n !m /.
#[local] Arguments N.leb !x !y /.
#[local] Arguments N.ltb !x !y /.

(** ** JavaScript strings *)

Definition jsstring := list N.

Definition js (s : string) : jsstring :=
  map N_of_ascii (list_ascii_of_string s).
#[local] Arguments js : simpl never.

Fixpoint jseqb (a b : jsstring) : bool :=
  match a, b with
  | [], [] => true
  | x :: a', y :: b' => (x =? y) && jseqb a' b'
  | _, _ => false
  end.

(** [s.startsWith(p)] *)
Fixpoint startsWith (p s : jsstring) : bool :=
  match p, s with
  | [], _ => true
  | x :: p', y :: s' => (x =? y) && startsWith p' s'
  | _ :: _, [] => false
  end.

Definition in_range (lo hi c : N) : bool := (lo <=? c) && (c <=? hi).

Definition is_upper (c : N) : bool := in_range 65 90 c.
Definition is_lower (c : N) : bool := in_range 97 122 c.
Definition is_alpha (c : N) : bool := is_upper c || is_lower c.
Definition is_digit (c : N) : bool := in_range 48 57 c.
Definition is_alnum (c : N) : bool := is_alpha c || is_digit c.
Definition is_hex (c : N) : bool :=
  is_digit c || in_range 65 70 c || in_range 97 102 c.
Definition is_ascii (c : N) : bool := c <? 128.

Definition lower_char (c : N) : N := if is_upper c then c + 32 else c.

(** [s.toLowerCase()].  Both call sites apply it to ASCII text (a matched
    meeting code, and [u.pathname], see [pathname_ascii] below), where the
    Unicode mapping is the ASCII one. *)
Definition toLowerCase (s : jsstring) : jsstring := map lower_char s.

(** Removes the longest suffix whose members satisfy [p]. *)
Fixpoint strip_end (p : N -> bool) (l : jsstring) : jsstring :=
  match l with
  | [] => []
  | c :: t =>
      match strip_end p t with
      | [] => if p c then [] else [c]
      | r => c :: r
      end
  end.

Fixpoint strip_start (p : N -> bool) (l : jsstring) : jsstring :=
  match l with
  | [] => []
  | c :: t => if p c then strip_start p t else l
  end.

(** ECMAScript WhiteSpace and LineTerminator code units. *)
Definition is_js_space (c : N) : bool :=
  in_range 9 13 c || (c =? 32) || (c =? 160) || (c =? 5760) ||
  in_range 8192 8202 c || (c =? 8232) || (c =? 8233) || (c =? 8239) ||
  (c =? 8287) || (c =? 12288) || (c =? 65279).

(** [s.trim()] *)
Definition trim (s : jsstring) : jsstring :=
  strip_end is_js_space (strip_start is_js_space s).

(** [s.replace(/\/+$/, "")] *)
Definition strip_trailing_slashes (s : jsstring) : jsstring :=
  strip_end (N.eqb 47) s.

(** [s.slice(n)] for [0 <= n]. *)
Definition slice (n : nat) (s : jsstring) : jsstring := skipn n s.

(** Splitting at every member that satisfies [p]; [k] separators give
    [k + 1] items. *)
Fixpoint split_on (p : N -> bool) (l : jsstring) : list jsstring :=
  match l with
  | [] => [[]]
  | c :: t =>
      if p c then [] :: split_on p t
      else match split_on p t with
           | [] => [[c]]
           | s :: r => (c :: s) :: r
           end
  end.

Definition nonempty (s : jsstring) : bool :=
  match s with [] => false | _ => true end.

(** ** Completions: a value or a thrown exception *)

Inductive completion (A : Type) : Type :=
| Normal (a : A)
| Throw.
Arguments Normal {A} a.
Arguments Throw {A}.

Definition bind {A B} (c : completion A) (k : A -> completion B) : completion B :=
  match c with
  | Normal a => k a
  | Throw => Throw
  end.

(** [try { c } catch { h }] *)
Definition try_catch {A} (c : completion A) (h : completion A) : completion A :=
  match c with
  | Normal a => Normal a
  | Throw => h
  end.

Notation "x <- c ;; k" := (bind c (fun x => k))
  (at level 61, c at next level, right associativity).

(** ** The URL standard: percent encoding *)

Definition is_high_surrogate (c : N) : bool := in_range 55296 56319 c.
Definition is_low_surrogate (c : N) : bool := in_range 56320 57343 c.

(** Conversion to a sequence of scalar values (the constructor takes a
    USVString): a surrogate pair is one code point, a lone surrogate is
    U+FFFD. *)
Fixpoint scalar_values (l : jsstring) : list N :=
  match l with
  | [] => []
  | h :: t =>
      if is_high_surrogate h then
        match t with
        | lo :: t' =>
            if is_low_surrogate lo
            then (65536 + (h - 55296) * 1024 + (lo - 56320)) :: scalar_values t'
            else 65533 :: scalar_values t
        | [] => [65533]
        end
      else if is_low_surrogate h then 65533 :: scalar_values t
      else h :: scalar_values t
  end.

Definition utf8 (c : N) : list N :=
  if c <? 128 then [c]
  else if c <? 2048 then [192 + c / 64; 128 + c mod 64]
  else if c <? 65536 then [224 + c / 4096; 128 + (c / 64) mod 64; 128 + c mod 64]
  else [240 + (c / 262144) mod 8; 128 + (c / 4096) mod 64;
        128 + (c / 64) mod 64; 128 + c mod 64].

Definition hex_digit (d : N) : N :=
  let d := d mod 16 in if d <? 10 then 48 + d else 55 + d.

Definition percent_byte (b : N) : jsstring :=
  [37; hex_digit (b / 16); hex_digit b].

Definition c0_control_set (c : N) : bool := (c <=? 31) || (126 <? c).
Definition fragment_set (c : N) : bool :=
  c0_control_set c || (c =? 32) || (c =? 34) || (c =? 60) || (c =? 62) || (c =? 96).
Definition query_set (c : N) : bool :=
  c0_control_set c || (c =? 32) || (c =? 34) || (c =? 35) || (c =? 60) || (c =? 62).
Definition special_query_set (c : N) : bool := query_set c || (c =? 39).
Definition path_set (c : N) : bool :=
  query_set c || (c =? 63) || (c =? 94) || (c =? 96) || (c =? 123) || (c =? 125).
Definition userinfo_set (c : N) : bool :=
  path_set c || (c =? 47) || (c =? 58) || (c =? 59) || (c =? 61) || (c =? 64) ||
  in_range 91 93 c || (c =? 124).

Definition percent_encode_cp (set : N -> bool) (c : N) : jsstring :=
  if set c then flat_map percent_byte (utf8 c) else [c].

Definition percent_encode (set : N -> bool) (l : list N) : jsstring :=
  flat_map (percent_encode_cp set) l.

Definition hex_value (c : N) : N :=
  if is_digit c then c - 48 else if is_upper c then c - 55 else c - 87.

Fixpoint percent_decode (l : list N) : list N :=
  match l with
  | [] => []
  | c :: t =>
      if c =? 37 then
        match t with
        | h1 :: h2 :: t' =>
            if is_hex h1 && is_hex h2
            then (hex_value h1 * 16 + hex_value h2) :: percent_decode t'
            else c :: percent_decode t
        | _ => c :: percent_decode t
        end
      else c :: percent_decode t
  end.

(** ** The URL standard: numbers *)

Fixpoint uint_chars (u : Decimal.uint) : jsstring :=
  match u with
  | Decimal.Nil => []
  | Decimal.D0 u => 48 :: uint_chars u
  | Decimal.D1 u => 49 :: uint_chars u
  | Decimal.D2 u => 50 :: uint_chars u
  | Decimal.D3 u => 51 :: uint_chars u
  | Decimal.D4 u => 52 :: uint_chars u
  | Decimal.D5 u => 53 :: uint_chars u
  | Decimal.D6 u => 54 :: uint_chars u
  | Decimal.D7 u => 55 :: uint_chars u
  | Decimal.D8 u => 56 :: uint_chars u
  | Decimal.D9 u => 57 :: uint_chars u
  end.

(** The shortest decimal representation of a number. *)
Definition decimal (n : N) : jsstring := uint_chars (N.to_uint n).

(** The value of a sequence of digits in radix [r]. *)
Definition number_of (r : N) (l : jsstring) : N :=
  fold_left (fun acc c => acc * r + hex_value c) l 0.

Definition is_radix_digit (r : N) (c : N) : bool :=
  is_hex c && (hex_value c <? r).

(** The IPv4 number parser: [0x] and [0] prefixes select radix 16 and 8. *)
Definition ipv4_number (s : jsstring) : option N :=
  match s with
  | [] => None
  | _ =>
      let '(r, d) :=
        if (2 <=? length s)%nat && startsWith [48] s then
          if startsWith [48; 120] s || startsWith [48; 88] s
          then (16, skipn 2 s) else (8, tl s)
        else (10, s) in
      if forallb (is_radix_digit r) d then Some (number_of r d) else None
  end.

Definition is_dot (c : N) : bool := c =? 46.

(** The ends-in-a-number checker. *)
Definition ends_in_number (s : jsstring) : bool :=
  let parts := split_on is_dot s in
  let parts' :=
    if nonempty (last parts []) then Some parts
    else if (length parts =? 1)%nat then None
    else Some (removelast parts) in
  match parts' with
  | None => false
  | Some ps =>
      let l := last ps [] in
      (nonempty l && forallb is_digit l) ||
      match ipv4_number l with Some _ => true | None => false end
  end.

Fixpoint all_some {A} (l : list (option A)) : option (list A) :=
  match l with
  | [] => Some []
  | None :: _ => None
  | Some a :: t =>
      match all_some t with
      | Some r => Some (a :: r)
      | None => None
      end
  end.

Fixpoint ipv4_sum (nums : list N) (counter : nat) : N :=
  match nums with
  | [] => 0
  | n :: t => n * 256 ^ (3 - N.of_nat counter) + ipv4_sum t (S counter)
  end.

(** The IPv4 parser; the address is a 32-bit number. *)
Definition ipv4_parser (s : jsstring) : option N :=
  let parts := split_on is_dot s in
  let parts :=
    if negb (nonempty (last parts [])) && (1 <? length parts)%nat
    then removelast parts else parts in
  if (4 <? length parts)%nat then None
  else
    match all_some (map ipv4_number parts) with
    | None => None
    | Some nums =>
        if existsb (fun n => 255 <? n) (removelast nums) then None
        else if 256 ^ (5 - N.of_nat (length nums)) <=? last nums 0 then None
        else Some (last nums 0 + ipv4_sum (removelast nums) 0)
    end.

Definition ipv4_serializer (a : N) : jsstring :=
  decimal (a / 16777216) ++ [46] ++ decimal ((a / 65536) mod 256) ++ [46] ++
  decimal ((a / 256) mod 256) ++ [46] ++ decimal (a mod 256).

(** ** The URL standard: hosts *)

Definition forbidden_host (c : N) : bool :=
  (c =? 0) || (c =? 9) || (c =? 10) || (c =? 13) || (c =? 32) || (c =? 35) ||
  (c =? 47) || (c =? 58) || (c =? 60) || (c =? 62) || (c =? 63) || (c =? 64) ||
  in_range 91 94 c || (c =? 124).

Definition forbidden_domain (c : N) : bool :=
  forbidden_host c || (c <=? 31) || (c =? 37) || (c =? 127).

(** A host parser without Unicode support or IPv6 literals: the instance at
    which concrete runs are evaluated. *)
Definition unsupported : list N -> option jsstring := fun _ => None.

(** A label that starts with [xn--], in any letter case. *)
Definition is_punycode_label (l : jsstring) : bool :=
  jseqb (toLowerCase (firstn 4 l)) (js "xn--").

Section Resolver.

(** Unicode IDNA processing (UTS 46 ToASCII) of a percent-decoded domain,
    given as its bytes.  It is consulted only for a domain that is not
    plain ASCII or that has a punycode label. *)
Variable unicode_to_ascii : list N -> option jsstring.

(** The IPv6 parser followed by the IPv6 serializer, on the text between
    the square brackets. *)
Variable ipv6_literal : jsstring -> option jsstring.

(** Domain to ASCII, with [beStrict] false: on an ASCII domain without
    punycode labels it is ASCII lowercasing. *)
Definition domain_to_ascii (domain : list N) : option jsstring :=
  let result :=
    if forallb is_ascii domain &&
       negb (existsb is_punycode_label (split_on is_dot domain))
    then Some (toLowerCase domain)
    else unicode_to_ascii domain in
  match result with
  | Some [] => None
  | r => r
  end.

(** The host parser; the result is the serialized host. *)
Definition host_parser (input : jsstring) (isOpaque : bool) : option jsstring :=
  if startsWith [91] input then
    let inner := tl input in
    if (last inner 0 =? 93) && nonempty inner
    then option_map (fun a => [91] ++ a ++ [93]) (ipv6_literal (removelast inner))
    else None
  else
      if isOpaque then
        if existsb forbidden_host input then None
        else Some (percent_encode c0_control_set input)
      else
        match domain_to_ascii (percent_decode (flat_map utf8 input)) with
        | None => None
        | Some asciiDomain =>
            if existsb forbidden_domain asciiDomain then None
            else if ends_in_number asciiDomain
                 then option_map ipv4_serializer (ipv4_parser asciiDomain)
                 else Some asciiDomain
        end.

(** ** The URL standard: URL records *)

Inductive url_path : Type :=
| Opaque (s : jsstring)
| Segments (l : list jsstring).

Record URL : Type := mkURL {
  scheme : jsstring;
  username : jsstring;
  password : jsstring;
  host : option jsstring;
  port : option N;
  path : url_path;
  query : option jsstring;
  fragment : option jsstring
}.

Definition is_special (sch : jsstring) : bool :=
  jseqb sch (js "ftp") || jseqb sch (js "file") || jseqb sch (js "http") ||
  jseqb sch (js "https") || jseqb sch (js "ws") || jseqb sch (js "wss").

Definition default_port (sch : jsstring) : option N :=
  if jseqb sch (js "ftp") then Some 21
  else if jseqb sch (js "http") then Some 80
  else if jseqb sch (js "https") then Some 443
  else if jseqb sch (js "ws") then Some 80
  else if jseqb sch (js "wss") then Some 443
  else None.

Definition is_c0_or_space (c : N) : bool := c <=? 32.
Definition is_tab_or_newline (c : N) : bool := (c =? 9) || (c =? 10) || (c =? 13).

(** The part of [l] before the first member that satisfies [p], and the
    part from that member on. *)
Fixpoint before (p : N -> bool) (l : list N) : list N :=
  match l with
  | [] => []
  | c :: t => if p c then [] else c :: before p t
  end.

Fixpoint from (p : N -> bool) (l : list N) : list N :=
  match l with
  | [] => []
  | c :: t => if p c then l else from p t
  end.

(** Scheme start state and scheme state: the lowercased scheme and the
    text after its colon. *)
Fixpoint scheme_state (l : list N) (buffer : jsstring) : option (jsstring * list N) :=
  match l with
  | [] => None
  | c :: t =>
      if is_alnum c || (c =? 43) || (c =? 45) || (c =? 46)
      then scheme_state t (buffer ++ [lower_char c])
      else if c =? 58 then Some (buffer, t)
      else None
  end.

Definition scheme_start_state (l : list N) : option (jsstring * list N) :=
  match l with
  | c :: t => if is_alpha c then scheme_state t [lower_char c] else None
  | [] => None
  end.

(** *** Paths *)

Definition is_single_dot (b : jsstring) : bool :=
  let b := toLowerCase b in jseqb b (js ".") || jseqb b (js "%2e").

Definition is_double_dot (b : jsstring) : bool :=
  let b := toLowerCase b in
  jseqb b (js "..") || jseqb b (js ".%2e") || jseqb b (js "%2e.") ||
  jseqb b (js "%2e%2e").

Definition is_windows_drive_letter (b : jsstring) : bool :=
  match b with
  | [a; c] => is_alpha a && ((c =? 58) || (c =? 124))
  | _ => false
  end.

Definition is_normalized_drive_letter (b : jsstring) : bool :=
  match b with
  | [a; c] => is_alpha a && (c =? 58)
  | _ => false
  end.

Definition normalize_drive_letter (b : jsstring) : jsstring :=
  match b with
  | [a; _] => [a; 58]
  | _ => b
  end.

Definition shorten (file : bool) (p : list jsstring) : list jsstring :=
  match p with
  | [s] => if file && is_normalized_drive_letter s then p else []
  | _ => removelast p
  end.

(** What the path state does with [buffer] when it meets a separator
    ([final] false) or the end of the path ([final] true). *)
Definition path_segment (file : bool) (buffer : jsstring) (final : bool)
    (p : list jsstring) : list jsstring :=
  if is_double_dot buffer then
    let p := shorten file p in if final then p ++ [[]] else p
  else if is_single_dot buffer then
    if final then p ++ [[]] else p
  else
    p ++ [if file && (length p =? 0)%nat && is_windows_drive_letter buffer
          then normalize_drive_letter buffer else buffer].

Definition is_path_separator (special : bool) (c : N) : bool :=
  (c =? 47) || (special && (c =? 92)).

(** The path state, on the text up to the query or fragment. *)
Fixpoint path_state (special file : bool) (l : list N) (buffer : jsstring)
    (p : list jsstring) : list jsstring :=
  match l with
  | [] => path_segment file buffer true p
  | c :: t =>
      if is_path_separator special c
      then path_state special file t [] (path_segment file buffer false p)
      else path_state special file t (buffer ++ percent_encode_cp path_set c) p
  end.

Definition is_query_or_fragment_start (c : N) : bool := (c =? 63) || (c =? 35).
Definition is_fragment_start (c : N) : bool := c =? 35.

(** Query state and fragment state, on the text from the first [?] or [#]. *)
Definition query_and_fragment (special : bool) (l : list N)
    : option jsstring * option jsstring :=
  let qset := if special then special_query_set else query_set in
  match l with
  | c :: t =>
      if c =? 63 then
        (Some (percent_encode qset (before is_fragment_start t)),
         match from is_fragment_start t with
         | _ :: f => Some (percent_encode fragment_set f)
         | [] => None
         end)
      else if c =? 35 then (None, Some (percent_encode fragment_set t))
      else (None, None)
  | [] => (None, None)
  end.

(** The opaque path state: a space right before the query or fragment is
    encoded, everything else goes through the C0 control set. *)
Fixpoint opaque_path_state (l : list N) : jsstring :=
  match l with
  | [] => []
  | c :: t =>
      if is_query_or_fragment_start c then []
      else if c =? 32 then
        match t with
        | d :: _ =>
            if is_query_or_fragment_start d then js "%20" ++ opaque_path_state t
            else 32 :: opaque_path_state t
        | [] => 32 :: opaque_path_state t
        end
      else percent_encode_cp c0_control_set c ++ opaque_path_state t
  end.

(** *** From the authority to the end *)

(** Path start state, then path, query and fragment states. *)
Definition path_start_state (sch user pass : jsstring) (h : option jsstring)
    (prt : option N) (l : list N) : URL :=
  let special := is_special sch in
  let file := jseqb sch (js "file") in
  let ptext := before is_query_or_fragment_start l in
  let p :=
    match ptext with
    | [] => if special then path_state special file [] [] [] else []
    | c :: t =>
        path_state special file
          (if is_path_separator special c then t else ptext) [] []
    end in
  let qf := query_and_fragment special (from is_query_or_fragment_start l) in
  mkURL sch user pass h prt (Segments p) (fst qf) (snd qf).

(** Path state entered directly, with what the buffer already holds. *)
Definition path_onward (sch : jsstring) (h : option jsstring) (l : list N)
    (buffer : jsstring) : URL :=
  let special := is_special sch in
  let file := jseqb sch (js "file") in
  let p := path_state special file (before is_query_or_fragment_start l) buffer [] in
  let qf := query_and_fragment special (from is_query_or_fragment_start l) in
  mkURL sch [] [] h None (Segments p) (fst qf) (snd qf).

Definition is_authority_end (special : bool) (c : N) : bool :=
  (c =? 47) || (c =? 63) || (c =? 35) || (special && (c =? 92)).

Definition is_colon (c : N) : bool := c =? 58.

(** The parts before and after the last occurrence of [x]. *)
Fixpoint split_last (x : N) (l : list N) : option (list N * list N) :=
  match l with
  | [] => None
  | c :: t =>
      match split_last x t with
      | Some (a, b) => Some (c :: a, b)
      | None => if c =? x then Some ([], t) else None
      end
  end.

(** Host state: the host, and the port text when a colon outside square
    brackets ends the host. *)
Fixpoint split_host_port (l : list N) (insideBrackets : bool)
    : list N * option (list N) :=
  match l with
  | [] => ([], None)
  | c :: t =>
      if (c =? 58) && negb insideBrackets then ([], Some t)
      else
        let inb := if c =? 91 then true
                   else if c =? 93 then false else insideBrackets in
        let r := split_host_port t inb in
        (c :: fst r, snd r)
  end.

(** Port state, on the text between the colon and the end of the
    authority. *)
Definition port_state (sch : jsstring) (l : list N) : option (option N) :=
  if forallb is_digit l then
    match l with
    | [] => Some None
    | _ =>
        let n := number_of 10 l in
        if 65535 <? n then None
        else match default_port sch with
             | Some d => if d =? n then Some None else Some (Some n)
             | None => Some (Some n)
             end
    end
  else None.

(** Authority state, host state and port state. *)
Definition authority_state (sch : jsstring) (l : list N) : option URL :=
  let special := is_special sch in
  let auth := before (is_authority_end special) l in
  let rest := from (is_authority_end special) l in
  let '(user, pass, hostport, atSignSeen) :=
    match split_last 64 auth with
    | Some (info, hp) =>
        (percent_encode userinfo_set (before is_colon info),
         percent_encode userinfo_set (tl (from is_colon info)), hp, true)
    | None => ([], [], auth, false)
    end in
  if atSignSeen && negb (nonempty hostport) then None
  else
    match split_host_port hostport false with
    | (h, None) =>
        if special && negb (nonempty h) then None
        else
          match host_parser h (negb special) with
          | None => None
          | Some hs => Some (path_start_state sch user pass (Some hs) None rest)
          end
    | (h, Some ptext) =>
        if negb (nonempty h) then None
        else
          match host_parser h (negb special), port_state sch ptext with
          | Some hs, Some prt =>
              Some (path_start_state sch user pass (Some hs) prt rest)
          | _, _ => None
          end
    end.

Definition is_slash_or_backslash (c : N) : bool := (c =? 47) || (c =? 92).
Definition is_file_host_end (c : N) : bool :=
  is_slash_or_backslash c || is_query_or_fragment_start c.

(** File host state. *)
Definition file_host_state (l : list N) : option URL :=
  let buffer := before is_file_host_end l in
  let rest := from is_file_host_end l in
  if is_windows_drive_letter buffer
  then Some (path_onward (js "file") (Some []) rest buffer)
  else if negb (nonempty buffer)
  then Some (path_start_state (js "file") [] [] (Some []) None rest)
  else
    match host_parser buffer false with
    | None => None
    | Some h =>
        let h := if jseqb h (js "localhost") then [] else h in
        Some (path_start_state (js "file") [] [] (Some h) None rest)
    end.

(** File state and file slash state. *)
Definition file_state (l : list N) : option URL :=
  match l with
  | c :: t =>
      if is_slash_or_backslash c then
        match t with
        | d :: t' =>
            if is_slash_or_backslash d then file_host_state t'
            else Some (path_onward (js "file") (Some []) t [])
        | [] => Some (path_onward (js "file") (Some []) t [])
        end
      else Some (path_onward (js "file") (Some []) l [])
  | [] => Some (path_onward (js "file") (Some []) l [])
  end.

Definition preprocess (input : list N) : list N :=
  filter (fun c => negb (is_tab_or_newline c))
    (strip_end is_c0_or_space (strip_start is_c0_or_space input)).

(** The state machine on the preprocessed input, from the scheme start
    state on, without base URL and without state override. *)
Definition url_states (l : list N) : option URL :=
  match scheme_start_state l with
  | None => None
  | Some (sch, rest) =>
      if jseqb sch (js "file") then file_state rest
      else if is_special sch
      then authority_state sch (strip_start is_slash_or_backslash rest)
      else
        if startsWith [47; 47] rest then authority_state sch (skipn 2 rest)
        else if startsWith [47] rest then Some (path_onward sch None (tl rest) [])
        else
          let qf := query_and_fragment false
                      (from is_query_or_fragment_start rest) in
          Some (mkURL sch [] [] None None (Opaque (opaque_path_state rest))
                  (fst qf) (snd qf))
  end.

(** The basic URL parser: leading and trailing C0 controls and spaces are
    removed, then every tab and newline.  [None] is failure. *)
Definition basic_url_parser (input : list N) : option URL :=
  url_states (preprocess input).

(** *** The URL serializer and the getters *)

Definition path_serializer (p : url_path) : jsstring :=
  match p with
  | Opaque s => s
  | Segments l => flat_map (fun s => 47 :: s) l
  end.

Definition credentials (u : URL) : jsstring :=
  if nonempty (username u) || nonempty (password u)
  then username u ++
       (if nonempty (password u) then 58 :: password u else []) ++ [64]
  else [].

Definition url_serializer (u : URL) : jsstring :=
  scheme u ++ [58] ++
  match host u with
  | Some h =>
      [47; 47] ++ credentials u ++ h ++
      match port u with
      | Some p => 58 :: decimal p
      | None => []
      end
  | None =>
      match path u with
      | Segments ([] :: _ :: _) => [47; 46]
      | _ => []
      end
  end ++
  path_serializer (path u) ++
  match query u with Some q => 63 :: q | None => [] end ++
  match fragment u with Some f => 35 :: f | None => [] end.

(** [u.hostname], [u.pathname], [u.protocol], [u.toString()] *)
Definition hostname (u : URL) : jsstring :=
  match host u with Some h => h | None => [] end.
Definition pathname (u : URL) : jsstring := path_serializer (path u).
Definition protocol (u : URL) : jsstring := scheme u ++ [58].
Definition toString (u : URL) : jsstring := url_serializer u.

(** [new URL(raw)]: a failure of the parser is a [TypeError]. *)
Definition new_URL (raw : jsstring) : completion URL :=
  match basic_url_parser (scalar_values raw) with
  | Some u => Normal u
  | None => Throw
  end.

(** ** The regular expressions of App.tsx *)

(** A pattern that is a sequence of character classes, matched against the
    whole string as between [^] and [$]. *)
Fixpoint match_classes (ps : list (N -> bool)) (s : jsstring) : bool :=
  match ps, s with
  | [], [] => true
  | p :: ps', c :: s' => p c && match_classes ps' s'
  | _, _ => false
  end.

(** A literal character under the [i] flag.  Without the [u] flag no code
    unit outside ASCII is canonicalized to an ASCII letter. *)
Definition ci (c : N) : N -> bool := fun x => lower_char x =? lower_char c.

(** [[a-z]] under the [i] flag. *)
Definition letter : N -> bool := is_alpha.

(** [[a-z]{3}-[a-z]{4}-[a-z]{3}] under the [i] flag. *)
Definition meet_code_pattern : list (N -> bool) :=
  repeat letter 3 ++ [N.eqb 45] ++ repeat letter 4 ++ [N.eqb 45] ++ repeat letter 3.

(** [s.match(/^([a-z]{3}-[a-z]{4}-[a-z]{3})$/i)]; the result is group 1. *)
Definition match_meet_code (s : jsstring) : option jsstring :=
  if match_classes meet_code_pattern s then Some s else None.

(** [s.match(/^\/lookup\/([^/]+)$/i)]; the result is group 1. *)
Definition match_lookup (s : jsstring) : option jsstring :=
  let token := skipn 8 s in
  if match_classes (map ci (js "/lookup/")) (firstn 8 s) &&
     nonempty token && forallb (fun c => negb (c =? 47)) token
  then Some token else None.

(** [s.match(/^\/([a-z]{3}-[a-z]{4}-[a-z]{3})$/i)]; the result is group 1. *)
Definition match_path_code (s : jsstring) : option jsstring :=
  if startsWith [47] s then match_meet_code (tl s) else None.

Definition is_token_char (c : N) : bool :=
  is_alnum c || (c =? 95) || (c =? 45).

(** [/^[A-Za-z0-9_-]{10,}$/.test(s)] *)
Definition test_invite_token (s : jsstring) : bool :=
  (10 <=? length s)%nat && forallb is_token_char s.

(** ** The functions of App.tsx *)

(** [type ParsedMeet] (App.tsx, lines 30-33). *)
Inductive ParsedMeet : Type :=
| kind_code (code url : jsstring)
| kind_lookup (token url : jsstring)
| kind_url (path url : jsstring).

Definition url (r : ParsedMeet) : jsstring :=
  match r with
  | kind_code _ u | kind_lookup _ u | kind_url _ u => u
  end.

(** [normalizeExternalUrl] (App.tsx, lines 181-186). *)
Definition normalizeExternalUrl (raw : jsstring) : jsstring :=
  let v := trim raw in
  if negb (nonempty v) then v
  else if startsWith (js "http://") v || startsWith (js "https://") v then v
  else js "https://" ++ v.

Definition is_g_co_meet (u : URL) : bool :=
  jseqb (hostname u) (js "g.co") &&
  startsWith (js "/meet/") (toLowerCase (pathname u)).

(** The statements of lines 230-237, for a [g.co/meet/] URL. *)
Definition redirect_branch (u : URL) : option ParsedMeet :=
  let rest := strip_trailing_slashes (slice 6 (pathname u)) in
  match match_meet_code rest with
  | Some g =>
      let code := toLowerCase g in
      Some (kind_code code (js "https://meet.google.com/" ++ code))
  | None =>
      if nonempty rest
      then Some (kind_url (js "/meet/" ++ rest) (toString u))
      else None
  end.

(** The statements of lines 243-264, for a [meet.google.com] URL. *)
Definition primary_branch (u : URL) : option ParsedMeet :=
  let path := strip_trailing_slashes (pathname u) in
  match match_lookup path with
  | Some token =>
      Some (kind_lookup token (js "https://meet.google.com/lookup/" ++ token))
  | None =>
      match match_path_code path with
      | Some g =>
          let c := toLowerCase g in
          Some (kind_code c (js "https://meet.google.com/" ++ c))
      | None =>
          if nonempty path && negb (jseqb path (js "/"))
          then Some (kind_url path (js "https://meet.google.com" ++ path))
          else None
      end
  end.

(** The scheme completion of lines 217-222. *)
Definition meet_raw (raw0 : jsstring) : jsstring :=
  if startsWith (js "http://") raw0 || startsWith (js "https://") raw0 then raw0
  else if startsWith (js "meet.google.com/") raw0 || startsWith (js "g.co/meet/") raw0
  then js "https://" ++ raw0
  else raw0.

(** [parseGoogleMeet] (App.tsx, lines 205-269); [None] is [null]. *)
Definition parseGoogleMeet (input : jsstring) : completion (option ParsedMeet) :=
  let raw0 := trim input in
  if negb (nonempty raw0) then Normal None
  else
    match match_meet_code raw0 with
    | Some g =>
        let code := toLowerCase g in
        Normal (Some (kind_code code (js "https://meet.google.com/" ++ code)))
    | None =>
        let raw := meet_raw raw0 in
        try_catch
          (u <- new_URL raw ;;
           if is_g_co_meet u then Normal (redirect_branch u)
           else if negb (jseqb (hostname u) (js "meet.google.com")) then Normal None
           else Normal (primary_branch u))
          (Normal None)
    end.

(** The scheme completion of lines 275-280. *)
Definition whatsapp_raw (raw0 : jsstring) : jsstring :=
  if startsWith (js "http://") raw0 || startsWith (js "https://") raw0 then raw0
  else if startsWith (js "chat.whatsapp.com/") raw0 then js "https://" ++ raw0
  else raw0.

(** [s.split("/").filter(Boolean)[0]]; [None] is [undefined]. *)
Definition first_segment (s : jsstring) : option jsstring :=
  hd_error (filter nonempty (split_on (N.eqb 47) s)).

(** [parseWhatsAppGroupLink] (App.tsx, lines 271-297); [None] is [null]. *)
Definition parseWhatsAppGroupLink (input : jsstring) : completion (option jsstring) :=
  let raw0 := trim input in
  if negb (nonempty raw0) then Normal None
  else
    let raw := whatsapp_raw raw0 in
    try_catch
      (u <- new_URL raw ;;
       if negb (jseqb (hostname u) (js "chat.whatsapp.com")) then Normal None
       else
         match first_segment (pathname u) with
         | None => Normal None
         | Some code =>
             if negb (test_invite_token code) then Normal None
             else Normal (Some (js "https://chat.whatsapp.com/" ++ code))
         end)
      (Normal None).

(** ** Serialized URL records

    What the parser guarantees of a record that has a host, as executable
    predicates. *)

(** No member of [s] is in the percent-encode set. *)
Definition stable (set : N -> bool) (s : jsstring) : bool :=
  forallb (fun c => negb (set c)) s.

Definition scheme_char (c : N) : bool :=
  is_lower c || is_digit c || (c =? 43) || (c =? 45) || (c =? 46).

Definition scheme_ok (sch : jsstring) : bool :=
  match sch with
  | c :: t => is_lower c && forallb scheme_char t
  | [] => false
  end.

Definition segment_ok (special : bool) (s : jsstring) : bool :=
  stable path_set s &&
  forallb (fun c => negb (is_path_separator special c)) s &&
  negb (is_single_dot s) && negb (is_double_dot s).

Definition path_ok (special file : bool) (segs : list jsstring) : bool :=
  forallb (segment_ok special) segs &&
  match segs with
  | s :: _ => negb file || negb (is_windows_drive_letter s) ||
              is_normalized_drive_letter s
  | [] => negb special
  end.

Definition port_ok (sch : jsstring) (p : option N) : bool :=
  match p with
  | None => true
  | Some n =>
      (n <=? 65535) &&
      match default_port sch with Some d => negb (d =? n) | None => true end
  end.

Definition option_stable (set : N -> bool) (o : option jsstring) : bool :=
  match o with Some s => stable set s | None => true end.

Definition url_ok (u : URL) : bool :=
  let special := is_special (scheme u) in
  let file := jseqb (scheme u) (js "file") in
  scheme_ok (scheme u) &&
  stable userinfo_set (username u) && stable userinfo_set (password u) &&
  (negb file || (negb (nonempty (username u)) && negb (nonempty (password u)) &&
                 match port u with None => true | Some _ => false end)) &&
  port_ok (scheme u) (port u) &&
  match path u with
  | Segments segs => path_ok special file segs
  | Opaque _ => false
  end &&
  option_stable (if special then special_query_set else query_set) (query u) &&
  option_stable fragment_set (fragment u).

(** A host made of printable characters that are allowed in a host. *)
Definition host_char (c : N) : bool :=
  negb (forbidden_host c) && (32 <? c) && (c <? 127).

(** A host that the host parser returns as it is, in the way the scheme
    has it parsed. *)
Definition host_ok (sch h : jsstring) : bool :=
  nonempty h && forallb host_char h &&
  match host_parser h (negb (is_special sch)) with
  | Some h' => jseqb h' h
  | None => false
  end &&
  (negb (jseqb sch (js "file")) ||
   (negb (is_windows_drive_letter h) && negb (jseqb h (js "localhost")))).

(** Segments without the empty ones at the end. *)
Fixpoint drop_empty_end (segs : list jsstring) : list jsstring :=
  match segs with
  | [] => []
  | s :: r =>
      match drop_empty_end r with
      | [] => if nonempty s then [s] else []
      | r' => s :: r'
      end
  end.

(** The path that a result carries under [https://meet.google.com] when
    its URL was rebuilt on that host (lines 213, 234, 249, 256, 261). *)
Definition rebuilt_path (r : ParsedMeet) : jsstring :=
  match r with
  | kind_code c _ => js "/" ++ c
  | kind_lookup t _ => js "/lookup/" ++ t
  | kind_url p _ => p
  end.

(** ** The dashboard of App.tsx

    The state of [App] that the handlers below read and write, and the
    handlers as functions on it.  A state update [setX(prev => ...)] is the
    function it applies. *)

(** [type Platform] and [type MeetingStatus] (lines 4-5). *)
Inductive Platform : Type := GoogleMeet | Zoom | Teams.
Inductive MeetingStatus : Type := status_upcoming | status_live | status_completed.

(** [type Meeting] (lines 7-22); an optional field is an [option], with
    [None] for [undefined].  [participants] is an integer in every meeting
    built here. *)
Record Meeting : Type := mkMeeting {
  id : jsstring;
  title : jsstring;
  dateLabel : jsstring;
  timeLabel : jsstring;
  platform : Platform;
  status : MeetingStatus;
  durationLabel : jsstring;
  participants : Z;
  autoJoin : bool;
  joinUrl : option jsstring;
  meetUrl : option jsstring;
  recordingUrl : option jsstring
}.

(** [type Toast] (line 26). *)
Inductive ToastType : Type := toast_success | toast_info | toast_error.
Record Toast : Type := mkToast { message : jsstring; type : ToastType }.

(** [m.status === "completed"] *)
Definition is_completed (m : Meeting) : bool :=
  match status m with status_completed => true | _ => false end.

(** [upcoming] and [completed] (lines 569-570). *)
Definition upcoming (meetings : list Meeting) : list Meeting :=
  filter (fun m => negb (is_completed m)) meetings.
Definition completed (meetings : list Meeting) : list Meeting :=
  filter is_completed meetings.

(** [filteredMeetings] (lines 564-567); the tab is ["upcoming"] or
    ["past"]. *)
Inductive Tab : Type := tab_upcoming | tab_past.
Definition filteredMeetings (tab : Tab) (meetings : list Meeting) : list Meeting :=
  match tab with
  | tab_upcoming => filter (fun m => negb (is_completed m)) meetings
  | tab_past => filter is_completed meetings
  end.

(** [{ ...m, autoJoin: !m.autoJoin }] *)
Definition flip_autoJoin (m : Meeting) : Meeting :=
  mkMeeting (id m) (title m) (dateLabel m) (timeLabel m) (platform m) (status m)
    (durationLabel m) (participants m) (negb (autoJoin m)) (joinUrl m)
    (meetUrl m) (recordingUrl m).

(** [toggleMeetingAutoJoin] (lines 572-576): the new list of meetings, and
    the toast when a meeting with that id is found in the list as it was. *)
Definition toggleMeetingAutoJoin (target : jsstring) (meetings : list Meeting)
    : list Meeting * option Toast :=
  (map (fun m => if jseqb (id m) target then flip_autoJoin m else m) meetings,
   match find (fun x => jseqb (id x) target) meetings with
   | Some m =>
       Some (mkToast (title m ++ js ": auto-join " ++
                      (if autoJoin m then js "disabled" else js "enabled"))
               toast_success)
   | None => None
   end).

(** [a || b] on an optional string: [undefined] and the empty string are
    falsy. *)
Definition or_else (a : option jsstring) (b : jsstring) : jsstring :=
  match a with
  | Some s => if nonempty s then s else b
  | None => b
  end.

(** The URL that [joinMeeting] opens (lines 579-584). *)
Definition join_url (m : Meeting) : jsstring :=
  or_else (joinUrl m)
    (or_else (meetUrl m)
       (match platform m with
        | GoogleMeet => js "https://meet.google.com"
        | _ => js "https://calendar.google.com"
        end)).

(** The events that [syncNow] imports (lines 712-739). *)
Definition inbound (autoJoinAllNew : bool) : list Meeting :=
  [ mkMeeting (js "gcal_101") (js "Google Meet: AI Study Group")
      (js "Tomorrow") (js "6:00 PM") GoogleMeet status_upcoming (js "1 hr")
      28%Z autoJoinAllNew (Some (js "https://meet.google.com/xyz-abcd-efg"))
      (Some (js "https://meet.google.com/xyz-abcd-efg")) None;
    mkMeeting (js "gcal_102") (js "Google Meet: Office Hours")
      (js "Next Week") (js "11:30 AM") GoogleMeet status_upcoming (js "30 min")
      9%Z autoJoinAllNew (Some (js "https://meet.google.com/pqr-stuv-wxy"))
      (Some (js "https://meet.google.com/pqr-stuv-wxy")) None ].

(** [existing.has(x)] for [existing = new Set(prev.map((m) => m.id))]. *)
Definition has_id (prev : list Meeting) (x : jsstring) : bool :=
  existsb (fun m => jseqb (id m) x) prev.

(** The update of [meetings] in [syncNow] (lines 741-745). *)
Definition sync_meetings (autoJoinAllNew : bool) (prev : list Meeting)
    : list Meeting :=
  let add := filter (fun m => negb (has_id prev (id m))) (inbound autoJoinAllNew) in
  add ++ prev.

(** [syncNow] (lines 700-751) on the list of meetings: nothing is imported
    unless the Google account is connected and calendar sync is on.  The
    import runs in the callback of the 900 ms timer, on the list as it is
    then ([prev] of the [setMeetings] updater). *)
Definition syncNow (googleConnected calendarSyncEnabled autoJoinAllNew : bool)
    (meetings : list Meeting) : list Meeting * Toast :=
  if negb googleConnected
  then (meetings,
        mkToast (js "Connect your Google account to sync meetings") toast_error)
  else if negb calendarSyncEnabled
  then (meetings, mkToast (js "Calendar sync is disabled") toast_error)
  else (sync_meetings autoJoinAllNew meetings,
        mkToast (js "Sync complete: imported Google Meet events") toast_success).

(** The largest integer below which every integer is a [number]
    ([Number.MAX_SAFE_INTEGER]). *)
Definition MAX_SAFE_INTEGER : Z := 9007199254740991.

(** [formatDurationLabel] (lines 170-179), on a whole number of minutes:
    the argument is [Math.floor(durationMins)], an integer for every
    finite [durationMins].  Up to [MAX_SAFE_INTEGER] the integer
    arithmetic is that of [number], and a template literal prints the
    decimal digits. *)
Definition formatDurationLabel (durationMins : Z) : jsstring :=
  let mins := Z.to_N (Z.max 0 durationMins) in
  if mins =? 60 then js "1 hr"
  else if 60 <? mins then
    let h := mins / 60 in
    let m := mins mod 60 in
    if negb (m =? 0) then decimal h ++ js " hr " ++ decimal m ++ js " min"
    else decimal h ++ js " hr"
  else decimal mins ++ js " min".

(** The WhatsApp integration state of lines 527-532 that
    [connectWhatsAppGroup] touches. *)
Record WhatsApp : Type := mkWhatsApp {
  whatsAppConnected : bool;
  whatsAppGroupUrl : jsstring;
  whatsAppError : option jsstring
}.

(** [connectWhatsAppGroup] (lines 656-667). *)
Definition connectWhatsAppGroup (s : WhatsApp) : completion (WhatsApp * Toast) :=
  normalized <- parseWhatsAppGroupLink (whatsAppGroupUrl s) ;;
  match normalized with
  | Some n =>
      if nonempty n
      then Normal (mkWhatsApp true n None,
                   mkToast (js "WhatsApp group connected (demo)") toast_success)
      else Normal (mkWhatsApp (whatsAppConnected s) (whatsAppGroupUrl s)
                     (Some (js "Enter a valid WhatsApp group invite link (chat.whatsapp.com/<inviteCode>).")),
                   mkToast (js "Invalid WhatsApp group link") toast_error)
  | None =>
      Normal (mkWhatsApp (whatsAppConnected s) (whatsAppGroupUrl s)
                (Some (js "Enter a valid WhatsApp group invite link (chat.whatsapp.com/<inviteCode>).")),
              mkToast (js "Invalid WhatsApp group link") toast_error)
  end.

(** The link of a manually added meeting (lines 765-785 of
    [submitManualMeeting]): an error toast, or [joinUrl] and [meetUrl]. *)
Definition manual_link (p : Platform) (link : jsstring)
    : completion (Toast + (option jsstring * option jsstring)) :=
  let rawLink := trim link in
  if nonempty rawLink then
    match p with
    | GoogleMeet =>
        parsed <- parseGoogleMeet rawLink ;;
        match parsed with
        | None => Normal (inl (mkToast (js "Invalid Google Meet link/code") toast_error))
        | Some r => Normal (inr (Some (url r), Some (url r)))
        end
    | _ => Normal (inr (Some (normalizeExternalUrl rawLink), None))
    end
  else Normal (inl (mkToast (js "Please paste a meeting link") toast_error)).

(** * Properties *)

(** ** Strings *)

Lemma jseqb_eq (a b : jsstring) : jseqb a b = true <-> a = b.
Proof.
  revert b; induction a as [|x a IH]; intros [|y b]; simpl; split;
    try congruence; try reflexivity.
  - intros H. apply andb_true_iff in H as [H1 H2].
    apply N.eqb_eq in H1. apply IH in H2. congruence.
  - intros H. injection H as -> ->. rewrite N.eqb_refl. simpl. now apply IH.
Qed.

Lemma jseqb_refl (a : jsstring) : jseqb a a = true.
Proof. now apply jseqb_eq. Qed.

Lemma jseqb_neq (a b : jsstring) : jseqb a b = false <-> a <> b.
Proof.
  split.
  - intros H E. apply jseqb_eq in E. congruence.
  - intros H. destruct (jseqb a b) eqn:E; [|reflexivity].
    apply jseqb_eq in E. contradiction.
Qed.

Lemma startsWith_app (p t : jsstring) : startsWith p (p ++ t) = true.
Proof. induction p as [|x p IH]; simpl; [reflexivity|]. now rewrite N.eqb_refl. Qed.

Lemma startsWith_iff (p s : jsstring) :
  startsWith p s = true <-> exists t, s = p ++ t.
Proof.
  split.
  - revert s; induction p as [|x p IH]; intros s H.
    + now exists s.
    + destruct s as [|y s]; simpl in H; [discriminate|].
      apply andb_true_iff in H as [H1 H2]. apply N.eqb_eq in H1.
      destruct (IH _ H2) as [t ->]. exists t. now subst.
  - intros [t ->]. apply startsWith_app.
Qed.

Lemma nonempty_false (s : jsstring) : nonempty s = false <-> s = [].
Proof. destruct s; simpl; split; congruence. Qed.

Lemma nonempty_true (s : jsstring) : nonempty s = true <-> s <> [].
Proof. destruct s; simpl; split; congruence. Qed.

Lemma strip_end_cons (p : N -> bool) (c : N) (l : jsstring) :
  p c = false -> strip_end p (c :: l) = c :: strip_end p l.
Proof. intros H. simpl. rewrite H. now destruct (strip_end p l). Qed.

Lemma strip_end_app (p : N -> bool) (a l : jsstring) :
  strip_end p l <> [] -> strip_end p (a ++ l) = a ++ strip_end p l.
Proof.
  intros H. induction a as [|c a IH]; [reflexivity|].
  simpl. rewrite IH. destruct (a ++ strip_end p l) eqn:E; [|reflexivity].
  apply app_eq_nil in E as [_ E]. contradiction.
Qed.

Lemma strip_end_fix (p : N -> bool) (l : jsstring) :
  forallb (fun c => negb (p c)) l = true -> strip_end p l = l.
Proof.
  induction l as [|c l IH]; [reflexivity|]. simpl. intros H.
  apply andb_true_iff in H as [H1 H2]. rewrite (IH H2).
  apply negb_true_iff in H1. rewrite H1. now destruct l.
Qed.

(** [strip_end] removes a suffix made of members of [p] and leaves a
    string that does not end in one. *)
Lemma strip_end_spec (p : N -> bool) (l : jsstring) :
  exists b, l = strip_end p l ++ b /\ forallb p b = true /\
            (forall x, p (last (strip_end p l) x) = true -> strip_end p l = []).
Proof.
  induction l as [|c l (b & E & Hb & Hl)].
  - exists []. repeat split; trivial.
  - simpl. destruct (strip_end p l) as [|d r] eqn:S.
    + destruct (p c) eqn:Pc.
      * exists (c :: b). simpl in *. rewrite Pc, Hb. repeat split; trivial.
        now rewrite E at 1.
      * exists b. simpl in *. repeat split; trivial; [congruence|].
        intros _ H. congruence.
    + exists b. repeat split; trivial.
      * simpl in *. congruence.
      * intros x H. specialize (Hl x). simpl in Hl, H.
        specialize (Hl H). discriminate.
Qed.

Lemma strip_start_spec (p : N -> bool) (l : jsstring) :
  exists a, l = a ++ strip_start p l /\ forallb p a = true /\
            (forall x, p (hd x (strip_start p l)) = true -> strip_start p l = []).
Proof.
  induction l as [|c l (a & E & Ha & Hl)].
  - exists []. repeat split; trivial.
  - simpl. destruct (p c) eqn:Pc.
    + exists (c :: a). simpl. rewrite Pc, Ha. repeat split; trivial. congruence.
    + exists []. repeat split; trivial. simpl. intros _ H. congruence.
Qed.

(** [trim] cuts white space off both ends and nothing else. *)
Lemma trim_spec (s : jsstring) :
  exists a b, s = a ++ trim s ++ b /\
    forallb is_js_space a = true /\ forallb is_js_space b = true /\
    (forall x, is_js_space (hd x (trim s)) = true -> trim s = []) /\
    (forall x, is_js_space (last (trim s) x) = true -> trim s = []).
Proof.
  unfold trim.
  destruct (strip_start_spec is_js_space s) as (a & Ea & Ha & Hs).
  destruct (strip_end_spec is_js_space (strip_start is_js_space s)) as (b & Eb & Hb & He).
  exists a, b. repeat split; trivial.
  - now rewrite <- Eb.
  - intros x H.
    destruct (strip_end is_js_space (strip_start is_js_space s)) as [|c r] eqn:E;
      [reflexivity|].
    rewrite Eb in Hs. simpl in Hs, H. specialize (Hs x H). discriminate.
Qed.

(** ** Meeting codes *)

(** The grammar of section 3 of the specification: three alphabetic
    segments of lengths 3, 4 and 3, joined by hyphens. *)
Definition meeting_code (s : jsstring) : Prop :=
  exists a b c, s = a ++ [45] ++ b ++ [45] ++ c /\
    length a = 3%nat /\ length b = 4%nat /\ length c = 3%nat /\
    forallb is_alpha (a ++ b ++ c) = true.

Ltac split_andb :=
  repeat match goal with
         | H : _ && _ = true |- _ => apply andb_true_iff in H; destruct H
         end.

Lemma match_classes_length (ps : list (N -> bool)) (s : jsstring) :
  match_classes ps s = true -> length s = length ps.
Proof.
  revert s; induction ps as [|p ps IH]; intros [|c s]; simpl; try congruence.
  intros H. apply andb_true_iff in H as [_ H]. now rewrite (IH _ H).
Qed.

(** A string of twelve code units, taken apart. *)
Ltac twelve s H :=
  apply match_classes_length in H as ?L; cbn in L;
  do 12 (destruct s as [|? s]; [discriminate L|]);
  destruct s; [clear L|discriminate L].

Lemma meet_code_pattern_iff (s : jsstring) :
  match_classes meet_code_pattern s = true <-> meeting_code s.
Proof.
  split.
  - intros H. pose proof H as H'. twelve s H'.
    cbn in H. split_andb.
    repeat match goal with
           | H : (45 =? _) = true |- _ => apply N.eqb_eq in H; subst
           end.
    eexists [_; _; _], [_; _; _; _], [_; _; _].
    repeat split. cbn. unfold letter in *.
    repeat (apply andb_true_iff; split); trivial.
  - intros (a & b & c & -> & Ha & Hb & Hc & Hl).
    do 4 (destruct a as [|? a]; try discriminate Ha).
    do 5 (destruct b as [|? b]; try discriminate Hb).
    do 4 (destruct c as [|? c]; try discriminate Hc).
    cbn in Hl |- *. split_andb. unfold letter.
    repeat (apply andb_true_iff; split); trivial.
Qed.

(** Case analysis on every comparison of code units in sight. *)
Ltac char_cases :=
  repeat first
    [ match goal with
      | |- context [?a <=? ?b] => destruct (N.leb_spec a b); try lia
      | |- context [?a <? ?b] => destruct (N.ltb_spec a b); try lia
      | |- context [?a =? ?b] => destruct (N.eqb_spec a b); try lia
      | H : context [?a <=? ?b] |- _ => destruct (N.leb_spec a b); try lia
      | H : context [?a <? ?b] |- _ => destruct (N.ltb_spec a b); try lia
      | H : context [?a =? ?b] |- _ => destruct (N.eqb_spec a b); try lia
      end
    | progress simpl in * ];
  try congruence; try lia.

Ltac unfold_classes :=
  unfold lower_char, is_alnum, is_alpha, is_hex, is_digit, is_upper, is_lower,
    is_ascii, in_range in *.

Lemma lower_char_alpha (c : N) : is_alpha (lower_char c) = is_alpha c.
Proof. unfold_classes. char_cases. Qed.

Lemma lower_char_hyphen (c : N) : (45 =? lower_char c) = (45 =? c).
Proof. unfold_classes. char_cases. Qed.

Lemma lower_char_idem (c : N) : lower_char (lower_char c) = lower_char c.
Proof. unfold_classes. char_cases. Qed.

Lemma match_classes_lower (ps : list (N -> bool)) (s : jsstring) :
  Forall (fun p => forall c, p (lower_char c) = p c) ps ->
  match_classes ps (toLowerCase s) = match_classes ps s.
Proof.
  intros Hp. revert s.
  induction Hp as [|p ps Hp _ IH]; intros [|c s]; simpl; trivial.
  now rewrite Hp, IH.
Qed.

Lemma meet_code_lower (s : jsstring) :
  match_classes meet_code_pattern (toLowerCase s) =
  match_classes meet_code_pattern s.
Proof.
  apply match_classes_lower. unfold meet_code_pattern, letter. cbn.
  repeat constructor; intros c;
    first [apply lower_char_alpha | apply lower_char_hyphen].
Qed.

Lemma meet_code_nonempty (s : jsstring) :
  match_classes meet_code_pattern s = true -> nonempty s = true.
Proof. destruct s; [discriminate|reflexivity]. Qed.

(** A matched meeting code is made of letters and hyphens. *)
Lemma meet_code_chars (s : jsstring) :
  match_classes meet_code_pattern s = true ->
  forallb (fun c => is_alpha c || (c =? 45)) s = true.
Proof.
  intros H. pose proof H as H'. twelve s H'.
  cbn in H. split_andb. unfold letter in *. cbn.
  repeat match goal with
         | H : (45 =? _) = true |- _ => apply N.eqb_eq in H; subst
         | H : is_alpha _ = true |- _ => rewrite H; clear H
         end.
  reflexivity.
Qed.

Lemma toLowerCase_idem (s : jsstring) : toLowerCase (toLowerCase s) = toLowerCase s.
Proof.
  unfold toLowerCase. rewrite map_map. apply map_ext. apply lower_char_idem.
Qed.

Lemma lower_char_not_upper (c : N) : is_upper (lower_char c) = false.
Proof. unfold_classes. char_cases. Qed.

Lemma toLowerCase_is_lower (s : jsstring) :
  forallb (fun c => negb (is_upper c)) (toLowerCase s) = true.
Proof.
  induction s as [|c s IH]; [reflexivity|]. simpl.
  now rewrite lower_char_not_upper, IH.
Qed.

(** ** The generic URL normalizer *)

(** C8.  [normalizeExternalUrl] trims its input (it cuts white space off
    both ends and nothing else, [trim_spec]); an input that is empty after
    trimming gives the empty string; one that starts with [http://] or
    [https://] is returned as trimmed; every other one is returned as
    trimmed with [https://] in front.  The result is never anything else. *)
Theorem normalizeExternalUrl_contract (raw : jsstring) :
  (exists a b, raw = a ++ trim raw ++ b /\
     forallb is_js_space a = true /\ forallb is_js_space b = true /\
     (forall x, is_js_space (hd x (trim raw)) = true -> trim raw = []) /\
     (forall x, is_js_space (last (trim raw) x) = true -> trim raw = [])) /\
  (trim raw = [] -> normalizeExternalUrl raw = []) /\
  ((exists t, trim raw = js "http://" ++ t) \/
   (exists t, trim raw = js "https://" ++ t) ->
   normalizeExternalUrl raw = trim raw) /\
  (trim raw <> [] ->
   ~ (exists t, trim raw = js "http://" ++ t) ->
   ~ (exists t, trim raw = js "https://" ++ t) ->
   normalizeExternalUrl raw = js "https://" ++ trim raw).
Proof.
  split; [apply trim_spec|]. unfold normalizeExternalUrl.
  split; [|split].
  - intros E. now rewrite E.
  - intros H.
    assert (S : startsWith (js "http://") (trim raw) ||
                startsWith (js "https://") (trim raw) = true).
    { apply orb_true_iff. destruct H as [H|H]; [left|right];
        now apply startsWith_iff. }
    rewrite S. now destruct (nonempty (trim raw)).
  - intros Hne H1 H2. apply nonempty_true in Hne. rewrite Hne. cbn [negb].
    destruct (startsWith (js "http://") (trim raw)) eqn:S1.
    { apply startsWith_iff in S1. contradiction. }
    destruct (startsWith (js "https://") (trim raw)) eqn:S2.
    { apply startsWith_iff in S2. contradiction. }
    reflexivity.
Qed.

(** ** Bare meeting codes *)

(** C4.  When the trimmed input is a meeting code in any letter case,
    [parseGoogleMeet] returns the [code] variant with the code lowercased
    and the URL [https://meet.google.com/<code>]; the returned code is
    itself a meeting code without capital letters; and every input with
    the same lowercased trimmed form gives the same result. *)
Theorem bare_code_case_normalization (input : jsstring) :
  meeting_code (trim input) ->
  let code := toLowerCase (trim input) in
  parseGoogleMeet input =
    Normal (Some (kind_code code (js "https://meet.google.com/" ++ code))) /\
  meeting_code code /\
  forallb (fun c => negb (is_upper c)) code = true /\
  forall input', toLowerCase (trim input') = code ->
    parseGoogleMeet input' = parseGoogleMeet input.
Proof.
  intros H code. apply meet_code_pattern_iff in H.
  assert (P : forall i, match_classes meet_code_pattern (trim i) = true ->
     parseGoogleMeet i = Normal (Some (kind_code (toLowerCase (trim i))
       (js "https://meet.google.com/" ++ toLowerCase (trim i))))).
  { intros i Hi. unfold parseGoogleMeet, match_meet_code.
    now rewrite (meet_code_nonempty _ Hi), Hi. }
  split; [now apply P|]. split; [|split].
  - apply meet_code_pattern_iff. unfold code. now rewrite meet_code_lower.
  - apply toLowerCase_is_lower.
  - intros input' E. rewrite (P _ H), P.
    + now rewrite E.
    + rewrite <- meet_code_lower, E. unfold code. now rewrite meet_code_lower.
Qed.

(** ** Scanning *)

Lemma forallb_imp (p q : N -> bool) (l : list N) :
  (forall c, p c = true -> q c = true) ->
  forallb p l = true -> forallb q l = true.
Proof.
  intros I. induction l as [|c l IH]; simpl; [trivial|].
  intros H. apply andb_true_iff in H as [H1 H2]. now rewrite (I _ H1), IH.
Qed.

(** [l] is empty or starts with a member of [p]. *)
Definition stops (p : N -> bool) (l : list N) : bool :=
  match l with [] => true | c :: _ => p c end.

Lemma before_app (p : N -> bool) (a l : list N) :
  forallb (fun c => negb (p c)) a = true ->
  before p (a ++ l) = a ++ before p l.
Proof.
  induction a as [|c a IH]; simpl; [trivial|]. intros H.
  apply andb_true_iff in H as [H1 H2]. apply negb_true_iff in H1.
  now rewrite H1, IH.
Qed.

Lemma from_app (p : N -> bool) (a l : list N) :
  forallb (fun c => negb (p c)) a = true -> from p (a ++ l) = from p l.
Proof.
  induction a as [|c a IH]; simpl; [trivial|]. intros H.
  apply andb_true_iff in H as [H1 H2]. apply negb_true_iff in H1.
  now rewrite H1, IH.
Qed.

Lemma before_stops (p : N -> bool) (l : list N) :
  stops p l = true -> before p l = [].
Proof. destruct l; simpl; [trivial|]. now intros ->. Qed.

Lemma from_stops (p : N -> bool) (l : list N) :
  stops p l = true -> from p l = l.
Proof. destruct l; simpl; [trivial|]. now intros ->. Qed.

Lemma before_to (p : N -> bool) (a l : list N) :
  forallb (fun c => negb (p c)) a = true -> stops p l = true ->
  before p (a ++ l) = a.
Proof.
  intros Ha Hl. now rewrite before_app, before_stops, app_nil_r.
Qed.

Lemma from_to (p : N -> bool) (a l : list N) :
  forallb (fun c => negb (p c)) a = true -> stops p l = true ->
  from p (a ++ l) = l.
Proof. intros Ha Hl. now rewrite from_app, from_stops. Qed.

Lemma before_from (p : N -> bool) (l : list N) : before p l ++ from p l = l.
Proof.
  induction l as [|c l IH]; simpl; [trivial|].
  destruct (p c); simpl; [trivial|]. now rewrite IH.
Qed.

Lemma before_free (p : N -> bool) (l : list N) :
  forallb (fun c => negb (p c)) (before p l) = true.
Proof.
  induction l as [|c l IH]; simpl; [trivial|].
  destruct (p c) eqn:E; simpl; [trivial|]. now rewrite E, IH.
Qed.

Lemma from_stop (p : N -> bool) (l : list N) : stops p (from p l) = true.
Proof.
  induction l as [|c l IH]; simpl; [trivial|].
  destruct (p c) eqn:E; simpl; trivial.
Qed.

Lemma strip_start_stops (p : N -> bool) (l : list N) :
  stops (fun c => negb (p c)) l = true -> strip_start p l = l.
Proof.
  destruct l; simpl; [trivial|]. intros H. apply negb_true_iff in H.
  now rewrite H.
Qed.

(** Printable ASCII other than the space. *)
Definition printable (c : N) : bool := (32 <? c) && (c <? 127).

Lemma scalar_values_cons (c : N) (t : jsstring) :
  (c <? 55296) = true -> scalar_values (c :: t) = c :: scalar_values t.
Proof.
  intros H. cbn [scalar_values].
  assert (A : is_high_surrogate c = false)
    by (clear t; unfold is_high_surrogate, in_range; char_cases).
  assert (B : is_low_surrogate c = false)
    by (clear t A; unfold is_low_surrogate, in_range; char_cases).
  now rewrite A, B.
Qed.

Lemma scalar_values_app (a s : jsstring) :
  forallb (fun c => c <? 55296) a = true ->
  scalar_values (a ++ s) = a ++ scalar_values s.
Proof.
  induction a as [|c a IH]; [trivial|]. cbn [forallb app]. intros H.
  apply andb_true_iff in H as [H1 H2].
  now rewrite scalar_values_cons, IH.
Qed.

Lemma scalar_values_fix (s : jsstring) :
  forallb (fun c => c <? 55296) s = true -> scalar_values s = s.
Proof.
  intros H. rewrite <- (app_nil_r s) at 1.
  rewrite scalar_values_app by trivial. apply app_nil_r.
Qed.

Lemma printable_bmp (c : N) : printable c = true -> (c <? 55296) = true.
Proof. unfold printable. intros H. char_cases. Qed.

Lemma printable_no_space (c : N) : printable c = true -> is_js_space c = false.
Proof. unfold printable, is_js_space, in_range. intros H. char_cases. Qed.

Lemma printable_no_c0 (c : N) : printable c = true -> is_c0_or_space c = false.
Proof. unfold printable, is_c0_or_space. intros H. char_cases. Qed.

Lemma printable_no_tab (c : N) : printable c = true -> is_tab_or_newline c = false.
Proof. unfold printable, is_tab_or_newline. intros H. char_cases. Qed.

Lemma strip_both_fix (p : N -> bool) (s : jsstring) :
  forallb (fun c => negb (p c)) s = true ->
  strip_end p (strip_start p s) = s.
Proof.
  intros H. rewrite strip_start_stops.
  - now apply strip_end_fix.
  - destruct s; simpl in *; [trivial|]. now apply andb_true_iff in H as [H _].
Qed.

Lemma trim_printable (s : jsstring) :
  forallb printable s = true -> trim s = s.
Proof.
  intros H. apply strip_both_fix. revert H. apply forallb_imp.
  intros c Hc. now rewrite printable_no_space.
Qed.

Lemma preprocess_printable (s : jsstring) :
  forallb printable s = true -> preprocess s = s.
Proof.
  intros H. unfold preprocess. rewrite strip_both_fix.
  - induction s as [|c s IH]; simpl; [trivial|]. simpl in H.
    apply andb_true_iff in H as [H1 H2]. rewrite (printable_no_tab _ H1).
    simpl. now rewrite IH.
  - revert H. apply forallb_imp. intros c Hc. now rewrite printable_no_c0.
Qed.

Lemma new_URL_printable (s : jsstring) :
  forallb printable s = true ->
  new_URL s = match url_states s with Some u => Normal u | None => Throw end.
Proof.
  intros H. unfold new_URL, basic_url_parser.
  rewrite scalar_values_fix, preprocess_printable; trivial.
  revert H. apply forallb_imp, printable_bmp.
Qed.

(** A printable prefix survives the preprocessing as it is. *)
Lemma preprocess_prefix (a s : jsstring) :
  forallb printable a = true -> a <> [] ->
  exists s', preprocess (a ++ s) = a ++ s'.
Proof.
  intros H Hne. unfold preprocess.
  exists (filter (fun c => negb (is_tab_or_newline c)) (strip_end is_c0_or_space s)).
  rewrite strip_start_stops.
  2:{ destruct a; [contradiction|]. simpl in *.
      apply andb_true_iff in H as [H _]. now rewrite printable_no_c0. }
  clear Hne. induction a as [|c a IH]; [reflexivity|].
  simpl in H. apply andb_true_iff in H as [H1 H2].
  cbn [app]. rewrite strip_end_cons by now apply printable_no_c0.
  cbn [filter]. rewrite (printable_no_tab _ H1). cbn [negb]. now rewrite IH.
Qed.

(** ** Percent encoding *)

Lemma percent_encode_fix (set : N -> bool) (s : jsstring) :
  stable set s = true -> percent_encode set s = s.
Proof.
  unfold stable, percent_encode. induction s as [|c s IH]; simpl; [trivial|].
  intros H. apply andb_true_iff in H as [H1 H2]. apply negb_true_iff in H1.
  unfold percent_encode_cp at 1. rewrite H1. simpl. now rewrite IH.
Qed.

Definition is_upper_hex (c : N) : bool := is_digit c || in_range 65 70 c.

Lemma hex_digit_range (d : N) : is_upper_hex (hex_digit d) = true.
Proof.
  unfold hex_digit, is_upper_hex, is_digit, in_range.
  pose proof (N.mod_upper_bound d 16). generalize dependent (d mod 16).
  intros x Hx. assert (x < 16) by (apply Hx; lia). clear Hx. char_cases.
Qed.

(** A percent-encode set that holds neither [%] nor a hexadecimal digit:
    what it encodes stays encoded. *)
Definition safe_set (set : N -> bool) : Prop :=
  set 37 = false /\ forall c, is_upper_hex c = true -> set c = false.

Ltac unfold_sets :=
  unfold is_file_host_end in *;
  unfold userinfo_set, path_set, special_query_set, query_set, fragment_set,
    c0_control_set, is_upper_hex, printable, is_path_separator,
    is_authority_end, is_query_or_fragment_start, is_fragment_start,
    is_colon, is_slash_or_backslash in *;
  unfold_classes.

Lemma safe_c0 : safe_set c0_control_set.
Proof. split; [reflexivity|]. intros c H. unfold_sets. char_cases. Qed.
Lemma safe_fragment : safe_set fragment_set.
Proof. split; [reflexivity|]. intros c H. unfold_sets. char_cases. Qed.
Lemma safe_query : safe_set query_set.
Proof. split; [reflexivity|]. intros c H. unfold_sets. char_cases. Qed.
Lemma safe_special_query : safe_set special_query_set.
Proof. split; [reflexivity|]. intros c H. unfold_sets. char_cases. Qed.
Lemma safe_path : safe_set path_set.
Proof. split; [reflexivity|]. intros c H. unfold_sets. char_cases. Qed.
Lemma safe_userinfo : safe_set userinfo_set.
Proof. split; [reflexivity|]. intros c H. unfold_sets. char_cases. Qed.

Lemma stable_app (set : N -> bool) (a b : jsstring) :
  stable set (a ++ b) = stable set a && stable set b.
Proof. apply forallb_app. Qed.

Lemma percent_bytes_stable (set : N -> bool) (bs : list N) :
  safe_set set -> stable set (flat_map percent_byte bs) = true.
Proof.
  intros [S1 S2]. induction bs as [|b bs IH]; [reflexivity|].
  cbn [flat_map]. rewrite stable_app, IH, andb_true_r.
  unfold percent_byte, stable. cbn [forallb].
  now rewrite S1, !S2 by apply hex_digit_range.
Qed.

Lemma percent_encode_cp_stable (set : N -> bool) (c : N) :
  safe_set set -> stable set (percent_encode_cp set c) = true.
Proof.
  intros S. unfold percent_encode_cp. destruct (set c) eqn:E.
  - now apply percent_bytes_stable.
  - unfold stable. simpl. now rewrite E.
Qed.

Lemma percent_encode_stable (set : N -> bool) (l : list N) :
  safe_set set -> stable set (percent_encode set l) = true.
Proof.
  intros S. unfold percent_encode. induction l as [|c l IH]; [reflexivity|].
  cbn [flat_map]. now rewrite stable_app, percent_encode_cp_stable, IH.
Qed.

(** What the sets of the path, the query, the fragment and the user
    information leave alone is printable. *)
Lemma path_stable_printable (c : N) : path_set c = false -> printable c = true.
Proof. intros H. unfold_sets. char_cases. Qed.
Lemma query_stable_printable (c : N) : query_set c = false -> printable c = true.
Proof. intros H. unfold_sets. char_cases. Qed.
Lemma special_query_stable_printable (c : N) :
  special_query_set c = false -> printable c = true.
Proof. intros H. unfold_sets. char_cases. Qed.
Lemma fragment_stable_printable (c : N) :
  fragment_set c = false -> printable c = true.
Proof. intros H. unfold_sets. char_cases. Qed.
Lemma userinfo_stable_printable (c : N) :
  userinfo_set c = false -> printable c = true.
Proof. intros H. unfold_sets. char_cases. Qed.

Lemma stable_printable (set : N -> bool) (s : jsstring) :
  (forall c, set c = false -> printable c = true) ->
  stable set s = true -> forallb printable s = true.
Proof.
  intros I. apply forallb_imp. intros c H. apply I. now apply negb_true_iff.
Qed.

(** ** Schemes *)

Lemma scheme_char_step (c : N) :
  scheme_char c = true ->
  (is_alnum c || (c =? 43) || (c =? 45) || (c =? 46)) = true /\ lower_char c = c.
Proof. unfold scheme_char. intros H. split; unfold_classes; char_cases. Qed.

Lemma scheme_state_app (s rest buffer : jsstring) :
  forallb scheme_char s = true ->
  scheme_state (s ++ 58 :: rest) buffer = Some (buffer ++ s, rest).
Proof.
  revert buffer. induction s as [|c s IH]; intros buffer H.
  - simpl. now rewrite app_nil_r.
  - simpl in H. apply andb_true_iff in H as [H1 H2].
    destruct (scheme_char_step _ H1) as [A B]. cbn [app scheme_state].
    rewrite A, B, IH by trivial. now rewrite <- app_assoc.
Qed.

Lemma scheme_start_app (sch rest : jsstring) :
  scheme_ok sch = true ->
  scheme_start_state (sch ++ 58 :: rest) = Some (sch, rest).
Proof.
  destruct sch as [|c s]; [discriminate|]. simpl. intros H.
  apply andb_true_iff in H as [H1 H2].
  assert (A : is_alpha c = true) by (unfold is_alpha; now rewrite H1, orb_true_r).
  assert (B : lower_char c = c) by (unfold_classes; char_cases).
  now rewrite A, B, scheme_state_app.
Qed.

Lemma scheme_state_ok (l buffer sch rest : jsstring) :
  scheme_state l buffer = Some (sch, rest) ->
  scheme_ok buffer = true -> scheme_ok sch = true.
Proof.
  revert buffer. induction l as [|c l IH]; intros buffer; simpl; [discriminate|].
  destruct (is_alnum c || (c =? 43) || (c =? 45) || (c =? 46)) eqn:E.
  - intros H Hb. apply (IH _ H). destruct buffer as [|b buffer]; [discriminate|].
    simpl in *. apply andb_true_iff in Hb as [Hb1 Hb2].
    rewrite Hb1, forallb_app, Hb2. simpl. rewrite andb_true_r.
    unfold scheme_char. unfold_classes. char_cases.
  - destruct (c =? 58); [|discriminate]. intros H. now injection H as -> _.
Qed.

Lemma scheme_start_ok (l sch rest : jsstring) :
  scheme_start_state l = Some (sch, rest) -> scheme_ok sch = true.
Proof.
  destruct l as [|c l]; simpl; [discriminate|].
  destruct (is_alpha c) eqn:A; [|discriminate].
  intros H. apply (scheme_state_ok _ _ _ _ H). simpl. rewrite andb_true_r.
  unfold_classes. char_cases.
Qed.

(** Without a colon after scheme characters there is no scheme. *)
Lemma scheme_state_none (l buffer : jsstring) :
  forallb (fun c => is_alnum c || (c =? 43) || (c =? 45) || (c =? 46)) l = true ->
  scheme_state l buffer = None.
Proof.
  revert buffer. induction l as [|c l IH]; intros buffer; simpl; [trivial|].
  intros H. apply andb_true_iff in H as [H1 H2]. now rewrite H1, IH.
Qed.

(** ** Paths *)

Definition no_separator (special : bool) (s : jsstring) : bool :=
  forallb (fun c => negb (is_path_separator special c)) s.

(** The first segment of a [file] path is not a drive letter with a bar. *)
Definition first_ok (file : bool) (p : list jsstring) : bool :=
  match p with
  | s :: _ => negb file || negb (is_windows_drive_letter s) ||
              is_normalized_drive_letter s
  | [] => true
  end.

Lemma path_ok_split (special file : bool) (p : list jsstring) :
  p <> [] ->
  path_ok special file p = forallb (segment_ok special) p && first_ok file p.
Proof. destruct p; [contradiction|reflexivity]. Qed.

Lemma forallb_removelast {A} (f : A -> bool) (l : list A) :
  forallb f l = true -> forallb f (removelast l) = true.
Proof.
  induction l as [|a l IH]; [trivial|]. intros H.
  apply andb_true_iff in H as [H1 H2]. destruct l as [|b l]; [reflexivity|].
  change (removelast (a :: b :: l)) with (a :: removelast (b :: l)).
  cbn [forallb]. now rewrite H1, IH.
Qed.

Lemma shorten_ok (special file : bool) (p : list jsstring) :
  forallb (segment_ok special) p = true -> first_ok file p = true ->
  forallb (segment_ok special) (shorten file p) = true /\
  first_ok file (shorten file p) = true.
Proof.
  intros H F. unfold shorten. destruct p as [|s [|s2 p]]; [now split| |].
  - destruct (file && is_normalized_drive_letter s); now split.
  - split; [now apply forallb_removelast|]. exact F.
Qed.

Lemma segments_ok_snoc (special : bool) (p : list jsstring) (s : jsstring) :
  forallb (segment_ok special) p = true -> segment_ok special s = true ->
  forallb (segment_ok special) (p ++ [s]) = true.
Proof. intros H1 H2. rewrite forallb_app, H1. simpl. now rewrite H2. Qed.

Lemma first_ok_snoc (file : bool) (p : list jsstring) (s : jsstring) :
  first_ok file p = true -> (p = [] -> first_ok file [s] = true) ->
  first_ok file (p ++ [s]) = true.
Proof. destruct p; simpl; intros H1 H2; [now apply H2 | exact H1]. Qed.

Lemma segment_ok_nil (special : bool) : segment_ok special [] = true.
Proof. reflexivity. Qed.

Lemma drive_letter_segment_ok (special : bool) (b : jsstring) :
  is_windows_drive_letter b = true ->
  segment_ok special (normalize_drive_letter b) = true /\
  is_normalized_drive_letter (normalize_drive_letter b) = true.
Proof.
  destruct b as [|a [|c [|d b]]]; try discriminate. simpl. intros H.
  apply andb_true_iff in H as [H _]. rewrite H. split; [|reflexivity].
  unfold segment_ok, stable, is_single_dot, is_double_dot, toLowerCase.
  cbn [forallb map].
  assert (P : path_set a = false) by (unfold_sets; char_cases).
  assert (S : is_path_separator special a = false)
    by (destruct special; unfold_sets; char_cases).
  rewrite P, S.
  replace (is_path_separator special 58) with false
    by (now destruct special).
  assert (L : lower_char a <> 46 /\ lower_char a <> 37) by (unfold_classes; char_cases).
  destruct L as [L1 L2]. apply N.eqb_neq in L1, L2.
  unfold jseqb; fold jseqb. change (js ".") with [46].
  change (js "%2e") with [37; 50; 101]. change (js "..") with [46; 46].
  change (js ".%2e") with [46; 37; 50; 101].
  change (js "%2e.") with [37; 50; 101; 46].
  change (js "%2e%2e") with [37; 50; 101; 37; 50; 101].
  cbn [jseqb]. now rewrite L1, L2.
Qed.

Lemma path_segment_ok (special file : bool) (buffer : jsstring) (final : bool)
    (p : list jsstring) :
  forallb (segment_ok special) p = true -> first_ok file p = true ->
  stable path_set buffer = true -> no_separator special buffer = true ->
  forallb (segment_ok special) (path_segment file buffer final p) = true /\
  first_ok file (path_segment file buffer final p) = true.
Proof.
  intros H F Sb Nb. unfold path_segment.
  destruct (is_double_dot buffer) eqn:DD.
  { destruct (shorten_ok special file p H F) as [A B].
    destruct final; [|now split]. split.
    - now apply segments_ok_snoc.
    - apply first_ok_snoc; trivial. intros _. simpl.
      now rewrite orb_true_r. }
  destruct (is_single_dot buffer) eqn:SD.
  { destruct final; [|now split]. split.
    - now apply segments_ok_snoc.
    - apply first_ok_snoc; trivial. intros _. simpl. now rewrite orb_true_r. }
  destruct (file && (length p =? 0)%nat && is_windows_drive_letter buffer) eqn:W.
  - apply andb_true_iff in W as [W1 W2].
    destruct (drive_letter_segment_ok special _ W2) as [A B]. split.
    + now apply segments_ok_snoc.
    + apply first_ok_snoc; trivial. intros _. simpl. rewrite B.
      now rewrite !orb_true_r.
  - split.
    + apply segments_ok_snoc; trivial. unfold segment_ok.
      fold (no_separator special buffer). now rewrite Sb, Nb, SD, DD.
    + apply first_ok_snoc; trivial. intros ->. simpl in *.
      rewrite andb_true_r in W. destruct file; [|reflexivity].
      simpl in W. now rewrite W.
Qed.

Lemma encoded_no_separator (special : bool) (c : N) :
  is_path_separator special c = false ->
  no_separator special (percent_encode_cp path_set c) = true.
Proof.
  intros H. unfold percent_encode_cp. destruct (path_set c).
  - generalize (utf8 c). intros bs. induction bs as [|b bs IH]; [reflexivity|].
    cbn [flat_map]. unfold no_separator in *. rewrite forallb_app, IH.
    rewrite andb_true_r. unfold percent_byte. cbn [forallb].
    pose proof (hex_digit_range (b / 16)) as A.
    pose proof (hex_digit_range b) as B.
    revert A B. generalize (hex_digit (b / 16)) (hex_digit b). intros x y A B.
    destruct special; unfold_sets; char_cases.
  - unfold no_separator. simpl. now rewrite H.
Qed.

Lemma path_state_ok (special file : bool) (l : list N) (buffer : jsstring)
    (p : list jsstring) :
  forallb (segment_ok special) p = true -> first_ok file p = true ->
  stable path_set buffer = true -> no_separator special buffer = true ->
  forallb (segment_ok special) (path_state special file l buffer p) = true /\
  first_ok file (path_state special file l buffer p) = true.
Proof.
  revert buffer p. induction l as [|c l IH]; intros buffer p H F Sb Nb.
  - now apply path_segment_ok.
  - cbn [path_state]. destruct (is_path_separator special c) eqn:E.
    + destruct (path_segment_ok special file buffer false p H F Sb Nb) as [A B].
      now apply IH.
    + apply IH; trivial.
      * now rewrite stable_app, Sb, percent_encode_cp_stable by apply safe_path.
      * unfold no_separator in *. rewrite forallb_app, Nb.
        now apply encoded_no_separator.
Qed.

Lemma path_segment_final_nonempty (file : bool) (buffer : jsstring)
    (p : list jsstring) :
  path_segment file buffer true p <> [].
Proof.
  unfold path_segment.
  destruct (is_double_dot buffer); [|destruct (is_single_dot buffer)];
    intros E; apply app_eq_nil in E as [_ E]; discriminate.
Qed.

Lemma path_state_nonempty (special file : bool) (l : list N)
    (buffer : jsstring) (p : list jsstring) :
  path_state special file l buffer p <> [].
Proof.
  revert buffer p. induction l as [|c l IH]; intros buffer p.
  - apply path_segment_final_nonempty.
  - cbn [path_state]. destruct (is_path_separator special c); apply IH.
Qed.

(** The path state yields a well-formed path, whatever the text. *)
Lemma path_state_path_ok (special file : bool) (l : list N) (buffer : jsstring) :
  stable path_set buffer = true -> no_separator special buffer = true ->
  path_ok special file (path_state special file l buffer []) = true.
Proof.
  intros Sb Nb. rewrite path_ok_split by apply path_state_nonempty.
  destruct (path_state_ok special file l buffer [] eq_refl eq_refl Sb Nb) as [A B].
  now rewrite A, B.
Qed.

(** *** Parsing a serialized path again *)

Lemma path_state_text (special file : bool) (s l : list N) (buffer : jsstring)
    (p : list jsstring) :
  stable path_set s = true -> no_separator special s = true ->
  path_state special file (s ++ l) buffer p =
  path_state special file l (buffer ++ s) p.
Proof.
  revert buffer. induction s as [|c s IH]; intros buffer Ss Ns.
  - now rewrite app_nil_r.
  - simpl in Ss, Ns. apply andb_true_iff in Ss as [S1 S2].
    apply andb_true_iff in Ns as [N1 N2].
    apply negb_true_iff in S1, N1. cbn [app path_state]. rewrite N1.
    unfold percent_encode_cp. rewrite S1, IH by trivial.
    now rewrite <- app_assoc.
Qed.

Lemma segment_ok_parts (special : bool) (s : jsstring) :
  segment_ok special s = true ->
  stable path_set s = true /\ no_separator special s = true /\
  is_single_dot s = false /\ is_double_dot s = false.
Proof.
  unfold segment_ok, no_separator. intros H. split_andb.
  repeat split; trivial; now apply negb_true_iff.
Qed.

Lemma path_segment_keep (special file : bool) (s : jsstring) (final : bool)
    (p : list jsstring) :
  segment_ok special s = true -> (p = [] -> first_ok file [s] = true) ->
  path_segment file s final p = p ++ [s].
Proof.
  intros H F. destruct (segment_ok_parts _ _ H) as (_ & _ & SD & DD).
  unfold path_segment. rewrite SD, DD.
  destruct (file && (length p =? 0)%nat && is_windows_drive_letter s) eqn:W;
    [|reflexivity].
  apply andb_true_iff in W as [W1 W2]. apply andb_true_iff in W1 as [W0 W1].
  destruct p; [|discriminate]. specialize (F eq_refl). simpl in F.
  rewrite W0, W2 in F. simpl in F.
  destruct s as [|a [|c [|d s]]]; try discriminate. simpl in F.
  apply andb_true_iff in F as [_ F]. apply N.eqb_eq in F. now subst.
Qed.

Definition serialize_segments (segs : list jsstring) : jsstring :=
  flat_map (fun s => 47 :: s) segs.

Lemma path_state_segments (special file : bool) (segs : list jsstring)
    (s : jsstring) (p : list jsstring) :
  forallb (segment_ok special) (s :: segs) = true ->
  (p = [] -> first_ok file [s] = true) ->
  path_state special file (s ++ serialize_segments segs) [] p = p ++ s :: segs.
Proof.
  revert s p. induction segs as [|s2 segs IH]; intros s p H F.
  - simpl in H. rewrite andb_true_r in H.
    destruct (segment_ok_parts _ _ H) as (A & B & _).
    rewrite path_state_text by trivial. simpl.
    now apply path_segment_keep with (special := special).
  - cbn [forallb] in H. apply andb_true_iff in H as [H1 H2].
    destruct (segment_ok_parts _ _ H1) as (A & B & _).
    rewrite path_state_text by trivial. cbn [serialize_segments flat_map app].
    cbn [path_state].
    replace (is_path_separator special 47) with true by now destruct special.
    rewrite (path_segment_keep special) by trivial.
    fold (serialize_segments segs). rewrite IH; trivial.
    + now rewrite <- app_assoc.
    + intros E. apply app_eq_nil in E as [_ E]. discriminate.
Qed.

(** The path state on a serialized well-formed path returns the path. *)
Lemma path_state_serialized (special file : bool) (s : jsstring)
    (segs : list jsstring) :
  path_ok special file (s :: segs) = true ->
  path_state special file (s ++ serialize_segments segs) [] [] = s :: segs.
Proof.
  intros H. unfold path_ok in H. apply andb_true_iff in H as [H1 H2].
  apply (path_state_segments special file segs s []); trivial.
Qed.

(** *** Trailing slashes *)

Lemma serialize_segments_cons (s : jsstring) (segs : list jsstring) :
  serialize_segments (s :: segs) = 47 :: s ++ serialize_segments segs.
Proof. reflexivity. Qed.

Lemma strip_end_unfold (p : N -> bool) (c : N) (l : jsstring) :
  strip_end p (c :: l) =
  match strip_end p l with
  | [] => if p c then [] else [c]
  | r => c :: r
  end.
Proof. reflexivity. Qed.

Lemma strip_end_app_nil (p : N -> bool) (a b : jsstring) :
  strip_end p b = [] -> strip_end p (a ++ b) = strip_end p a.
Proof.
  intros H. induction a as [|c a IH]; [exact H|].
  cbn [app]. now rewrite !strip_end_unfold, IH.
Qed.

Lemma strip_trailing_slashes_segments (segs : list jsstring) :
  forallb (forallb (fun c => negb (c =? 47))) segs = true ->
  strip_trailing_slashes (serialize_segments segs) =
  serialize_segments (drop_empty_end segs).
Proof.
  unfold strip_trailing_slashes.
  induction segs as [|s segs IH]; [reflexivity|]. intros H.
  cbn [forallb] in H. apply andb_true_iff in H as [H1 H2].
  specialize (IH H2). rewrite serialize_segments_cons. cbn [drop_empty_end].
  destruct (drop_empty_end segs) as [|s' r] eqn:D.
  - rewrite strip_end_unfold, strip_end_app_nil by exact IH.
    rewrite strip_end_fix.
    + destruct s; [reflexivity|].
      cbn [nonempty serialize_segments flat_map]. now rewrite app_nil_r.
    + revert H1. apply forallb_imp. intros x Hx. now rewrite N.eqb_sym.
  - rewrite serialize_segments_cons.
    change (47 :: s ++ serialize_segments segs)
      with ((47 :: s) ++ serialize_segments segs).
    rewrite strip_end_app; rewrite IH; [reflexivity | discriminate].
Qed.

(** ** Decimal numbers *)

Lemma uint_chars_digits (d : Decimal.uint) : forallb is_digit (uint_chars d) = true.
Proof. induction d; simpl; trivial. Qed.

Lemma number_of_acc (d : Decimal.uint) (acc : positive) :
  fold_left (fun a c => a * 10 + hex_value c) (uint_chars d) (N.pos acc) =
  N.pos (Pos.of_uint_acc d acc).
Proof.
  revert acc. induction d; intros acc; cbn [uint_chars fold_left Pos.of_uint_acc];
    [reflexivity|..];
    match goal with
    | |- fold_left _ _ ?x = _ =>
        match goal with
        | |- _ = N.pos (Pos.of_uint_acc _ ?y) =>
            replace x with (N.pos y) by (vm_compute hex_value; lia)
        end
    end; apply IHd.
Qed.

Lemma number_of_uint (d : Decimal.uint) :
  number_of 10 (uint_chars d) = Pos.of_uint d.
Proof.
  unfold number_of.
  induction d; cbn [uint_chars fold_left Pos.of_uint]; trivial;
    match goal with
    | |- fold_left _ _ ?x = _ =>
        let v := eval vm_compute in x in change x with v
    end; apply number_of_acc.
Qed.

Lemma number_of_decimal (n : N) : number_of 10 (decimal n) = n.
Proof.
  unfold decimal. rewrite number_of_uint. apply DecimalN.Unsigned.of_to.
Qed.

Lemma decimal_digits (n : N) : forallb is_digit (decimal n) = true.
Proof. apply uint_chars_digits. Qed.

Lemma decimal_nonempty (n : N) : decimal n <> [].
Proof.
  unfold decimal. destruct n as [|p]; [discriminate|]. simpl.
  pose proof (DecimalPos.Unsigned.to_uint_nonnil p) as H.
  destruct (Pos.to_uint p); [contradiction|..]; discriminate.
Qed.

(** ** Parsing a serialized URL again *)

Definition query_text (q : option jsstring) : jsstring :=
  match q with Some q => 63 :: q | None => [] end.

Definition fragment_text (f : option jsstring) : jsstring :=
  match f with Some f => 35 :: f | None => [] end.

Definition port_text (p : option N) : jsstring :=
  match p with Some p => 58 :: decimal p | None => [] end.

Lemma stable_free (set p : N -> bool) (s : jsstring) :
  (forall c, p c = true -> set c = true) ->
  stable set s = true -> forallb (fun c => negb (p c)) s = true.
Proof.
  intros I. apply forallb_imp. intros c H. apply negb_true_iff in H.
  apply negb_true_iff. destruct (p c) eqn:E; [|reflexivity].
  apply I in E. congruence.
Qed.

Lemma query_and_fragment_serialized (special : bool) (q f : option jsstring) :
  option_stable (if special then special_query_set else query_set) q = true ->
  option_stable fragment_set f = true ->
  query_and_fragment special (query_text q ++ fragment_text f) = (q, f).
Proof.
  intros Hq Hf.
  assert (F : match f with
              | Some f => percent_encode fragment_set f = f
              | None => True
              end).
  { destruct f; [|trivial]. now apply percent_encode_fix. }
  destruct q as [q|]; cbn [query_text app].
  - unfold query_and_fragment. simpl in Hq.
    assert (N : forallb (fun c => negb (is_fragment_start c)) q = true).
    { revert Hq. apply stable_free. intros c H.
      destruct special; unfold_sets; char_cases. }
    assert (S : stops is_fragment_start (fragment_text f) = true)
      by (now destruct f).
    rewrite before_to, from_to, percent_encode_fix by trivial.
    destruct f as [f|]; simpl; [now rewrite F|reflexivity].
  - destruct f as [f|]; simpl; [now rewrite F|reflexivity].
Qed.

Lemma segment_no_query (special : bool) (s : jsstring) :
  segment_ok special s = true ->
  forallb (fun c => negb (is_query_or_fragment_start c)) s = true.
Proof.
  intros H. destruct (segment_ok_parts _ _ H) as (A & _).
  revert A. apply stable_free. intros c Hc. unfold_sets. char_cases.
Qed.

Lemma segments_no_query (special : bool) (segs : list jsstring) :
  forallb (segment_ok special) segs = true ->
  forallb (fun c => negb (is_query_or_fragment_start c))
    (serialize_segments segs) = true.
Proof.
  induction segs as [|s segs IH]; [trivial|]. intros H.
  cbn [forallb] in H. apply andb_true_iff in H as [H1 H2].
  rewrite serialize_segments_cons. cbn [forallb].
  rewrite forallb_app, (segment_no_query _ _ H1), IH; trivial.
Qed.

Lemma tail_stops (q f : option jsstring) :
  stops is_query_or_fragment_start (query_text q ++ fragment_text f) = true.
Proof. now destruct q, f. Qed.

(** Path start state on a serialized path, query and fragment. *)
Lemma path_start_state_serialized (sch user pass : jsstring)
    (h : option jsstring) (prt : option N) (segs : list jsstring)
    (q f : option jsstring) :
  path_ok (is_special sch) (jseqb sch (js "file")) segs = true ->
  option_stable (if is_special sch then special_query_set else query_set) q = true ->
  option_stable fragment_set f = true ->
  path_start_state sch user pass h prt
    (serialize_segments segs ++ query_text q ++ fragment_text f) =
  mkURL sch user pass h prt (Segments segs) q f.
Proof.
  intros Hp Hq Hf. unfold path_start_state.
  assert (Hs : forallb (segment_ok (is_special sch)) segs = true).
  { unfold path_ok in Hp. now apply andb_true_iff in Hp as [Hp _]. }
  pose proof (segments_no_query _ _ Hs) as Hn.
  pose proof (tail_stops q f) as Ht.
  rewrite before_to, from_to, query_and_fragment_serialized by trivial.
  cbn [fst snd]. destruct segs as [|s segs].
  - simpl. unfold path_ok in Hp. simpl in Hp. apply negb_true_iff in Hp.
    now rewrite Hp.
  - rewrite serialize_segments_cons.
    replace (is_path_separator (is_special sch) 47) with true
      by now destruct (is_special sch).
    now rewrite path_state_serialized.
Qed.

(** *** The authority *)

Lemma split_last_none (x : N) (l : list N) :
  forallb (fun c => negb (c =? x)) l = true -> split_last x l = None.
Proof.
  induction l as [|c l IH]; [trivial|]. simpl. intros H.
  apply andb_true_iff in H as [H1 H2]. apply negb_true_iff in H1.
  now rewrite IH, H1.
Qed.

Lemma split_last_app (x : N) (a b : list N) :
  forallb (fun c => negb (c =? x)) b = true ->
  split_last x (a ++ x :: b) = Some (a, b).
Proof.
  intros H. induction a as [|c a IH].
  - simpl. now rewrite split_last_none, N.eqb_refl.
  - cbn [app split_last]. now rewrite IH.
Qed.

Lemma split_host_port_none (l : list N) (inb : bool) :
  forallb (fun c => negb (c =? 58)) l = true ->
  split_host_port l inb = (l, None).
Proof.
  revert inb. induction l as [|c l IH]; intros inb; [trivial|]. simpl.
  intros H. apply andb_true_iff in H as [H1 H2]. apply negb_true_iff in H1.
  now rewrite H1, IH.
Qed.

Lemma split_host_port_app (h t : list N) :
  forallb (fun c => negb (c =? 58) && negb (c =? 91)) h = true ->
  split_host_port (h ++ 58 :: t) false = (h, Some t).
Proof.
  induction h as [|c h IH]; [trivial|]. cbn [app forallb split_host_port].
  intros H. apply andb_true_iff in H as [H1 H2].
  apply andb_true_iff in H1 as [A B]. apply negb_true_iff in A, B.
  rewrite A, B. cbn [andb]. assert (E : (if c =? 93 then false else false) = false)
    by now destruct (c =? 93).
  now rewrite E, IH.
Qed.

Lemma host_char_facts (c : N) :
  host_char c = true ->
  (c =? 58) = false /\ (c =? 91) = false /\ (c =? 64) = false /\
  is_file_host_end c = false /\ printable c = true /\
  forall special, is_authority_end special c = false.
Proof.
  unfold host_char, forbidden_host. intros H.
  repeat split; try intros []; unfold_sets; char_cases.
Qed.

Lemma userinfo_facts (c : N) :
  userinfo_set c = false ->
  (c =? 58) = false /\ (c =? 64) = false /\ is_slash_or_backslash c = false /\
  forall special, is_authority_end special c = false.
Proof.
  intros H. repeat split; try intros []; unfold_sets; char_cases.
Qed.

Lemma digit_facts (c : N) :
  is_digit c = true ->
  (c =? 64) = false /\ printable c = true /\
  forall special, is_authority_end special c = false.
Proof.
  intros H. repeat split; try intros []; unfold_sets; char_cases.
Qed.

Lemma port_state_serialized (sch : jsstring) (p : N) :
  port_ok sch (Some p) = true -> port_state sch (decimal p) = Some (Some p).
Proof.
  unfold port_ok, port_state. intros H. apply andb_true_iff in H as [H1 H2].
  rewrite decimal_digits, number_of_decimal.
  pose proof (decimal_nonempty p) as Hn. destruct (decimal p); [contradiction|].
  apply N.leb_le in H1.
  replace (65535 <? p) with false by (symmetry; apply N.ltb_ge; lia).
  destruct (default_port sch) as [d|]; [|reflexivity].
  apply negb_true_iff in H2. now rewrite H2.
Qed.

Definition credentials_text (user pass : jsstring) : jsstring :=
  if nonempty user || nonempty pass
  then user ++ (if nonempty pass then 58 :: pass else []) ++ [64]
  else [].

Lemma authority_free (special : bool) (user pass h : jsstring) (prt : option N) :
  stable userinfo_set user = true -> stable userinfo_set pass = true ->
  forallb host_char h = true ->
  forallb (fun c => negb (is_authority_end special c))
    (credentials_text user pass ++ h ++ port_text prt) = true.
Proof.
  intros Hu Hp Hh.
  assert (U : forall s, stable userinfo_set s = true ->
            forallb (fun c => negb (is_authority_end special c)) s = true).
  { intros s. apply forallb_imp. intros c H. apply negb_true_iff in H.
    destruct (userinfo_facts _ H) as (_ & _ & _ & F). now rewrite F. }
  assert (A58 : is_authority_end special 58 = false) by now destruct special.
  assert (A64 : is_authority_end special 64 = false) by now destruct special.
  rewrite !forallb_app. apply andb_true_iff; split; [|apply andb_true_iff; split].
  - unfold credentials_text. destruct (nonempty user || nonempty pass); [|trivial].
    rewrite !forallb_app, (U _ Hu). cbn [forallb]. rewrite A64.
    destruct (nonempty pass); [|reflexivity]. cbn [forallb].
    now rewrite A58, (U _ Hp).
  - revert Hh. apply forallb_imp. intros c H.
    destruct (host_char_facts _ H) as (_ & _ & _ & _ & _ & F). now rewrite F.
  - destruct prt as [p|]; [|trivial]. cbn [port_text forallb]. rewrite A58.
    pose proof (decimal_digits p) as D. revert D. apply forallb_imp.
    intros c H. destruct (digit_facts _ H) as (_ & _ & F). now rewrite F.
Qed.

Lemma host_port_no_at (h : jsstring) (prt : option N) :
  forallb host_char h = true ->
  forallb (fun c => negb (c =? 64)) (h ++ port_text prt) = true.
Proof.
  intros Hh. rewrite forallb_app. apply andb_true_iff; split.
  - revert Hh. apply forallb_imp. intros c H.
    destruct (host_char_facts _ H) as (_ & _ & F & _). now rewrite F.
  - destruct prt as [p|]; [|trivial]. cbn [port_text forallb].
    pose proof (decimal_digits p) as D. revert D. apply forallb_imp.
    intros c H. destruct (digit_facts _ H) as (F & _). now rewrite F.
Qed.

Lemma host_port_split (sch h : jsstring) (prt : option N) :
  forallb host_char h = true -> port_ok sch prt = true ->
  split_host_port (h ++ port_text prt) false =
    (h, match prt with Some p => Some (decimal p) | None => None end).
Proof.
  intros Hh Hp. destruct prt as [p|]; cbn [port_text].
  - apply split_host_port_app. revert Hh. apply forallb_imp. intros c H.
    destruct (host_char_facts _ H) as (A & B & _). now rewrite A, B.
  - rewrite app_nil_r. apply split_host_port_none. revert Hh.
    apply forallb_imp. intros c H.
    destruct (host_char_facts _ H) as (A & _). now rewrite A.
Qed.

Lemma userinfo_split (user pass : jsstring) :
  stable userinfo_set user = true -> stable userinfo_set pass = true ->
  let info := user ++ (if nonempty pass then 58 :: pass else []) in
  percent_encode userinfo_set (before is_colon info) = user /\
  percent_encode userinfo_set (tl (from is_colon info)) = pass.
Proof.
  intros Hu Hp info.
  assert (N : forallb (fun c => negb (is_colon c)) user = true).
  { revert Hu. apply forallb_imp. intros c H. apply negb_true_iff in H.
    destruct (userinfo_facts _ H) as (F & _). unfold is_colon. now rewrite F. }
  assert (S : stops is_colon (if nonempty pass then 58 :: pass else []) = true)
    by now destruct (nonempty pass).
  unfold info. rewrite before_to, from_to by trivial. split.
  - now apply percent_encode_fix.
  - destruct pass; [reflexivity|]. now apply percent_encode_fix.
Qed.

(** Authority, host and port states on a serialized authority. *)
Lemma authority_state_serialized (sch user pass h : jsstring)
    (prt : option N) (rest : list N) :
  stable userinfo_set user = true -> stable userinfo_set pass = true ->
  nonempty h = true -> forallb host_char h = true ->
  host_parser h (negb (is_special sch)) = Some h ->
  port_ok sch prt = true ->
  stops (is_authority_end (is_special sch)) rest = true ->
  authority_state sch (credentials_text user pass ++ h ++ port_text prt ++ rest) =
  Some (path_start_state sch user pass (Some h) prt rest).
Proof.
  intros Hu Hp Hne Hh Hhost Hport Hrest. unfold authority_state.
  pose proof (authority_free (is_special sch) user pass h prt Hu Hp Hh) as Hfree.
  replace (credentials_text user pass ++ h ++ port_text prt ++ rest)
    with ((credentials_text user pass ++ h ++ port_text prt) ++ rest)
    by now rewrite <- !app_assoc.
  rewrite before_to, from_to by trivial.
  pose proof (host_port_no_at h prt Hh) as Hat.
  pose proof (host_port_split sch h prt Hh Hport) as Hsplit.
  assert (Hhp : nonempty (h ++ port_text prt) = true) by now destruct h.
  unfold credentials_text. destruct (nonempty user || nonempty pass) eqn:C.
  - replace ((user ++ (if nonempty pass then 58 :: pass else []) ++ [64]) ++
             h ++ port_text prt)
      with ((user ++ (if nonempty pass then 58 :: pass else [])) ++
            64 :: (h ++ port_text prt))
      by now rewrite <- !app_assoc.
    rewrite split_last_app by trivial.
    destruct (userinfo_split user pass Hu Hp) as [E1 E2]. rewrite E1, E2.
    rewrite Hhp, Hsplit. cbn [andb negb]. rewrite Hne, Hhost. cbn [negb].
    rewrite andb_false_r.
    destruct prt as [p|]; [|reflexivity].
    now rewrite (port_state_serialized _ _ Hport).
  - apply orb_false_iff in C as [C1 C2].
    apply nonempty_false in C1, C2. subst user pass. cbn [app].
    rewrite split_last_none by trivial. cbn [andb].
    rewrite Hsplit, Hne, Hhost. cbn [negb]. rewrite andb_false_r.
    destruct prt as [p|]; [|reflexivity].
    now rewrite (port_state_serialized _ _ Hport).
Qed.

Lemma url_serializer_with_host (u : URL) (h : jsstring) (segs : list jsstring) :
  host u = Some h -> path u = Segments segs ->
  url_serializer u =
  scheme u ++ 58 :: 47 :: 47 ::
    credentials_text (username u) (password u) ++ h ++ port_text (port u) ++
    serialize_segments segs ++ query_text (query u) ++ fragment_text (fragment u).
Proof.
  intros Hh Hp. unfold url_serializer, credentials. rewrite Hh, Hp.
  unfold credentials_text, port_text, query_text, fragment_text,
    path_serializer, serialize_segments.
  cbn [app]. now rewrite <- !app_assoc.
Qed.

Lemma tail_stops_authority (special file : bool) (segs : list jsstring)
    (q f : option jsstring) :
  path_ok special file segs = true ->
  stops (is_authority_end special)
    (serialize_segments segs ++ query_text q ++ fragment_text f) = true.
Proof.
  intros H. destruct segs as [|s segs]; [|reflexivity].
  unfold path_ok in H. simpl in H. apply negb_true_iff in H. subst special.
  now destruct q, f.
Qed.

(** The state machine on the serialization of a well-formed record with a
    host returns the record. *)
Lemma url_states_serialized (u : URL) (h : jsstring) :
  url_ok u = true -> host u = Some h -> host_ok (scheme u) h = true ->
  url_states (url_serializer u) = Some u.
Proof.
  intros Hok Hh Hhost. destruct u as [sch user pass ho prt pth q f].
  cbn [host scheme] in *. subst ho. unfold url_ok in Hok.
  cbn [scheme username password port path query fragment] in Hok.
  destruct pth as [?|segs]; [now rewrite !andb_false_r in Hok|].
  unfold host_ok in Hhost. split_andb.
  destruct (host_parser h (negb (is_special sch))) as [h'|] eqn:HP; [|discriminate].
  match goal with H : jseqb h' h = true |- _ => apply jseqb_eq in H; subst h' end.
  rewrite (url_serializer_with_host
             (mkURL sch user pass (Some h) prt (Segments segs) q f) h segs
             eq_refl eq_refl).
  cbn [scheme username password port path query fragment].
  unfold url_states. rewrite scheme_start_app by trivial.
  match goal with H : path_ok _ _ segs = true |- _ => rename H into Hpath end.
  pose proof (tail_stops_authority _ _ segs q f Hpath) as Htail.
  destruct (jseqb sch (js "file")) eqn:F.
  - apply jseqb_eq in F. subst sch.
    change (is_special (js "file")) with true in *. cbn [negb orb andb] in *.
    split_andb.
    repeat match goal with
           | H : negb (nonempty _) = true |- _ =>
               apply negb_true_iff, nonempty_false in H
           | H : negb _ = true |- _ => apply negb_true_iff in H
           end.
    subst user pass. destruct prt; [discriminate|].
    cbn [credentials_text nonempty orb port_text app].
    change (file_state (47 :: 47 :: ?x)) with (file_host_state x).
    unfold file_host_state.
    assert (Hfree : forallb (fun c => negb (is_file_host_end c)) h = true).
    { match goal with H : forallb host_char h = true |- _ => revert H end.
      apply forallb_imp. intros c Hc.
      destruct (host_char_facts _ Hc) as (_ & _ & _ & E & _). now rewrite E. }
    assert (Hstop : stops is_file_host_end
              (serialize_segments segs ++ query_text q ++ fragment_text f) = true).
    { destruct segs; [discriminate Hpath|reflexivity]. }
    rewrite before_to, from_to by trivial.
    repeat match goal with H : _ = _ |- _ => rewrite H end.
    cbn [negb]. f_equal. now apply path_start_state_serialized.
  - cbn [negb orb] in *.
    assert (Hauth : authority_state sch
              (credentials_text user pass ++ h ++ port_text prt ++
               serialize_segments segs ++ query_text q ++ fragment_text f) =
            Some (mkURL sch user pass (Some h) prt (Segments segs) q f)).
    { rewrite authority_state_serialized by trivial.
      f_equal. apply path_start_state_serialized; rewrite ?F; trivial. }
    destruct (is_special sch) eqn:S.
    + change (strip_start is_slash_or_backslash (47 :: 47 :: ?x))
        with (strip_start is_slash_or_backslash x).
      rewrite strip_start_stops; [exact Hauth|].
      pose proof (authority_free true user pass h prt) as Hfree.
      generalize (serialize_segments segs ++ query_text q ++ fragment_text f).
      intros t.
      replace (credentials_text user pass ++ h ++ port_text prt ++ t)
        with ((credentials_text user pass ++ h ++ port_text prt) ++ t)
        by now rewrite <- !app_assoc.
      destruct (credentials_text user pass ++ h ++ port_text prt) as [|c a] eqn:E.
      { apply app_eq_nil in E as [_ E]. apply app_eq_nil in E as [E _].
        subst h. discriminate. }
      cbn [app stops]. specialize (Hfree ltac:(trivial) ltac:(trivial) ltac:(trivial)).
      cbn [forallb] in Hfree. apply andb_true_iff in Hfree as [Hc _].
      revert Hc. unfold_sets. intros Hc. char_cases.
    + exact Hauth.
Qed.

(** ** What the parser returns is well formed *)

Lemma query_and_fragment_ok (special : bool) (l : list N) :
  option_stable (if special then special_query_set else query_set)
    (fst (query_and_fragment special l)) = true /\
  option_stable fragment_set (snd (query_and_fragment special l)) = true.
Proof.
  assert (Q : safe_set (if special then special_query_set else query_set))
    by (destruct special; [apply safe_special_query | apply safe_query]).
  unfold query_and_fragment. destruct l as [|c l]; [now split|].
  destruct (c =? 63).
  - cbn [fst snd option_stable]. split; [now apply percent_encode_stable|].
    destruct (from is_fragment_start l); [reflexivity|].
    apply percent_encode_stable, safe_fragment.
  - destruct (c =? 35); [|now split].
    cbn [fst snd option_stable]. split; [reflexivity|].
    apply percent_encode_stable, safe_fragment.
Qed.

Lemma url_ok_intro (sch user pass : jsstring) (h : option jsstring)
    (prt : option N) (segs : list jsstring) (q f : option jsstring) :
  scheme_ok sch = true ->
  stable userinfo_set user = true -> stable userinfo_set pass = true ->
  (jseqb sch (js "file") = true -> user = [] /\ pass = [] /\ prt = None) ->
  port_ok sch prt = true ->
  path_ok (is_special sch) (jseqb sch (js "file")) segs = true ->
  option_stable (if is_special sch then special_query_set else query_set) q = true ->
  option_stable fragment_set f = true ->
  url_ok (mkURL sch user pass h prt (Segments segs) q f) = true.
Proof.
  intros H1 H2 H3 H4 H5 H6 H7 H8. unfold url_ok.
  cbn [scheme username password port path query fragment].
  rewrite H1, H2, H3, H5, H6, H7, H8. cbn [andb]. rewrite !andb_true_r.
  destruct (jseqb sch (js "file")); [|reflexivity].
  destruct (H4 eq_refl) as (-> & -> & ->). reflexivity.
Qed.

Lemma port_state_ok (sch : jsstring) (l : list N) (prt : option N) :
  port_state sch l = Some prt -> port_ok sch prt = true.
Proof.
  unfold port_state, port_ok. destruct (forallb is_digit l); [|discriminate].
  destruct l as [|c l]; [now intros [= <-]|].
  destruct (N.ltb_spec 65535 (number_of 10 (c :: l))) as [|L]; [discriminate|].
  destruct (default_port sch) as [d|].
  - destruct (d =? number_of 10 (c :: l)) eqn:E; intros [= <-]; [reflexivity|].
    rewrite E. cbn [negb]. rewrite andb_true_r. now apply N.leb_le.
  - intros [= <-]. rewrite andb_true_r. now apply N.leb_le.
Qed.

Lemma path_start_state_ok (sch user pass : jsstring) (h : option jsstring)
    (prt : option N) (l : list N) :
  scheme_ok sch = true ->
  stable userinfo_set user = true -> stable userinfo_set pass = true ->
  (jseqb sch (js "file") = true -> user = [] /\ pass = [] /\ prt = None) ->
  port_ok sch prt = true ->
  url_ok (path_start_state sch user pass h prt l) = true.
Proof.
  intros H1 H2 H3 H4 H5. unfold path_start_state.
  destruct (query_and_fragment_ok (is_special sch)
              (from is_query_or_fragment_start l)) as [Q F].
  apply url_ok_intro; trivial.
  destruct (before is_query_or_fragment_start l) as [|c t].
  - destruct (is_special sch) eqn:S; [|reflexivity].
    now apply path_state_path_ok.
  - now apply path_state_path_ok.
Qed.

Lemma path_onward_ok (sch : jsstring) (h : option jsstring) (l : list N)
    (buffer : jsstring) :
  scheme_ok sch = true ->
  stable path_set buffer = true ->
  no_separator (is_special sch) buffer = true ->
  url_ok (path_onward sch h l buffer) = true.
Proof.
  intros H1 H2 H3. unfold path_onward.
  destruct (query_and_fragment_ok (is_special sch)
              (from is_query_or_fragment_start l)) as [Q F].
  apply url_ok_intro; trivial; [now intros _|].
  now apply path_state_path_ok.
Qed.

Lemma authority_state_ok (sch : jsstring) (l : list N) (u : URL) :
  scheme_ok sch = true -> jseqb sch (js "file") = false ->
  authority_state sch l = Some u -> url_ok u = true.
Proof.
  intros H1 H2. unfold authority_state.
  set (auth := before _ l). set (rest := from _ l).
  assert (P : forall user pass hp a,
    stable userinfo_set user = true -> stable userinfo_set pass = true ->
    (if a && negb (nonempty hp) then None
     else match split_host_port hp false with
          | (h, None) =>
              if is_special sch && negb (nonempty h) then None
              else match host_parser h (negb (is_special sch)) with
                   | None => None
                   | Some hs =>
                       Some (path_start_state sch user pass (Some hs) None rest)
                   end
          | (h, Some ptext) =>
              if negb (nonempty h) then None
              else match host_parser h (negb (is_special sch)),
                         port_state sch ptext with
                   | Some hs, Some prt =>
                       Some (path_start_state sch user pass (Some hs) prt rest)
                   | _, _ => None
                   end
          end) = Some u -> url_ok u = true).
  { intros user pass hp a Hu Hp.
    destruct (a && negb (nonempty hp)); [discriminate|].
    destruct (split_host_port hp false) as [h [ptext|]].
    - destruct (negb (nonempty h)); [discriminate|].
      destruct (host_parser h (negb (is_special sch))); [|discriminate].
      destruct (port_state sch ptext) as [prt|] eqn:PS; [|discriminate].
      intros [= <-]. apply path_start_state_ok; trivial.
      + rewrite H2. discriminate.
      + now apply port_state_ok with (l := ptext).
    - destruct (is_special sch && negb (nonempty h)); [discriminate|].
      destruct (host_parser h (negb (is_special sch))); [|discriminate].
      intros [= <-]. apply path_start_state_ok; trivial.
      rewrite H2. discriminate. }
  destruct (split_last 64 auth) as [[info hp]|].
  - apply P; apply percent_encode_stable, safe_userinfo.
  - now apply P.
Qed.

Lemma drive_letter_buffer (b : jsstring) :
  is_windows_drive_letter b = true ->
  stable path_set b = true /\ no_separator true b = true.
Proof.
  destruct b as [|a [|c [|d b]]]; try discriminate.
  cbn [is_windows_drive_letter]. intros W.
  apply andb_true_iff in W as [Wa Wc].
  assert (A : path_set a = false /\ is_path_separator true a = false)
    by (clear Wc; split; unfold_sets; char_cases).
  assert (C : path_set c = false /\ is_path_separator true c = false)
    by (clear Wa A; split; unfold_sets; char_cases).
  destruct A as [A1 A2], C as [C1 C2].
  unfold stable, no_separator. cbn [forallb]. now rewrite A1, A2, C1, C2.
Qed.

Lemma file_scheme_ok : scheme_ok (js "file") = true.
Proof. reflexivity. Qed.

Lemma file_host_state_ok (l : list N) (u : URL) :
  file_host_state l = Some u -> url_ok u = true.
Proof.
  unfold file_host_state.
  destruct (is_windows_drive_letter (before is_file_host_end l)) eqn:W.
  - intros [= <-]. apply path_onward_ok; [reflexivity|..].
    + exact (proj1 (drive_letter_buffer _ W)).
    + exact (proj2 (drive_letter_buffer _ W)).
  - destruct (negb (nonempty (before is_file_host_end l))).
    + intros [= <-]. apply path_start_state_ok; trivial. now intros _.
    + destruct (host_parser (before is_file_host_end l) false); [|discriminate].
      intros [= <-]. apply path_start_state_ok; trivial. now intros _.
Qed.

Lemma file_state_ok (l : list N) (u : URL) :
  file_state l = Some u -> url_ok u = true.
Proof.
  unfold file_state.
  assert (P : forall t, url_ok (path_onward (js "file") (Some []) t []) = true)
    by (intros t; now apply path_onward_ok).
  destruct l as [|c t]; [intros [= <-]; apply P|].
  destruct (is_slash_or_backslash c); [|intros [= <-]; apply P].
  destruct t as [|d t']; [intros [= <-]; apply P|].
  destruct (is_slash_or_backslash d); [|intros [= <-]; apply P].
  apply file_host_state_ok.
Qed.

(** Every record with a host that the state machine returns is well
    formed. *)
Lemma url_states_ok (l : list N) (u : URL) :
  url_states l = Some u -> host u <> None -> url_ok u = true.
Proof.
  unfold url_states.
  destruct (scheme_start_state l) as [[sch rest]|] eqn:S; [|discriminate].
  apply scheme_start_ok in S.
  destruct (jseqb sch (js "file")) eqn:F.
  { intros H _. now apply file_state_ok with (l := rest). }
  destruct (is_special sch).
  { intros H _. now apply authority_state_ok with (sch := sch) (l := strip_start is_slash_or_backslash rest). }
  destruct (startsWith [47; 47] rest).
  { intros H _. now apply authority_state_ok with (sch := sch) (l := skipn 2 rest). }
  destruct (startsWith [47] rest); intros [= <-]; simpl; congruence.
Qed.

(** ** Serializations are printable *)

Lemma scheme_printable (sch : jsstring) :
  scheme_ok sch = true -> forallb printable sch = true.
Proof.
  destruct sch as [|c s]; [discriminate|]. simpl. intros H.
  apply andb_true_iff in H as [H1 H2]. apply andb_true_iff; split.
  - unfold_sets. char_cases.
  - revert H2. apply forallb_imp. intros x Hx. unfold scheme_char in Hx.
    unfold_sets. char_cases.
Qed.

Lemma segments_printable (special : bool) (segs : list jsstring) :
  forallb (segment_ok special) segs = true ->
  forallb printable (serialize_segments segs) = true.
Proof.
  induction segs as [|s segs IH]; [trivial|]. intros H.
  cbn [forallb] in H. apply andb_true_iff in H as [H1 H2].
  rewrite serialize_segments_cons. cbn [forallb].
  rewrite forallb_app, IH by trivial. rewrite andb_true_r.
  destruct (segment_ok_parts _ _ H1) as (A & _).
  now rewrite (stable_printable _ _ path_stable_printable A).
Qed.

Lemma url_serializer_printable (u : URL) (h : jsstring) :
  url_ok u = true -> host u = Some h -> forallb host_char h = true ->
  forallb printable (url_serializer u) = true.
Proof.
  intros Hok Hh Hc. destruct u as [sch user pass ho prt pth q f].
  cbn [host] in Hh. subst ho. unfold url_ok in Hok.
  cbn [scheme username password port path query fragment] in Hok.
  destruct pth as [?|segs]; [now rewrite !andb_false_r in Hok|].
  rewrite (url_serializer_with_host
             (mkURL sch user pass (Some h) prt (Segments segs) q f) h segs
             eq_refl eq_refl).
  cbn [scheme username password port path query fragment].
  split_andb.
  assert (U : forall s, stable userinfo_set s = true -> forallb printable s = true)
    by (intros s; apply stable_printable, userinfo_stable_printable).
  rewrite forallb_app. cbn [forallb]. rewrite !forallb_app.
  repeat (apply andb_true_iff; split); trivial.
  - now apply scheme_printable.
  - unfold credentials_text. destruct (nonempty user || nonempty pass); [|trivial].
    rewrite !forallb_app, U by trivial. cbn [forallb andb].
    destruct (nonempty pass); [|reflexivity]. cbn [forallb]. now rewrite U.
  - revert Hc. apply forallb_imp. intros c Hx.
    now destruct (host_char_facts _ Hx) as (_ & _ & _ & _ & P & _).
  - destruct prt as [p|]; [|trivial]. cbn [port_text forallb andb].
    pose proof (decimal_digits p) as D. revert D. apply forallb_imp.
    intros c Hx. now destruct (digit_facts _ Hx) as (_ & P & _).
  - match goal with H : path_ok _ _ segs = true |- _ =>
      unfold path_ok in H; apply andb_true_iff in H as [H _];
      now apply segments_printable in H
    end.
  - destruct q as [q|]; [|trivial]. cbn [query_text forallb andb].
    match goal with H : option_stable _ (Some q) = true |- _ =>
      cbn [option_stable] in H; revert H end.
    apply stable_printable. intros c.
    destruct (is_special sch);
      [apply special_query_stable_printable | apply query_stable_printable].
  - destruct f as [f|]; [|trivial]. cbn [fragment_text forallb andb].
    match goal with H : option_stable _ (Some f) = true |- _ =>
      cbn [option_stable] in H; revert H end.
    apply stable_printable, fragment_stable_printable.
Qed.

Lemma host_ok_chars (sch h : jsstring) :
  host_ok sch h = true -> forallb host_char h = true.
Proof. unfold host_ok. intros H. now split_andb. Qed.

(** [new URL(u.toString())] is [u] again, for a well-formed record with a
    host that its scheme parses back. *)
Lemma new_URL_serialized (u : URL) (h : jsstring) :
  url_ok u = true -> host u = Some h -> host_ok (scheme u) h = true ->
  new_URL (toString u) = Normal u.
Proof.
  intros Hok Hh Hhost. unfold toString.
  rewrite new_URL_printable.
  - now rewrite (url_states_serialized u h).
  - apply url_serializer_printable with (h := h); trivial.
    now apply host_ok_chars with (sch := scheme u).
Qed.

Lemma new_URL_ok (raw : jsstring) (u : URL) :
  new_URL raw = Normal u -> host u <> None -> url_ok u = true.
Proof.
  unfold new_URL, basic_url_parser.
  destruct (url_states (preprocess (scalar_values raw))) as [u'|] eqn:E;
    [|discriminate].
  intros [= ->]. now apply url_states_ok with (l := preprocess (scalar_values raw)).
Qed.

Lemma hostname_host (u : URL) (h : jsstring) :
  hostname u = h -> h <> [] -> host u = Some h.
Proof.
  unfold hostname. destruct (host u); [now intros ->|]. intros <- H. now elim H.
Qed.

(** The three hosts of App.tsx parse back under every scheme. *)
Lemma host_ok_g_co (sch : jsstring) : host_ok sch (js "g.co") = true.
Proof.
  unfold host_ok. destruct (is_special sch), (jseqb sch (js "file")); reflexivity.
Qed.

Lemma host_ok_meet (sch : jsstring) : host_ok sch (js "meet.google.com") = true.
Proof.
  unfold host_ok. destruct (is_special sch), (jseqb sch (js "file")); reflexivity.
Qed.

Lemma host_ok_whatsapp (sch : jsstring) :
  host_ok sch (js "chat.whatsapp.com") = true.
Proof.
  unfold host_ok. destruct (is_special sch), (jseqb sch (js "file")); reflexivity.
Qed.

(** ** URLs under [https] with a given host *)

Lemma dot_segment_head (c : N) (s : jsstring) :
  lower_char c <> 46 -> lower_char c <> 37 ->
  is_single_dot (c :: s) = false /\ is_double_dot (c :: s) = false.
Proof.
  intros H1 H2. apply N.eqb_neq in H1, H2.
  unfold is_single_dot, is_double_dot, toLowerCase. cbn [map].
  change (js ".") with [46]. change (js "%2e") with [37; 50; 101].
  change (js "..") with [46; 46]. change (js ".%2e") with [46; 37; 50; 101].
  change (js "%2e.") with [37; 50; 101; 46].
  change (js "%2e%2e") with [37; 50; 101; 37; 50; 101].
  cbn [jseqb]. now rewrite H1, H2.
Qed.

(** Letters, digits, hyphens and underscores make a path segment that the
    path state leaves as it is. *)
Lemma token_segment_ok (special : bool) (s : jsstring) :
  forallb is_token_char s = true -> segment_ok special s = true.
Proof.
  intros H. unfold segment_ok.
  assert (A : stable path_set s = true).
  { revert H. apply forallb_imp. intros c Hc. unfold is_token_char in Hc.
    unfold_sets. char_cases. }
  assert (B : forallb (fun c => negb (is_path_separator special c)) s = true).
  { revert H. apply forallb_imp. intros c Hc. unfold is_token_char in Hc.
    destruct special; unfold_sets; char_cases. }
  rewrite A, B. cbn [andb]. destruct s as [|c s]; [reflexivity|].
  simpl in H. apply andb_true_iff in H as [Hc _].
  destruct (dot_segment_head c s) as [-> ->]; trivial;
    unfold is_token_char in Hc; unfold_sets; char_cases.
Qed.

Lemma code_token_chars (s : jsstring) :
  match_classes meet_code_pattern s = true -> forallb is_token_char s = true.
Proof.
  intros H. apply meet_code_chars in H. revert H. apply forallb_imp.
  intros c Hc. unfold is_token_char, is_alnum.
  apply orb_true_iff in Hc as [Hc|Hc]; rewrite Hc; [reflexivity|].
  now rewrite !orb_true_r.
Qed.

Lemma token_printable (s : jsstring) :
  forallb is_token_char s = true -> forallb printable s = true.
Proof.
  apply forallb_imp. intros c Hc. unfold is_token_char in Hc.
  unfold_sets. char_cases.
Qed.

Lemma token_no_slash (s : jsstring) :
  forallb is_token_char s = true ->
  forallb (fun c => negb (47 =? c)) s = true.
Proof.
  apply forallb_imp. intros c Hc. unfold is_token_char in Hc.
  unfold_sets. char_cases.
Qed.

(** The record of [https://<h><path>]. *)
Definition https_url (h : jsstring) (segs : list jsstring) : URL :=
  mkURL (js "https") [] [] (Some h) None (Segments segs) None None.

Lemma https_url_text (h : jsstring) (segs : list jsstring) :
  toString (https_url h segs) = js "https://" ++ h ++ serialize_segments segs.
Proof.
  unfold toString.
  rewrite (url_serializer_with_host (https_url h segs) h segs eq_refl eq_refl).
  cbn [https_url scheme username password port query fragment
         credentials_text nonempty orb port_text query_text fragment_text].
  now rewrite !app_nil_r.
Qed.

Lemma new_URL_https (h : jsstring) (segs : list jsstring) :
  host_ok (js "https") h = true -> segs <> [] ->
  forallb (segment_ok true) segs = true ->
  new_URL (js "https://" ++ h ++ serialize_segments segs) =
  Normal (https_url h segs).
Proof.
  intros Hh Hne Hs. rewrite <- https_url_text.
  apply new_URL_serialized with (h := h); trivial.
  apply url_ok_intro; trivial; try reflexivity.
  - discriminate.
  - change (is_special (js "https")) with true.
    change (jseqb (js "https") (js "file")) with false.
    rewrite path_ok_split by trivial. rewrite Hs. now destruct segs.
Qed.

(** Whatever follows the slash after the host, [https://<h>/...] parses,
    with scheme [https] and host [h]. *)
Lemma new_URL_https_prefix (h : jsstring) (t : jsstring) :
  host_ok (js "https") h = true ->
  exists u, new_URL (js "https://" ++ h ++ 47 :: t) = Normal u /\
            scheme u = js "https" /\ host u = Some h.
Proof.
  intros Hh. pose proof (host_ok_chars _ _ Hh) as Hc. unfold new_URL, basic_url_parser.
  assert (P : forallb printable (js "https://" ++ h ++ [47]) = true).
  { rewrite !forallb_app. apply andb_true_iff; split; [reflexivity|].
    apply andb_true_iff; split; [|reflexivity].
    revert Hc. apply forallb_imp. intros c Hx.
    now destruct (host_char_facts _ Hx) as (_ & _ & _ & _ & P & _). }
  replace (js "https://" ++ h ++ 47 :: t) with ((js "https://" ++ h ++ [47]) ++ t)
    by (rewrite <- !app_assoc; reflexivity).
  rewrite scalar_values_app by (revert P; apply forallb_imp, printable_bmp).
  destruct (preprocess_prefix (js "https://" ++ h ++ [47]) (scalar_values t) P)
    as [t' ->]; [discriminate|].
  replace ((js "https://" ++ h ++ [47]) ++ t')
    with (js "https" ++ 58 :: 47 :: 47 :: (h ++ 47 :: t'))
    by (rewrite <- !app_assoc; reflexivity).
  unfold url_states. rewrite scheme_start_app by reflexivity.
  change (jseqb (js "https") (js "file")) with false.
  change (is_special (js "https")) with true. cbv iota.
  change (strip_start is_slash_or_backslash (47 :: 47 :: ?x))
    with (strip_start is_slash_or_backslash x).
  unfold host_ok in Hh. split_andb.
  change (is_special (js "https")) with true in *. cbn [negb] in *.
  destruct (host_parser h false) as [h'|] eqn:HP; [|discriminate].
  match goal with H : jseqb h' h = true |- _ => apply jseqb_eq in H; subst h' end.
  rewrite strip_start_stops.
  2:{ destruct h as [|c h]; [discriminate|]. cbn [app stops].
      cbn [forallb] in Hc. apply andb_true_iff in Hc as [Hx _].
      destruct (host_char_facts _ Hx) as (_ & _ & _ & E & _).
      unfold is_file_host_end in E. apply orb_false_iff in E as [E _].
      now rewrite E. }
  pose proof (authority_state_serialized (js "https") [] [] h None (47 :: t'))
    as A.
  cbn [credentials_text nonempty orb port_text app] in A.
  rewrite A; trivial. eexists. split; [reflexivity|]. now split.
Qed.

(** ** Strings of letters and hyphens *)

Definition letter_or_hyphen (c : N) : bool := is_alpha c || (c =? 45).

Lemma letter_or_hyphen_printable (s : jsstring) :
  forallb letter_or_hyphen s = true -> forallb printable s = true.
Proof.
  apply forallb_imp. intros c Hc. unfold letter_or_hyphen in Hc.
  unfold_sets. char_cases.
Qed.

Lemma not_startsWith (p s : jsstring) (f : N -> bool) :
  forallb f s = true -> forallb f p = false -> startsWith p s = false.
Proof.
  intros Hs Hp. destruct (startsWith p s) eqn:E; [|reflexivity].
  apply startsWith_iff in E as [t ->]. rewrite forallb_app, Hp in Hs.
  discriminate.
Qed.

Lemma letters_meet_raw (s : jsstring) :
  forallb letter_or_hyphen s = true -> meet_raw s = s.
Proof.
  intros H. unfold meet_raw.
  now rewrite !(not_startsWith _ s letter_or_hyphen) by trivial.
Qed.

Lemma letters_no_url (s : jsstring) :
  forallb letter_or_hyphen s = true -> new_URL s = Throw.
Proof.
  intros H. rewrite new_URL_printable by now apply letter_or_hyphen_printable.
  unfold url_states. destruct s as [|c s]; [reflexivity|].
  cbn [scheme_start_state]. destruct (is_alpha c); [|reflexivity].
  rewrite scheme_state_none; [reflexivity|].
  simpl in H. apply andb_true_iff in H as [_ H]. revert H.
  apply forallb_imp. intros x Hx. unfold letter_or_hyphen in Hx.
  unfold is_alnum. apply orb_true_iff in Hx as [Hx|Hx]; rewrite Hx;
    [reflexivity|]. now rewrite !orb_true_r.
Qed.

(** A bare meeting code is not a URL. *)
Lemma code_no_url (s : jsstring) :
  match_classes meet_code_pattern s = true -> new_URL (meet_raw s) = Throw.
Proof.
  intros H. apply meet_code_chars in H.
  rewrite letters_meet_raw by exact H. now apply letters_no_url.
Qed.

Lemma new_URL_empty : new_URL [] = Throw.
Proof. reflexivity. Qed.

(** ** The branches of [parseGoogleMeet] *)

(** When the completed input is a URL, [parseGoogleMeet] is decided by
    the URL alone. *)
Lemma parseGoogleMeet_url (input : jsstring) (u : URL) :
  new_URL (meet_raw (trim input)) = Normal u ->
  parseGoogleMeet input =
  Normal (if is_g_co_meet u then redirect_branch u
          else if negb (jseqb (hostname u) (js "meet.google.com")) then None
          else primary_branch u).
Proof.
  intros H. unfold parseGoogleMeet.
  destruct (nonempty (trim input)) eqn:E.
  - cbn [negb]. unfold match_meet_code.
    destruct (match_classes meet_code_pattern (trim input)) eqn:M.
    + apply code_no_url in M. congruence.
    + rewrite H. cbn [bind try_catch].
      destruct (is_g_co_meet u); [reflexivity|].
      now destruct (negb (jseqb (hostname u) (js "meet.google.com"))).
  - apply nonempty_false in E. rewrite E in H. discriminate H.
Qed.

(** When it is neither a bare code nor a URL, the result is [null]. *)
Lemma parseGoogleMeet_no_url (input : jsstring) :
  match_meet_code (trim input) = None ->
  new_URL (meet_raw (trim input)) = Throw ->
  parseGoogleMeet input = Normal None.
Proof.
  intros M H. unfold parseGoogleMeet. rewrite M, H.
  now destruct (negb (nonempty (trim input))).
Qed.

Lemma parseWhatsAppGroupLink_url (input : jsstring) (u : URL) :
  new_URL (whatsapp_raw (trim input)) = Normal u ->
  parseWhatsAppGroupLink input =
  Normal (if negb (jseqb (hostname u) (js "chat.whatsapp.com")) then None
          else match first_segment (pathname u) with
               | None => None
               | Some code =>
                   if negb (test_invite_token code) then None
                   else Some (js "https://chat.whatsapp.com/" ++ code)
               end).
Proof.
  intros H. unfold parseWhatsAppGroupLink.
  destruct (nonempty (trim input)) eqn:E.
  - cbn [negb]. rewrite H. cbn [bind try_catch].
    destruct (negb (jseqb (hostname u) (js "chat.whatsapp.com"))); [reflexivity|].
    destruct (first_segment (pathname u)) as [code|]; [|reflexivity].
    now destruct (negb (test_invite_token code)).
  - apply nonempty_false in E. rewrite E in H. discriminate H.
Qed.

Lemma parseWhatsAppGroupLink_no_url (input : jsstring) :
  new_URL (whatsapp_raw (trim input)) = Throw ->
  parseWhatsAppGroupLink input = Normal None.
Proof.
  intros H. unfold parseWhatsAppGroupLink. rewrite H.
  now destruct (negb (nonempty (trim input))).
Qed.

(** ** Rejection and failure *)

Lemma letters_trim (s : jsstring) :
  forallb letter_or_hyphen s = true -> trim s = s.
Proof. intros H. now apply trim_printable, letter_or_hyphen_printable. Qed.

Lemma letters_rejected (s : jsstring) :
  forallb letter_or_hyphen s = true -> ~ meeting_code s ->
  parseGoogleMeet s = Normal None.
Proof.
  intros H N. apply parseGoogleMeet_no_url; rewrite letters_trim by trivial.
  - unfold match_meet_code.
    destruct (match_classes meet_code_pattern s) eqn:M; [|reflexivity].
    apply meet_code_pattern_iff in M. contradiction.
  - rewrite letters_meet_raw by trivial. now apply letters_no_url.
Qed.

(** The text before the first hyphen is determined by the whole. *)
Lemma hyphen_split_unique (a a' r r' : jsstring) :
  forallb is_alpha a = true -> forallb is_alpha a' = true ->
  a ++ 45 :: r = a' ++ 45 :: r' -> a = a' /\ r = r'.
Proof.
  revert a'. induction a as [|x a IH]; intros [|y a'] Ha Ha' E;
    cbn [app] in E.
  - injection E as E. now split.
  - injection E as E1 E2. subst y. simpl in Ha'. discriminate.
  - injection E as E1 E2. subst x. simpl in Ha. discriminate.
  - injection E as E1 E2. subst y. simpl in Ha, Ha'.
    apply andb_true_iff in Ha as [_ Ha].
    apply andb_true_iff in Ha' as [_ Ha'].
    destruct (IH a' Ha Ha' E2) as [-> ->]. now split.
Qed.

(** C7.  Hyphenated letter segments of the wrong lengths are rejected:
    [ab-cdef-ghi] and [abc-de-fgh] give [null], and so does every string
    [a-b-c] of three alphabetic segments whose lengths are not 3, 4 and 3;
    more generally every string of letters and hyphens that is not a
    meeting code. *)
Theorem grammar_rejection :
  parseGoogleMeet (js "ab-cdef-ghi") = Normal None /\
  parseGoogleMeet (js "abc-de-fgh") = Normal None /\
  (forall a b c : jsstring,
     forallb is_alpha (a ++ b ++ c) = true ->
     (length a, length b, length c) <> (3, 4, 3)%nat ->
     parseGoogleMeet (a ++ [45] ++ b ++ [45] ++ c) = Normal None) /\
  (forall s : jsstring,
     forallb letter_or_hyphen s = true -> ~ meeting_code s ->
     parseGoogleMeet s = Normal None).
Proof.
  split; [reflexivity|]. split; [reflexivity|]. split; [|apply letters_rejected].
  intros a b c H L. rewrite !forallb_app in H.
  apply andb_true_iff in H as [Ha H]. apply andb_true_iff in H as [Hb Hc].
  assert (I : forall s, forallb is_alpha s = true ->
                        forallb letter_or_hyphen s = true).
  { intros s. apply forallb_imp. intros x Hx. unfold letter_or_hyphen.
    now rewrite Hx. }
  apply letters_rejected.
  - rewrite !forallb_app, (I a), (I b), (I c) by trivial. reflexivity.
  - intros (a' & b' & c' & E & La & Lb & Lc & H'). rewrite !forallb_app in H'.
    apply andb_true_iff in H' as [Ha' H']. apply andb_true_iff in H' as [Hb' Hc'].
    cbn [app] in E. apply hyphen_split_unique in E as [-> E]; trivial.
    apply hyphen_split_unique in E as [-> ->]; trivial.
    apply L. now rewrite La, Lb, Lc.
Qed.

(** C9.  [parseGoogleMeet] and [parseWhatsAppGroupLink] never throw: on
    every input they complete normally, with a result or with [null].
    An input that is neither a bare code nor a URL gives [null], and so
    does a URL on a host that is not recognized: the two cases return the
    same value. *)
Theorem no_exception (input : jsstring) :
  (exists r, parseGoogleMeet input = Normal r) /\
  (exists r, parseWhatsAppGroupLink input = Normal r) /\
  (match_meet_code (trim input) = None ->
   new_URL (meet_raw (trim input)) = Throw ->
   parseGoogleMeet input = Normal None) /\
  (forall u, new_URL (meet_raw (trim input)) = Normal u ->
     hostname u <> js "g.co" -> hostname u <> js "meet.google.com" ->
     parseGoogleMeet input = Normal None) /\
  (new_URL (whatsapp_raw (trim input)) = Throw ->
   parseWhatsAppGroupLink input = Normal None) /\
  (forall u, new_URL (whatsapp_raw (trim input)) = Normal u ->
     hostname u <> js "chat.whatsapp.com" ->
     parseWhatsAppGroupLink input = Normal None).
Proof.
  split; [|split; [|split; [|split; [|split]]]].
  - unfold parseGoogleMeet. destruct (negb (nonempty (trim input))); [eauto|].
    destruct (match_meet_code (trim input)); [eauto|].
    destruct (new_URL (meet_raw (trim input))) as [u|]; cbn [bind try_catch];
      [|eauto].
    destruct (is_g_co_meet u); cbn [try_catch]; [eauto|].
    destruct (negb (jseqb (hostname u) (js "meet.google.com")));
      cbn [try_catch]; eauto.
  - unfold parseWhatsAppGroupLink.
    destruct (negb (nonempty (trim input))); [eauto|].
    destruct (new_URL (whatsapp_raw (trim input))) as [u|];
      cbn [bind try_catch]; [|eauto].
    destruct (negb (jseqb (hostname u) (js "chat.whatsapp.com")));
      cbn [try_catch]; [eauto|].
    destruct (first_segment (pathname u)) as [code|]; cbn [try_catch]; [|eauto].
    destruct (negb (test_invite_token code)); cbn [try_catch]; eauto.
  - apply parseGoogleMeet_no_url.
  - intros u H G M. rewrite (parseGoogleMeet_url _ _ H).
    apply jseqb_neq in G, M. unfold is_g_co_meet. now rewrite G, M.
  - apply parseWhatsAppGroupLink_no_url.
  - intros u H W. rewrite (parseWhatsAppGroupLink_url _ _ H).
    apply jseqb_neq in W. now rewrite W.
Qed.

(** ** Redirect links *)

Lemma code_trim (c : jsstring) :
  match_classes meet_code_pattern c = true -> trim c = c.
Proof. intros H. now apply letters_trim, meet_code_chars. Qed.

Lemma parse_bare_code (c : jsstring) :
  match_classes meet_code_pattern c = true ->
  parseGoogleMeet c =
  Normal (Some (kind_code (toLowerCase c)
                  (js "https://meet.google.com/" ++ toLowerCase c))).
Proof.
  intros H. unfold parseGoogleMeet, match_meet_code.
  rewrite (code_trim _ H), H. now rewrite (meet_code_nonempty _ H).
Qed.

Lemma new_URL_g_co_code (c : jsstring) :
  match_classes meet_code_pattern c = true ->
  new_URL (js "https://g.co/meet/" ++ c) =
  Normal (https_url (js "g.co") [js "meet"; c]).
Proof.
  intros H. pose proof (code_token_chars _ H) as T.
  replace (js "https://g.co/meet/" ++ c)
    with (js "https://" ++ js "g.co" ++ serialize_segments [js "meet"; c])
    by (cbn [serialize_segments flat_map]; rewrite app_nil_r; reflexivity).
  apply new_URL_https; [reflexivity|discriminate|].
  cbn [forallb]. now rewrite (token_segment_ok true c T).
Qed.

Lemma redirect_branch_code (c : jsstring) :
  match_classes meet_code_pattern c = true ->
  redirect_branch (https_url (js "g.co") [js "meet"; c]) =
  Some (kind_code (toLowerCase c) (js "https://meet.google.com/" ++ toLowerCase c)).
Proof.
  intros H. unfold redirect_branch.
  replace (slice 6 (pathname (https_url (js "g.co") [js "meet"; c]))) with c
    by (cbn; now rewrite app_nil_r).
  unfold strip_trailing_slashes.
  rewrite strip_end_fix by (apply token_no_slash, code_token_chars, H).
  unfold match_meet_code. now rewrite H.
Qed.

Lemma parse_redirect_code (c : jsstring) :
  match_classes meet_code_pattern c = true ->
  parseGoogleMeet (js "https://g.co/meet/" ++ c) = parseGoogleMeet c /\
  parseGoogleMeet (js "g.co/meet/" ++ c) = parseGoogleMeet c.
Proof.
  intros H. rewrite (parse_bare_code _ H).
  pose proof (token_printable _ (code_token_chars _ H)) as P.
  assert (R : forall x, meet_raw (trim x) = js "https://g.co/meet/" ++ c ->
            parseGoogleMeet x =
            Normal (Some (kind_code (toLowerCase c)
                            (js "https://meet.google.com/" ++ toLowerCase c)))).
  { intros x E. rewrite (parseGoogleMeet_url x (https_url (js "g.co") [js "meet"; c])).
    - replace (is_g_co_meet (https_url (js "g.co") [js "meet"; c])) with true
        by reflexivity.
      now rewrite redirect_branch_code.
    - rewrite E. now apply new_URL_g_co_code. }
  split; apply R; rewrite trim_printable; try reflexivity;
    rewrite forallb_app, P; reflexivity.
Qed.

(** C5.  For every meeting code [c], in any letter case, the redirect
    link [https://g.co/meet/<c>] and its schemeless form [g.co/meet/<c>]
    give the result of [c] itself: the [code] variant with the lowercased
    code and the URL [https://meet.google.com/<code>]. *)
Theorem redirect_unwrapping (c : jsstring) :
  meeting_code c ->
  parseGoogleMeet (js "https://g.co/meet/" ++ c) = parseGoogleMeet c /\
  parseGoogleMeet (js "g.co/meet/" ++ c) = parseGoogleMeet c /\
  parseGoogleMeet c =
    Normal (Some (kind_code (toLowerCase c)
                    (js "https://meet.google.com/" ++ toLowerCase c))).
Proof.
  intros H. apply meet_code_pattern_iff in H.
  destruct (parse_redirect_code c H) as [A B].
  split; [exact A|]. split; [exact B|]. now apply parse_bare_code.
Qed.

(** ** Trimming *)

Lemma strip_start_all (p : N -> bool) (a l : jsstring) :
  forallb p a = true -> strip_start p (a ++ l) = strip_start p l.
Proof.
  induction a as [|c a IH]; [trivial|]. cbn [forallb app strip_start].
  intros H. apply andb_true_iff in H as [H1 H2]. now rewrite H1, IH.
Qed.

Lemma strip_end_all (p : N -> bool) (b : jsstring) :
  forallb p b = true -> strip_end p b = [].
Proof.
  induction b as [|c b IH]; [trivial|]. cbn [forallb]. intros H.
  apply andb_true_iff in H as [H1 H2]. now rewrite strip_end_unfold, IH, H1.
Qed.

Lemma strip_start_app (p : N -> bool) (l b : jsstring) :
  strip_start p l <> [] -> strip_start p (l ++ b) = strip_start p l ++ b.
Proof.
  induction l as [|c l IH]; [contradiction|]. cbn [app strip_start].
  destruct (p c); [exact IH|reflexivity].
Qed.

Lemma strip_start_nil (p : N -> bool) (l : jsstring) :
  strip_start p l = [] -> forallb p l = true.
Proof.
  induction l as [|c l IH]; [trivial|]. cbn [strip_start forallb].
  destruct (p c); [exact IH|discriminate].
Qed.

(** White space before and after a string does not change its [trim]. *)
Lemma trim_pad (a x b : jsstring) :
  forallb is_js_space a = true -> forallb is_js_space b = true ->
  trim (a ++ x ++ b) = trim x.
Proof.
  intros Ha Hb. unfold trim. rewrite strip_start_all by trivial.
  destruct (strip_start is_js_space x) as [|c r] eqn:E.
  - apply strip_start_nil in E. rewrite strip_start_all by trivial.
    rewrite <- (app_nil_r b), strip_start_all by trivial. reflexivity.
  - rewrite strip_start_app by (rewrite E; discriminate). rewrite E.
    apply strip_end_app_nil. now apply strip_end_all.
Qed.

Lemma trim_idem (s : jsstring) : trim (trim s) = trim s.
Proof.
  destruct (trim_spec s) as (a & b & E & Ha & Hb & _).
  rewrite E at 2. now rewrite trim_pad.
Qed.

Lemma strip_end_prefix (p : N -> bool) (a t : jsstring) :
  forallb (fun c => negb (p c)) a = true ->
  strip_end p (a ++ t) = a ++ strip_end p t.
Proof.
  induction a as [|c a IH]; [trivial|]. cbn [forallb app]. intros H.
  apply andb_true_iff in H as [H1 H2]. apply negb_true_iff in H1.
  now rewrite strip_end_cons, IH.
Qed.

(** Printable text in front stays; the white space at the end goes. *)
Lemma trim_prefix (a t : jsstring) :
  forallb printable a = true -> a <> [] ->
  trim (a ++ t) = a ++ strip_end is_js_space t.
Proof.
  intros H Hne. unfold trim.
  assert (N : forallb (fun c => negb (is_js_space c)) a = true).
  { revert H. apply forallb_imp. intros c Hc. now rewrite printable_no_space. }
  rewrite strip_start_stops.
  - now apply strip_end_prefix.
  - destruct a as [|c a]; [contradiction|]. cbn [app stops].
    cbn [forallb] in N. now apply andb_true_iff in N as [N _].
Qed.

(** A string that neither starts nor ends with white space is its own
    [trim]. *)
Lemma strip_end_ends (p : N -> bool) (l : jsstring) :
  (forall d, p (last l d) = true -> l = []) -> strip_end p l = l.
Proof.
  induction l as [|c l IH]; [trivial|]. intros H.
  destruct l as [|c' l].
  - cbn. destruct (p c) eqn:E; [|reflexivity].
    specialize (H 0 E). discriminate.
  - rewrite strip_end_unfold, IH.
    + reflexivity.
    + intros d Hd. specialize (H d Hd). discriminate.
Qed.

Lemma trim_ends (x : jsstring) :
  (forall d, is_js_space (hd d x) = true -> x = []) ->
  (forall d, is_js_space (last x d) = true -> x = []) ->
  trim x = x.
Proof.
  intros Hh Hl. unfold trim.
  assert (E : strip_start is_js_space x = x).
  { destruct x as [|c x]; [reflexivity|]. cbn [strip_start].
    destruct (is_js_space c) eqn:S; [|reflexivity].
    specialize (Hh 0 S). discriminate. }
  rewrite E. now apply strip_end_ends.
Qed.

(** ** Group invite links *)

(** [token] is the first non-empty segment of the path [s]: [s] is some
    slashes, then [token], then nothing or a slash and more. *)
Definition first_nonempty_segment (s token : jsstring) : Prop :=
  token <> [] /\ forallb (fun c => negb (47 =? c)) token = true /\
  exists k rest, s = repeat 47 k ++ token ++ rest /\ stops (N.eqb 47) rest = true.

(** The invite token grammar of section 3 of the specification. *)
Definition invite_token (t : jsstring) : Prop :=
  (10 <= length t)%nat /\
  Forall (fun c => is_alnum c = true \/ c = 95 \/ c = 45) t.

(** [x] is [s] after trimming: [s] without the white space at its two
    ends. *)
Definition trimmed (s x : jsstring) : Prop :=
  exists a b, s = a ++ x ++ b /\
    forallb is_js_space a = true /\ forallb is_js_space b = true /\
    (forall d, is_js_space (hd d x) = true -> x = []) /\
    (forall d, is_js_space (last x d) = true -> x = []).

(** The scheme completion of section 4.2 of the specification: [https://]
    is put in front of a text that begins with [chat.whatsapp.com/]; every
    other text is passed on as it is. *)
Definition scheme_completed (x raw : jsstring) : Prop :=
  ((exists t, x = js "chat.whatsapp.com/" ++ t) /\ raw = js "https://" ++ x) \/
  (~ (exists t, x = js "chat.whatsapp.com/" ++ t) /\ raw = x).

Lemma split_on_head (p : N -> bool) (s : jsstring) :
  exists r, split_on p s = before p s :: r.
Proof.
  induction s as [|c s [r IH]]; [now exists []|]. simpl.
  destruct (p c); [eauto|]. rewrite IH. eauto.
Qed.

Lemma first_segment_iff (s token : jsstring) :
  first_segment s = Some token <-> first_nonempty_segment s token.
Proof.
  unfold first_segment, first_nonempty_segment. split.
  - revert token. induction s as [|c s IH]; intros token; [discriminate|].
    cbn [split_on]. destruct (47 =? c) eqn:E.
    + cbn [filter nonempty]. intros H.
      destruct (IH _ H) as (A & B & k & rest & -> & St).
      apply N.eqb_eq in E. subst c. repeat split; trivial.
      now exists (S k), rest.
    + destruct (split_on_head (N.eqb 47) s) as [r Hr]. rewrite Hr.
      cbn [filter nonempty hd_error]. intros [= <-]. split; [discriminate|].
      split.
      * cbn [forallb]. rewrite E. apply before_free.
      * exists 0%nat, (from (N.eqb 47) s). split; [|apply from_stop].
        cbn [repeat app]. now rewrite before_from.
  - intros (A & B & k & rest & -> & St). induction k as [|k IH].
    + destruct token as [|c t]; [contradiction|]. cbn [repeat app split_on].
      cbn [forallb] in B. apply andb_true_iff in B as [B1 B2].
      apply negb_true_iff in B1. rewrite B1.
      destruct (split_on_head (N.eqb 47) (t ++ rest)) as [r Hr]. rewrite Hr.
      cbn [filter nonempty hd_error]. now rewrite before_to.
    + cbn [repeat app split_on]. now rewrite N.eqb_refl.
Qed.

Lemma test_invite_token_iff (t : jsstring) :
  test_invite_token t = true <-> invite_token t.
Proof.
  unfold test_invite_token, invite_token. rewrite andb_true_iff.
  rewrite Nat.leb_le, forallb_forall, Forall_forall.
  split; intros [A B]; split; trivial; intros c Hc; specialize (B c Hc);
    unfold is_token_char in *.
  - apply orb_true_iff in B as [B|B]; [apply orb_true_iff in B as [B|B]|].
    + now left.
    + right; left. now apply N.eqb_eq.
    + right; right. now apply N.eqb_eq.
  - destruct B as [B|[->| ->]]; [now rewrite B|reflexivity|reflexivity].
Qed.

Lemma parse_whatsapp_token (t : jsstring) :
  forallb is_token_char t = true ->
  parseWhatsAppGroupLink (js "https://chat.whatsapp.com/" ++ t) =
  Normal (if test_invite_token t
          then Some (js "https://chat.whatsapp.com/" ++ t) else None).
Proof.
  intros T.
  rewrite (parseWhatsAppGroupLink_url _ (https_url (js "chat.whatsapp.com") [t])).
  - replace (negb (jseqb (hostname (https_url (js "chat.whatsapp.com") [t]))
                     (js "chat.whatsapp.com"))) with false by reflexivity.
    replace (pathname (https_url (js "chat.whatsapp.com") [t])) with (47 :: t)
      by (cbn; now rewrite app_nil_r).
    destruct t as [|c t]; [reflexivity|].
    assert (F : first_segment (47 :: c :: t) = Some (c :: t)).
    { apply first_segment_iff. split; [discriminate|]. split.
      - now apply token_no_slash.
      - exists 1%nat, []. now rewrite app_nil_r. }
    rewrite F. now destruct (test_invite_token (c :: t)).
  - rewrite trim_printable
      by (rewrite forallb_app, (token_printable _ T); reflexivity).
    replace (whatsapp_raw (js "https://chat.whatsapp.com/" ++ t))
      with (js "https://" ++ js "chat.whatsapp.com" ++ serialize_segments [t])
      by (cbn [serialize_segments flat_map]; rewrite app_nil_r; reflexivity).
    apply new_URL_https; [reflexivity|discriminate|].
    cbn [forallb]. now rewrite (token_segment_ok true t T).
Qed.

Lemma trimmed_unique (s x : jsstring) : trimmed s x -> x = trim s.
Proof.
  intros (a & b & -> & Ha & Hb & Hh & Hl).
  rewrite trim_pad by trivial. symmetry. now apply trim_ends.
Qed.

Lemma whatsapp_raw_completed (x : jsstring) :
  scheme_completed x (whatsapp_raw x).
Proof.
  destruct (startsWith (js "chat.whatsapp.com/") x) eqn:S.
  - apply startsWith_iff in S as [t ->]. left. split; [eauto|reflexivity].
  - right. split.
    + intros H. apply startsWith_iff in H. congruence.
    + unfold whatsapp_raw. rewrite S.
      now destruct (startsWith (js "http://") x || startsWith (js "https://") x).
Qed.

Lemma scheme_completed_unique (x raw : jsstring) :
  scheme_completed x raw -> raw = whatsapp_raw x.
Proof.
  intros H. destruct (whatsapp_raw_completed x) as [[A ->]|[A ->]];
    destruct H as [[B ->]|[B ->]]; trivial; contradiction.
Qed.

(** A link with more segments after the first one. *)
Lemma parse_whatsapp_segments (t : jsstring) (segs : list jsstring) :
  forallb is_token_char t = true -> t <> [] ->
  forallb (forallb is_token_char) segs = true ->
  parseWhatsAppGroupLink
    (js "https://chat.whatsapp.com/" ++ t ++ serialize_segments segs) =
  Normal (if test_invite_token t
          then Some (js "https://chat.whatsapp.com/" ++ t) else None).
Proof.
  intros T Ne Ss.
  assert (Ok : forallb (segment_ok true) (t :: segs) = true).
  { cbn [forallb]. rewrite (token_segment_ok true t T). cbn [andb].
    clear - Ss. induction segs as [|x segs IH]; [reflexivity|].
    cbn [forallb] in *. apply andb_true_iff in Ss as [A B].
    now rewrite (token_segment_ok true x A), IH. }
  rewrite (parseWhatsAppGroupLink_url _
             (https_url (js "chat.whatsapp.com") (t :: segs))).
  - replace (negb (jseqb (hostname (https_url (js "chat.whatsapp.com") (t :: segs)))
                     (js "chat.whatsapp.com"))) with false by reflexivity.
    replace (pathname (https_url (js "chat.whatsapp.com") (t :: segs)))
      with (47 :: t ++ serialize_segments segs) by reflexivity.
    assert (F : first_segment (47 :: t ++ serialize_segments segs) = Some t).
    { apply first_segment_iff. split; [exact Ne|]. split.
      - now apply token_no_slash.
      - exists 1%nat, (serialize_segments segs). split; [reflexivity|].
        now destruct segs. }
    rewrite F. now destruct (test_invite_token t).
  - replace (js "https://chat.whatsapp.com/" ++ t ++ serialize_segments segs)
      with (js "https://" ++ js "chat.whatsapp.com" ++
            serialize_segments (t :: segs)) by reflexivity.
    rewrite trim_printable
      by (rewrite !forallb_app, (segments_printable _ _ Ok); reflexivity).
    apply new_URL_https; [reflexivity|discriminate|exact Ok].
Qed.

(** C3.  [parseWhatsAppGroupLink] returns a link exactly when the input,
    after trimming ([trimmed]: the white space at its two ends cut off
    and nothing else) and scheme completion ([scheme_completed]:
    [https://] in front of a text that begins with [chat.whatsapp.com/],
    every other text as it is), parses as a URL whose host is
    [chat.whatsapp.com] and whose first non-empty path segment is an
    invite token (ten or more of [A-Za-z0-9_-]); the link is then
    [https://chat.whatsapp.com/<token>], without anything that followed
    the segment.  A token of nine characters is rejected and one of ten
    is accepted; so it is for the link without its scheme and with white
    space around it; and segments after the first one change nothing. *)
Theorem group_invite_contract :
  (forall input r,
     parseWhatsAppGroupLink input = Normal (Some r) <->
     exists x raw u token,
       trimmed input x /\ scheme_completed x raw /\
       new_URL raw = Normal u /\
       hostname u = js "chat.whatsapp.com" /\
       first_nonempty_segment (pathname u) token /\
       invite_token token /\
       r = js "https://chat.whatsapp.com/" ++ token) /\
  (forall t, forallb is_token_char t = true -> length t = 9%nat ->
     parseWhatsAppGroupLink (js "https://chat.whatsapp.com/" ++ t) = Normal None) /\
  (forall t, forallb is_token_char t = true -> length t = 10%nat ->
     parseWhatsAppGroupLink (js "https://chat.whatsapp.com/" ++ t) =
     Normal (Some (js "https://chat.whatsapp.com/" ++ t))) /\
  (forall a b t,
     forallb is_js_space a = true -> forallb is_js_space b = true ->
     forallb is_token_char t = true ->
     ((length t < 10)%nat ->
      parseWhatsAppGroupLink (a ++ (js "chat.whatsapp.com/" ++ t) ++ b) =
      Normal None) /\
     ((10 <= length t)%nat ->
      parseWhatsAppGroupLink (a ++ (js "chat.whatsapp.com/" ++ t) ++ b) =
      Normal (Some (js "https://chat.whatsapp.com/" ++ t)))) /\
  (forall t segs,
     forallb is_token_char t = true -> t <> [] ->
     forallb (forallb is_token_char) segs = true ->
     parseWhatsAppGroupLink
       (js "https://chat.whatsapp.com/" ++ t ++ serialize_segments segs) =
     parseWhatsAppGroupLink (js "https://chat.whatsapp.com/" ++ t)).
Proof.
  split; [|split; [|split; [|split]]].
  - intros input r. split.
    + intros H.
      destruct (new_URL (whatsapp_raw (trim input))) as [u|] eqn:U.
      2:{ rewrite (parseWhatsAppGroupLink_no_url _ U) in H. discriminate. }
      rewrite (parseWhatsAppGroupLink_url _ _ U) in H.
      destruct (jseqb (hostname u) (js "chat.whatsapp.com")) eqn:E;
        [|discriminate]. cbn [negb] in H.
      destruct (first_segment (pathname u)) as [code|] eqn:F; [|discriminate].
      destruct (test_invite_token code) eqn:T; [|discriminate].
      injection H as <-.
      exists (trim input), (whatsapp_raw (trim input)), u, code.
      apply jseqb_eq in E.
      apply first_segment_iff in F. apply test_invite_token_iff in T.
      split; [apply trim_spec|]. split; [apply whatsapp_raw_completed|].
      split; [exact U|]. split; [exact E|].
      split; [exact F|]. split; [exact T|reflexivity].
    + intros (x & raw & u & token & X & R & U & E & F & T & ->).
      apply trimmed_unique in X. subst x.
      apply scheme_completed_unique in R. subst raw.
      rewrite (parseWhatsAppGroupLink_url _ _ U).
      apply jseqb_eq in E. apply first_segment_iff in F.
      apply test_invite_token_iff in T. now rewrite E, F, T.
  - intros t T L. rewrite (parse_whatsapp_token t T).
    unfold test_invite_token. now rewrite L.
  - intros t T L. rewrite (parse_whatsapp_token t T).
    unfold test_invite_token. now rewrite L, T.
  - intros a b t Ha Hb T.
    assert (E : parseWhatsAppGroupLink (a ++ (js "chat.whatsapp.com/" ++ t) ++ b) =
                parseWhatsAppGroupLink (js "https://chat.whatsapp.com/" ++ t)).
    { unfold parseWhatsAppGroupLink. rewrite trim_pad by trivial.
      rewrite !trim_prefix by (reflexivity || discriminate). reflexivity. }
    rewrite E, (parse_whatsapp_token t T). unfold test_invite_token.
    rewrite T, andb_true_r. split; intros L.
    + apply Nat.leb_gt in L. now rewrite L.
    + apply Nat.leb_le in L. now rewrite L.
  - intros t segs T Ne Ss.
    now rewrite (parse_whatsapp_segments t segs T Ne Ss),
                (parse_whatsapp_token t T).
Qed.

(** ** Lookup links *)

Lemma match_classes_ci (p s : jsstring) :
  match_classes (map ci p) s = jseqb (toLowerCase s) (toLowerCase p).
Proof.
  revert s. induction p as [|c p IH]; intros [|x s]; simpl; trivial.
  now rewrite IH.
Qed.

Lemma toLowerCase_length (s : jsstring) : length (toLowerCase s) = length s.
Proof. apply length_map. Qed.

Lemma firstn_length_app {A} (a b : list A) : firstn (length a) (a ++ b) = a.
Proof. induction a as [|x a IH]; simpl; [trivial|]. now rewrite IH. Qed.

Lemma skipn_length_app {A} (a b : list A) : skipn (length a) (a ++ b) = b.
Proof. induction a as [|x a IH]; simpl; trivial. Qed.

Lemma match_lookup_prefix (pre token : jsstring) :
  toLowerCase pre = js "/lookup/" -> token <> [] ->
  forallb (fun c => negb (c =? 47)) token = true ->
  match_lookup (pre ++ token) = Some token.
Proof.
  intros E Hne Hs. unfold match_lookup.
  assert (L : length pre = 8%nat) by (now rewrite <- toLowerCase_length, E).
  rewrite <- L, firstn_length_app, skipn_length_app.
  rewrite match_classes_ci, E. replace (toLowerCase (js "/lookup/"))
    with (js "/lookup/") by reflexivity. rewrite jseqb_refl. cbn [andb].
  apply nonempty_true in Hne. now rewrite Hne, Hs.
Qed.

(** A URL on [meet.google.com] whose path is [/lookup/<token>] in any
    letter case of the word, with or without slashes at its end. *)
Lemma lookup_link (input : jsstring) (u : URL) (pre token : jsstring) :
  new_URL (meet_raw (trim input)) = Normal u ->
  hostname u = js "meet.google.com" ->
  strip_trailing_slashes (pathname u) = pre ++ token ->
  toLowerCase pre = js "/lookup/" -> token <> [] ->
  forallb (fun c => negb (c =? 47)) token = true ->
  parseGoogleMeet input =
  Normal (Some (kind_lookup token (js "https://meet.google.com/lookup/" ++ token))).
Proof.
  intros U H P E Hne Hs. rewrite (parseGoogleMeet_url _ _ U).
  unfold is_g_co_meet, primary_branch. rewrite H, P.
  replace (jseqb (js "meet.google.com") (js "g.co")) with false by reflexivity.
  rewrite jseqb_refl. cbn [andb negb].
  now rewrite match_lookup_prefix.
Qed.

(** C6.  For a URL on [meet.google.com] whose path, without the slashes
    at its end, is [/lookup/<token>] with a non-empty token free of
    slashes, [parseGoogleMeet] returns the [lookup] variant with the token
    as it stands in the path and the URL
    [https://meet.google.com/lookup/<token>]. *)
Theorem lookup_handling (input : jsstring) (u : URL) (token : jsstring) :
  new_URL (meet_raw (trim input)) = Normal u ->
  hostname u = js "meet.google.com" ->
  strip_trailing_slashes (pathname u) = js "/lookup/" ++ token ->
  token <> [] ->
  forallb (fun c => negb (c =? 47)) token = true ->
  parseGoogleMeet input =
  Normal (Some (kind_lookup token (js "https://meet.google.com/lookup/" ++ token))).
Proof.
  intros U H P Hne Hs. now apply lookup_link with (u := u) (pre := js "/lookup/").
Qed.

(** C10.  The words [lookup] and [meet] in the path are matched in any
    letter case.  On [meet.google.com], a path [/LOOKUP/<token>] (any
    case of the word) gives the [lookup] variant with the token in its own
    case; on [g.co], a path that starts with [/MEET/] (any case) is
    handled by the redirect branch.  So [https://meet.google.com/LOOKUP/AbC]
    is a lookup of [AbC], [https://g.co/MEET/abc-defg-hij] is the code
    [abc-defg-hij], and [https://g.co/MEET/Foo] is the path [/meet/Foo]. *)
Theorem prefixes_case_insensitive :
  (forall input u pre token,
     new_URL (meet_raw (trim input)) = Normal u ->
     hostname u = js "meet.google.com" ->
     strip_trailing_slashes (pathname u) = pre ++ token ->
     toLowerCase pre = js "/lookup/" -> token <> [] ->
     forallb (fun c => negb (c =? 47)) token = true ->
     parseGoogleMeet input =
     Normal (Some (kind_lookup token
                     (js "https://meet.google.com/lookup/" ++ token)))) /\
  (forall input u,
     new_URL (meet_raw (trim input)) = Normal u ->
     hostname u = js "g.co" ->
     toLowerCase (firstn 6 (pathname u)) = js "/meet/" ->
     parseGoogleMeet input = Normal (redirect_branch u)) /\
  parseGoogleMeet (js "https://meet.google.com/LOOKUP/AbC") =
    Normal (Some (kind_lookup (js "AbC")
                    (js "https://meet.google.com/lookup/AbC"))) /\
  parseGoogleMeet (js "https://g.co/MEET/abc-defg-hij") =
    Normal (Some (kind_code (js "abc-defg-hij")
                    (js "https://meet.google.com/abc-defg-hij"))) /\
  parseGoogleMeet (js "https://g.co/MEET/Foo") =
    Normal (Some (kind_url (js "/meet/Foo") (js "https://g.co/MEET/Foo"))).
Proof.
  split; [exact lookup_link|]. split; [|repeat split; reflexivity].
  intros input u U H E. rewrite (parseGoogleMeet_url _ _ U).
  unfold is_g_co_meet. rewrite H, jseqb_refl. cbn [andb].
  assert (S : startsWith (js "/meet/") (toLowerCase (pathname u)) = true).
  { apply startsWith_iff. exists (toLowerCase (skipn 6 (pathname u))).
    rewrite <- E. unfold toLowerCase. rewrite <- map_app.
    now rewrite firstn_skipn. }
  now rewrite S.
Qed.

(** ** Records with a known host *)

Lemma url_ok_path (u : URL) :
  url_ok u = true ->
  exists segs, path u = Segments segs /\
    path_ok (is_special (scheme u)) (jseqb (scheme u) (js "file")) segs = true.
Proof.
  unfold url_ok. intros H. destruct (path u) as [?|segs].
  - now rewrite !andb_false_r in H.
  - exists segs. split; [reflexivity|]. now split_andb.
Qed.

Lemma parsed_with_host (raw : jsstring) (u : URL) (h : jsstring) :
  new_URL raw = Normal u -> hostname u = h -> h <> [] ->
  host u = Some h /\ url_ok u = true /\
  exists segs, path u = Segments segs /\
    forallb (segment_ok (is_special (scheme u))) segs = true.
Proof.
  intros U H Hne. pose proof (hostname_host _ _ H Hne) as Hh.
  assert (Hok : url_ok u = true)
    by (apply (new_URL_ok _ _ U); rewrite Hh; discriminate).
  repeat split; trivial.
  destruct (url_ok_path _ Hok) as (segs & P & O). exists segs.
  split; [exact P|]. unfold path_ok in O. now apply andb_true_iff in O as [O _].
Qed.

Lemma strip_end_idem (p : N -> bool) (l : jsstring) :
  strip_end p (strip_end p l) = strip_end p l.
Proof.
  induction l as [|c l IH]; [reflexivity|]. rewrite strip_end_unfold.
  destruct (strip_end p l) as [|d r] eqn:E.
  - destruct (p c) eqn:Pc; [reflexivity|]. simpl. now rewrite Pc.
  - rewrite strip_end_unfold, IH. reflexivity.
Qed.

Lemma drop_empty_end_ok (f : jsstring -> bool) (segs : list jsstring) :
  forallb f segs = true -> forallb f (drop_empty_end segs) = true.
Proof.
  induction segs as [|s segs IH]; [trivial|]. intros H.
  cbn [forallb] in H. apply andb_true_iff in H as [H1 H2].
  specialize (IH H2). cbn [drop_empty_end].
  destruct (drop_empty_end segs) as [|s' r].
  - destruct (nonempty s); [|reflexivity]. cbn [forallb]. now rewrite H1.
  - cbn [forallb] in *. now rewrite H1, IH.
Qed.

Lemma segment_no_slash (special : bool) (s : jsstring) :
  segment_ok special s = true -> forallb (fun c => negb (c =? 47)) s = true.
Proof.
  intros H. destruct (segment_ok_parts _ _ H) as (_ & B & _). revert B.
  apply forallb_imp. intros c Hc. destruct special; unfold_sets; char_cases.
Qed.

Lemma segments_no_slash (special : bool) (segs : list jsstring) :
  forallb (segment_ok special) segs = true ->
  forallb (forallb (fun c => negb (c =? 47))) segs = true.
Proof.
  induction segs as [|s segs IH]; [trivial|]. intros H.
  cbn [forallb] in *. apply andb_true_iff in H as [H1 H2].
  now rewrite (segment_no_slash _ _ H1), IH.
Qed.

(** The path of a parsed URL without its trailing slashes is the
    serialization of its segments without the empty ones at the end. *)
Lemma stripped_pathname (u : URL) (segs : list jsstring) :
  path u = Segments segs ->
  forallb (segment_ok (is_special (scheme u))) segs = true ->
  strip_trailing_slashes (pathname u) = serialize_segments (drop_empty_end segs).
Proof.
  intros P H. unfold pathname. rewrite P. cbn [path_serializer].
  apply strip_trailing_slashes_segments.
  now apply segments_no_slash with (special := is_special (scheme u)).
Qed.

Definition no_backslash (s : jsstring) : bool :=
  forallb (fun c => negb (c =? 92)) s.

Lemma forallb_both (f g : N -> bool) (l : list N) :
  forallb f l = true -> forallb g l = true ->
  forallb (fun c => f c && g c) l = true.
Proof.
  induction l as [|c l IH]; [trivial|]. cbn [forallb]. intros F G.
  apply andb_true_iff in F as [F1 F2]. apply andb_true_iff in G as [G1 G2].
  now rewrite F1, G1, IH.
Qed.

Lemma segment_ok_special (special : bool) (s : jsstring) :
  segment_ok special s = true -> no_backslash s = true ->
  segment_ok true s = true.
Proof.
  intros H B. destruct (segment_ok_parts _ _ H) as (A1 & A2 & A3 & A4).
  unfold segment_ok. rewrite A1, A3, A4. cbn [andb negb].
  rewrite !andb_true_r. unfold no_separator, no_backslash in *.
  pose proof (forallb_both _ _ _ A2 B) as C. revert C.
  apply forallb_imp. intros c Hc. destruct special; unfold_sets; char_cases.
Qed.

Lemma no_backslash_segments (segs : list jsstring) :
  no_backslash (serialize_segments segs) = true ->
  forallb no_backslash segs = true.
Proof.
  induction segs as [|s segs IH]; [trivial|].
  rewrite serialize_segments_cons. unfold no_backslash in *.
  cbn [forallb]. rewrite forallb_app. intros H.
  apply andb_true_iff in H as [_ H]. apply andb_true_iff in H as [H1 H2].
  now rewrite H1, IH.
Qed.

Lemma segments_ok_special (special : bool) (segs : list jsstring) :
  forallb (segment_ok special) segs = true ->
  no_backslash (serialize_segments segs) = true ->
  forallb (segment_ok true) segs = true.
Proof.
  intros H B. apply no_backslash_segments in B.
  induction segs as [|s segs IH]; [trivial|]. cbn [forallb] in *.
  apply andb_true_iff in H as [H1 H2]. apply andb_true_iff in B as [B1 B2].
  now rewrite (segment_ok_special _ _ H1 B1), IH.
Qed.

(** ** Resolving a returned URL again *)

Lemma scheme_ok_chars (sch : jsstring) :
  scheme_ok sch = true -> forallb scheme_char sch = true.
Proof.
  destruct sch as [|c s]; [discriminate|]. simpl. intros H.
  apply andb_true_iff in H as [H1 H2]. rewrite H2, andb_true_r.
  unfold scheme_char. now rewrite H1.
Qed.

(** A serialized URL does not start with a schemeless domain and slash. *)
Lemma startsWith_scheme_false (q t sch rest : jsstring) :
  forallb scheme_char q = true -> forallb scheme_char sch = true ->
  startsWith (q ++ 47 :: t) (sch ++ 58 :: rest) = false.
Proof.
  revert sch. induction q as [|x q IH]; intros [|c sch] Hq Hs;
    cbn [app startsWith forallb] in *; trivial.
  - apply andb_true_iff in Hs as [Hc _]. unfold scheme_char in Hc.
    apply andb_false_iff. left. unfold_sets. char_cases.
  - apply andb_true_iff in Hq as [Hx _]. unfold scheme_char in Hx.
    apply andb_false_iff. left. unfold_sets. char_cases.
  - apply andb_true_iff in Hq as [_ Hq]. apply andb_true_iff in Hs as [_ Hs].
    rewrite IH by trivial. apply andb_false_r.
Qed.

Lemma meet_raw_serialized (u : URL) (h : jsstring) :
  url_ok u = true -> host u = Some h -> meet_raw (toString u) = toString u.
Proof.
  intros Hok Hh. destruct (url_ok_path _ Hok) as (segs & P & _).
  unfold toString. rewrite (url_serializer_with_host u h segs Hh P).
  assert (S : forallb scheme_char (scheme u) = true).
  { apply scheme_ok_chars. unfold url_ok in Hok. now split_andb. }
  unfold meet_raw.
  match goal with |- (if ?b then _ else _) = _ => destruct b end; [reflexivity|].
  change (js "meet.google.com/") with (js "meet.google.com" ++ 47 :: []).
  change (js "g.co/meet/") with (js "g.co" ++ 47 :: js "meet/").
  now rewrite !startsWith_scheme_false.
Qed.

Lemma parse_serialized (u : URL) (h : jsstring) :
  url_ok u = true -> host u = Some h -> host_ok (scheme u) h = true ->
  new_URL (meet_raw (trim (toString u))) = Normal u.
Proof.
  intros Hok Hh Hhost. rewrite trim_printable.
  - rewrite (meet_raw_serialized u h) by trivial.
    now apply new_URL_serialized with (h := h).
  - apply url_serializer_printable with (h := h); trivial.
    now apply host_ok_chars with (sch := scheme u).
Qed.

(** The [url] variant of the redirect branch resolves to itself. *)
Lemma redirect_url_idempotent (raw : jsstring) (u : URL) (p v : jsstring) :
  new_URL raw = Normal u -> is_g_co_meet u = true ->
  redirect_branch u = Some (kind_url p v) ->
  v = toString u /\ new_URL v = Normal u /\
  parseGoogleMeet v = Normal (Some (kind_url p v)).
Proof.
  intros U G R. unfold is_g_co_meet in G. apply andb_true_iff in G as [G1 G2].
  apply jseqb_eq in G1.
  destruct (parsed_with_host _ _ _ U G1) as (Hh & Hok & _); [discriminate|].
  assert (V : v = toString u).
  { unfold redirect_branch in R.
    destruct (match_meet_code _); [discriminate|].
    destruct (nonempty _); [|discriminate]. now injection R as _ <-. }
  subst v. split; [reflexivity|]. split.
  - apply new_URL_serialized with (h := js "g.co"); trivial. apply host_ok_g_co.
  - rewrite (parseGoogleMeet_url _ u).
    + unfold is_g_co_meet. rewrite G1, G2, jseqb_refl. cbn [andb]. now rewrite R.
    + apply parse_serialized with (h := js "g.co"); trivial. apply host_ok_g_co.
Qed.

(** *** The [code] variant *)

Lemma letter_not_slash (x : N) : letter x = true -> ci 47 x = false.
Proof. unfold ci, letter. intros H. unfold_classes. char_cases. Qed.

Lemma code_not_lookup (c : jsstring) :
  match_classes meet_code_pattern c = true -> match_lookup (47 :: c) = None.
Proof.
  intros H. pose proof H as H'. twelve c H'. cbn in H. split_andb.
  unfold match_lookup.
  match goal with
  | |- (if ?a && _ && _ then _ else _) = _ =>
      replace a with false; [reflexivity|]
  end.
  change (js "/lookup/") with [47; 108; 111; 111; 107; 117; 112; 47].
  cbn [firstn map match_classes].
  match goal with
  | H : letter ?x = true |- context [ci 47 ?x] =>
      rewrite (letter_not_slash x H)
  end.
  now rewrite !andb_false_r.
Qed.

Lemma parse_code_url (c : jsstring) :
  match_classes meet_code_pattern c = true ->
  parseGoogleMeet (js "https://meet.google.com/" ++ c) =
  Normal (Some (kind_code (toLowerCase c)
                  (js "https://meet.google.com/" ++ toLowerCase c))).
Proof.
  intros H. pose proof (code_token_chars _ H) as T.
  rewrite (parseGoogleMeet_url _ (https_url (js "meet.google.com") [c])).
  - replace (is_g_co_meet (https_url (js "meet.google.com") [c])) with false
      by reflexivity.
    replace (negb (jseqb (hostname (https_url (js "meet.google.com") [c]))
                     (js "meet.google.com"))) with false by reflexivity.
    unfold primary_branch.
    replace (pathname (https_url (js "meet.google.com") [c])) with (47 :: c)
      by (cbn; now rewrite app_nil_r).
    unfold strip_trailing_slashes.
    rewrite (strip_end_app _ [47] c), strip_end_fix;
      try (apply token_no_slash, T).
    + cbn [app]. rewrite (code_not_lookup _ H).
      unfold match_path_code, match_meet_code. cbn [startsWith tl].
      now rewrite H.
    + rewrite strip_end_fix by (apply token_no_slash, T).
      destruct c; [discriminate H|discriminate].
  - rewrite trim_printable
      by (rewrite forallb_app, (token_printable _ T); reflexivity).
    replace (meet_raw (js "https://meet.google.com/" ++ c))
      with (js "https://" ++ js "meet.google.com" ++ serialize_segments [c])
      by (cbn [serialize_segments flat_map]; rewrite app_nil_r; reflexivity).
    apply new_URL_https; [reflexivity|discriminate|].
    cbn [forallb]. now rewrite (token_segment_ok true c T).
Qed.

(** A lowercased code in its canonical URL resolves to itself. *)
Lemma code_idempotent (g : jsstring) :
  match_classes meet_code_pattern g = true ->
  parseGoogleMeet (js "https://meet.google.com/" ++ toLowerCase g) =
  Normal (Some (kind_code (toLowerCase g)
                  (js "https://meet.google.com/" ++ toLowerCase g))).
Proof.
  intros H. rewrite parse_code_url by now rewrite meet_code_lower.
  now rewrite toLowerCase_idem.
Qed.

(** *** The variants of the primary host *)

Lemma primary_branch_path (u1 u2 : URL) :
  strip_trailing_slashes (pathname u1) = strip_trailing_slashes (pathname u2) ->
  primary_branch u1 = primary_branch u2.
Proof. intros E. unfold primary_branch. now rewrite E. Qed.

Lemma primary_rebuilt (u : URL) (r : ParsedMeet) :
  primary_branch u = Some r ->
  url r = js "https://meet.google.com" ++ rebuilt_path r.
Proof.
  unfold primary_branch.
  destruct (match_lookup _); [now intros [= <-]|].
  destruct (match_path_code _); [now intros [= <-]|].
  destruct (_ && _); [now intros [= <-]|discriminate].
Qed.

(** The canonical URL of a path on the primary host parses to that path. *)
Lemma parse_primary_url (segs : list jsstring) :
  segs <> [] -> forallb (segment_ok true) segs = true ->
  parseGoogleMeet (js "https://meet.google.com" ++ serialize_segments segs) =
  Normal (primary_branch (https_url (js "meet.google.com") segs)).
Proof.
  intros Hne Hs.
  rewrite (parseGoogleMeet_url _ (https_url (js "meet.google.com") segs)).
  - reflexivity.
  - rewrite trim_printable.
    + replace (meet_raw (js "https://meet.google.com" ++ serialize_segments segs))
        with (js "https://" ++ js "meet.google.com" ++ serialize_segments segs)
        by reflexivity.
      now apply new_URL_https.
    + rewrite forallb_app, (segments_printable _ _ Hs). reflexivity.
Qed.

Lemma ser_nonempty (segs : list jsstring) :
  serialize_segments segs <> [] -> segs <> [].
Proof. now destruct segs. Qed.

Lemma serialize_segments_snoc (l : list jsstring) (s : jsstring) :
  serialize_segments (l ++ [s]) = serialize_segments l ++ 47 :: s.
Proof.
  unfold serialize_segments. rewrite flat_map_app. cbn [flat_map].
  now rewrite app_nil_r.
Qed.

Lemma last_slash_unique (a a' t t' : jsstring) :
  forallb (fun c => negb (c =? 47)) t = true ->
  forallb (fun c => negb (c =? 47)) t' = true ->
  a ++ 47 :: t = a' ++ 47 :: t' -> t = t'.
Proof.
  intros Ht Ht'. revert a'. induction a as [|x a IH]; intros [|y a'] E;
    cbn [app] in E.
  - now injection E as E.
  - injection E as E1 E2. subst t. rewrite forallb_app in Ht.
    apply andb_true_iff in Ht as [_ Ht]. discriminate.
  - injection E as E1 E2. subst t'. rewrite forallb_app in Ht'.
    apply andb_true_iff in Ht' as [_ Ht']. discriminate.
  - injection E as E1 E2. now apply IH with (a' := a').
Qed.

Lemma match_lookup_inv (p token : jsstring) :
  match_lookup p = Some token ->
  exists pre, p = pre ++ token /\ toLowerCase pre = js "/lookup/" /\
    token <> [] /\ forallb (fun c => negb (c =? 47)) token = true.
Proof.
  unfold match_lookup.
  destruct (match_classes _ _) eqn:M; [|discriminate].
  destruct (nonempty (skipn 8 p)) eqn:Ne; [|discriminate].
  destruct (forallb _ (skipn 8 p)) eqn:F; [|discriminate].
  cbn [andb]. intros [= <-]. exists (firstn 8 p).
  rewrite firstn_skipn. repeat split; trivial.
  - rewrite match_classes_ci in M. now apply jseqb_eq in M.
  - now apply nonempty_true.
Qed.

Lemma lookup_prefix_slash (pre : jsstring) :
  toLowerCase pre = js "/lookup/" -> exists a, pre = a ++ [47].
Proof.
  intros E. assert (L : length pre = 8%nat) by (now rewrite <- toLowerCase_length, E).
  do 8 (destruct pre as [|? pre]; [discriminate L|]).
  destruct pre; [|discriminate L].
  eexists [_; _; _; _; _; _; _]. cbn [app]. repeat f_equal.
  cbn in E. injection E as _ _ _ _ _ _ _ E. revert E.
  unfold_classes. intros E. char_cases.
Qed.

(** A matched lookup token is the last segment of the path. *)
Lemma lookup_token_segment (special : bool) (segs : list jsstring)
    (token : jsstring) :
  forallb (segment_ok special) segs = true ->
  match_lookup (serialize_segments segs) = Some token ->
  segment_ok special token = true.
Proof.
  intros Hs M. destruct (match_lookup_inv _ _ M) as (pre & E & L & Hne & Hn).
  destruct (lookup_prefix_slash _ L) as [a ->].
  assert (Hsegs : segs <> []).
  { intros ->. destruct a; discriminate E. }
  rewrite (app_removelast_last [] Hsegs) in E, Hs.
  rewrite serialize_segments_snoc, <- app_assoc in E. cbn [app] in E.
  rewrite forallb_app in Hs. apply andb_true_iff in Hs as [_ Hs].
  cbn [forallb] in Hs. rewrite andb_true_r in Hs.
  apply last_slash_unique in E; trivial.
  - now rewrite <- E.
  - now apply segment_no_slash with (special := special).
Qed.

Lemma parse_lookup_url (token : jsstring) :
  segment_ok true token = true -> token <> [] ->
  parseGoogleMeet (js "https://meet.google.com/lookup/" ++ token) =
  Normal (Some (kind_lookup token (js "https://meet.google.com/lookup/" ++ token))).
Proof.
  intros Hs Hne. pose proof (segment_no_slash _ _ Hs) as Hn.
  destruct (segment_ok_parts _ _ Hs) as (St & _).
  apply lookup_link with
    (u := https_url (js "meet.google.com") [js "lookup"; token])
    (pre := js "/lookup/"); trivial.
  - rewrite trim_printable.
    + replace (meet_raw (js "https://meet.google.com/lookup/" ++ token))
        with (js "https://" ++ js "meet.google.com" ++
              serialize_segments [js "lookup"; token])
        by (cbn [serialize_segments flat_map]; rewrite app_nil_r; reflexivity).
      apply new_URL_https; [reflexivity|discriminate|].
      cbn [forallb]. now rewrite Hs.
    + rewrite forallb_app,
        (stable_printable _ _ path_stable_printable St). reflexivity.
  - replace (pathname (https_url (js "meet.google.com") [js "lookup"; token]))
      with (js "/lookup/" ++ token) by (cbn; now rewrite app_nil_r).
    unfold strip_trailing_slashes.
    assert (F : strip_end (N.eqb 47) token = token).
    { apply strip_end_fix. revert Hn. apply forallb_imp.
      intros c Hc. now rewrite N.eqb_sym. }
    rewrite strip_end_app; rewrite F; trivial.
Qed.

(** A result of the primary branch whose path has no backslash resolves
    to itself. *)
Lemma primary_idempotent (raw : jsstring) (u : URL) (r : ParsedMeet) :
  new_URL raw = Normal u -> hostname u = js "meet.google.com" ->
  primary_branch u = Some r -> no_backslash (rebuilt_path r) = true ->
  parseGoogleMeet (url r) = Normal (Some r).
Proof.
  intros U H R B.
  destruct (parsed_with_host _ _ _ U H) as (Hh & Hok & segs & P & Hs);
    [discriminate|].
  pose proof (stripped_pathname u segs P Hs) as E.
  pose proof (drop_empty_end_ok _ _ Hs) as Hs'.
  revert R. unfold primary_branch. rewrite E.
  set (segs' := drop_empty_end segs) in *.
  destruct (match_lookup (serialize_segments segs')) as [token|] eqn:ML.
  { intros [= <-]. cbn [url rebuilt_path] in *.
    destruct (match_lookup_inv _ _ ML) as (_ & _ & _ & Hne & _).
    apply parse_lookup_url; trivial.
    apply segment_ok_special with (special := is_special (scheme u)).
    - now apply lookup_token_segment with (segs := segs').
    - unfold no_backslash in *. rewrite forallb_app in B.
      now apply andb_true_iff in B as [_ B]. }
  destruct (match_path_code (serialize_segments segs')) as [g|] eqn:MC.
  { intros [= <-]. cbn [url]. apply code_idempotent.
    unfold match_path_code, match_meet_code in MC.
    destruct (startsWith [47] _); [|discriminate].
    destruct (match_classes meet_code_pattern _) eqn:M; [|discriminate].
    now injection MC as <-. }
  destruct (nonempty (serialize_segments segs') && _) eqn:NE; [|discriminate].
  intros [= <-]. cbn [url rebuilt_path] in *.
  apply andb_true_iff in NE as [NE1 NE2]. apply nonempty_true in NE1.
  pose proof (segments_ok_special _ _ Hs' B) as Hsp.
  change (parseGoogleMeet
            (js "https://meet.google.com" ++ serialize_segments segs') =
          Normal (Some (kind_url (serialize_segments segs')
            (js "https://meet.google.com" ++ serialize_segments segs')))).
  rewrite parse_primary_url by (trivial; now apply ser_nonempty).
  rewrite (primary_branch_path _ u).
  - unfold primary_branch. rewrite E. fold segs'. rewrite ML, MC, NE2.
    apply nonempty_true in NE1. now rewrite NE1.
  - rewrite E. fold segs'.
    replace (pathname (https_url (js "meet.google.com") segs'))
      with (serialize_segments segs') by reflexivity.
    rewrite <- E. apply strip_end_idem.
Qed.

(** ** The URL of a result *)

Lemma parseGoogleMeet_cases (input : jsstring) (r : ParsedMeet) :
  parseGoogleMeet input = Normal (Some r) ->
  (match_classes meet_code_pattern (trim input) = true /\
   r = kind_code (toLowerCase (trim input))
         (js "https://meet.google.com/" ++ toLowerCase (trim input))) \/
  exists u, new_URL (meet_raw (trim input)) = Normal u /\
    ((is_g_co_meet u = true /\ redirect_branch u = Some r) \/
     (is_g_co_meet u = false /\ hostname u = js "meet.google.com" /\
      primary_branch u = Some r)).
Proof.
  intros H. destruct (match_classes meet_code_pattern (trim input)) eqn:M.
  - left. split; [reflexivity|]. unfold parseGoogleMeet, match_meet_code in H.
    rewrite (meet_code_nonempty _ M), M in H. cbn [negb] in H. congruence.
  - right. destruct (new_URL (meet_raw (trim input))) as [u|] eqn:U.
    + exists u. split; [reflexivity|]. rewrite (parseGoogleMeet_url _ _ U) in H.
      destruct (is_g_co_meet u); [left; split; congruence|]. right.
      destruct (jseqb (hostname u) (js "meet.google.com")) eqn:E;
        [|discriminate]. apply jseqb_eq in E. cbn [negb] in H.
      repeat split; congruence.
    + rewrite parseGoogleMeet_no_url in H; trivial; [discriminate|].
      unfold match_meet_code. now rewrite M.
Qed.

Lemma redirect_branch_cases (u : URL) (r : ParsedMeet) :
  redirect_branch u = Some r ->
  (exists g, match_classes meet_code_pattern g = true /\
     r = kind_code (toLowerCase g) (js "https://meet.google.com/" ++ toLowerCase g)) \/
  (exists p, r = kind_url p (toString u)).
Proof.
  unfold redirect_branch, match_meet_code.
  destruct (match_classes meet_code_pattern _) eqn:M.
  - intros [= <-]. left. eauto.
  - destruct (nonempty _); [|discriminate]. intros [= <-]. right. eauto.
Qed.

Lemma https_meet_parses (t : jsstring) :
  exists u, new_URL (js "https://meet.google.com/" ++ t) = Normal u /\
    scheme u = js "https" /\ hostname u = js "meet.google.com".
Proof.
  destruct (new_URL_https_prefix (js "meet.google.com") t eq_refl)
    as (u & U & S & Hh).
  exists u. split; [exact U|]. split; [exact S|]. unfold hostname. now rewrite Hh.
Qed.

Lemma primary_url_parses (raw : jsstring) (u : URL) (r : ParsedMeet) :
  new_URL raw = Normal u -> hostname u = js "meet.google.com" ->
  primary_branch u = Some r ->
  exists u', new_URL (url r) = Normal u' /\
    scheme u' = js "https" /\ hostname u' = js "meet.google.com".
Proof.
  intros U H R.
  destruct (parsed_with_host _ _ _ U H) as (_ & _ & segs & P & Hs);
    [discriminate|].
  pose proof (stripped_pathname u segs P Hs) as E.
  revert R. unfold primary_branch. rewrite E.
  destruct (match_lookup _) as [token|].
  { intros [= <-]. apply (https_meet_parses (js "lookup/" ++ token)). }
  destruct (match_path_code _) as [g|].
  { intros [= <-]. apply (https_meet_parses (toLowerCase g)). }
  destruct (drop_empty_end segs) as [|s rest]; [discriminate|].
  destruct (_ && _); [|discriminate]. intros [= <-].
  apply (https_meet_parses (s ++ serialize_segments rest)).
Qed.

(** C1, as amended.  The URL of every result parses as an absolute URL.
    Outside the [url] variant of the redirect branch its scheme is [https]
    and its host is [meet.google.com].  In that variant, reached through
    [g.co], the URL is the serialization of the URL that the input parsed
    to: its host is [g.co], and it parses to that same record. *)
Theorem url_field_canonical (input : jsstring) (r : ParsedMeet) :
  parseGoogleMeet input = Normal (Some r) ->
  (exists u', new_URL (url r) = Normal u' /\
     scheme u' = js "https" /\ hostname u' = js "meet.google.com") \/
  (exists u p, new_URL (meet_raw (trim input)) = Normal u /\
     hostname u = js "g.co" /\ r = kind_url p (toString u) /\
     new_URL (url r) = Normal u).
Proof.
  intros H. destruct (parseGoogleMeet_cases _ _ H)
    as [[M ->]|(u & U & [[G R]|(G & Hm & R)])].
  - left. apply https_meet_parses.
  - destruct (redirect_branch_cases _ _ R) as [(g & M & ->)|[p ->]].
    + left. apply https_meet_parses.
    + right. exists u, p.
      destruct (redirect_url_idempotent _ _ _ _ U G R) as (_ & V & _).
      unfold is_g_co_meet in G. apply andb_true_iff in G as [G _].
      apply jseqb_eq in G. now repeat split.
  - left. now apply primary_url_parses with (raw := meet_raw (trim input)) (u := u).
Qed.

(** C2, as amended.  Resolving the URL of a result gives the result
    again, unless the URL was rebuilt on [meet.google.com] from a path or
    lookup token that holds a backslash.  Resolving a group invite link
    that was returned gives it again, always. *)
Theorem resolution_idempotent :
  (forall input r,
     parseGoogleMeet input = Normal (Some r) ->
     (url r = js "https://meet.google.com" ++ rebuilt_path r ->
      no_backslash (rebuilt_path r) = true) ->
     parseGoogleMeet (url r) = Normal (Some r)) /\
  (forall input r,
     parseWhatsAppGroupLink input = Normal (Some r) ->
     parseWhatsAppGroupLink r = Normal (Some r)).
Proof.
  split.
  - intros input r H B. destruct (parseGoogleMeet_cases _ _ H)
      as [[M ->]|(u & U & [[G R]|(G & Hm & R)])].
    + now apply code_idempotent.
    + destruct (redirect_branch_cases _ _ R) as [(g & M & ->)|[p ->]].
      * now apply code_idempotent.
      * now destruct (redirect_url_idempotent _ _ _ _ U G R) as (_ & _ & V).
    + apply primary_idempotent with (raw := meet_raw (trim input)) (u := u);
        trivial. now apply B, primary_rebuilt with (u := u).
  - intros input r H.
    destruct (new_URL (whatsapp_raw (trim input))) as [u|] eqn:U.
    2:{ rewrite (parseWhatsAppGroupLink_no_url _ U) in H. discriminate. }
    rewrite (parseWhatsAppGroupLink_url _ _ U) in H.
    destruct (negb _); [discriminate|].
    destruct (first_segment (pathname u)) as [code|]; [|discriminate].
    destruct (test_invite_token code) eqn:T; [|discriminate].
    cbn [negb] in H.
    assert (E : r = js "https://chat.whatsapp.com/" ++ code) by congruence.
    rewrite E, parse_whatsapp_token, T; trivial.
    unfold test_invite_token in T. now apply andb_true_iff in T as [_ T].
Qed.

(** * Further properties of the resolvers *)

(** ** White space around the input *)

(** X1.  [parseGoogleMeet], [parseWhatsAppGroupLink] and
    [normalizeExternalUrl] look at their input only through [trim]: white
    space (any ECMAScript white space or line terminator) before and after
    the input never changes the result. *)
Theorem surrounding_space_ignored (a x b : jsstring) :
  forallb is_js_space a = true -> forallb is_js_space b = true ->
  parseGoogleMeet (a ++ x ++ b) = parseGoogleMeet x /\
  parseWhatsAppGroupLink (a ++ x ++ b) = parseWhatsAppGroupLink x /\
  normalizeExternalUrl (a ++ x ++ b) = normalizeExternalUrl x.
Proof.
  intros Ha Hb.
  unfold parseGoogleMeet, parseWhatsAppGroupLink, normalizeExternalUrl.
  now rewrite !trim_pad.
Qed.

(** X2.  [normalizeExternalUrl] is idempotent, and its result is empty or
    starts with [http://] or [https://]: a schemeless [javascript:...] or
    [ftp://...] input comes out with [https://] in front. *)
Theorem normalizeExternalUrl_idempotent (raw : jsstring) :
  normalizeExternalUrl (normalizeExternalUrl raw) = normalizeExternalUrl raw /\
  (normalizeExternalUrl raw = [] \/
   startsWith (js "http://") (normalizeExternalUrl raw) = true \/
   startsWith (js "https://") (normalizeExternalUrl raw) = true).
Proof.
  assert (P : forall v, trim v = v ->
            normalizeExternalUrl v =
            if negb (nonempty v) then v
            else if startsWith (js "http://") v || startsWith (js "https://") v
                 then v else js "https://" ++ v).
  { intros v E. unfold normalizeExternalUrl. now rewrite E. }
  assert (C : (trim raw = [] /\ normalizeExternalUrl raw = []) \/
              (nonempty (trim raw) = true /\
               startsWith (js "http://") (trim raw) ||
                 startsWith (js "https://") (trim raw) = true /\
               normalizeExternalUrl raw = trim raw) \/
              (nonempty (trim raw) = true /\
               normalizeExternalUrl raw = js "https://" ++ trim raw)).
  { unfold normalizeExternalUrl. destruct (nonempty (trim raw)) eqn:Ne.
    - cbn [negb]. destruct (_ || _); right; [left|right]; now repeat split.
    - left. apply nonempty_false in Ne. now rewrite Ne. }
  destruct C as [[E R]|[(Ne & S & R)|(Ne & R)]]; rewrite R.
  - split; [reflexivity|now left].
  - split.
    + rewrite (P _ (trim_idem raw)), Ne, S. reflexivity.
    + right. apply orb_true_iff in S. exact S.
  - assert (T : trim (js "https://" ++ trim raw) = js "https://" ++ trim raw).
    { rewrite trim_prefix by (reflexivity || discriminate).
      unfold trim at 1. now rewrite strip_end_idem. }
    split; [|right; right; apply startsWith_app].
    rewrite (P _ T).
    replace (nonempty (js "https://" ++ trim raw)) with true by reflexivity.
    now rewrite (startsWith_app (js "https://")), orb_true_r.
Qed.

(** ** Scheme completion *)

(** X3.  A link pasted without its scheme resolves as the same link with
    [https://] in front: [meet.google.com/...] and [g.co/meet/...] for
    [parseGoogleMeet], whatever follows the prefix. *)
Theorem meet_scheme_completion (t : jsstring) :
  parseGoogleMeet (js "meet.google.com/" ++ t) =
    parseGoogleMeet (js "https://meet.google.com/" ++ t) /\
  parseGoogleMeet (js "g.co/meet/" ++ t) =
    parseGoogleMeet (js "https://g.co/meet/" ++ t).
Proof.
  unfold parseGoogleMeet.
  rewrite !trim_prefix by (reflexivity || discriminate).
  split; reflexivity.
Qed.

(** X4.  [chat.whatsapp.com/...] without a scheme resolves as
    [https://chat.whatsapp.com/...], whatever follows the prefix. *)
Theorem whatsapp_scheme_completion (t : jsstring) :
  parseWhatsAppGroupLink (js "chat.whatsapp.com/" ++ t) =
  parseWhatsAppGroupLink (js "https://chat.whatsapp.com/" ++ t).
Proof.
  unfold parseWhatsAppGroupLink.
  rewrite !trim_prefix by (reflexivity || discriminate).
  reflexivity.
Qed.

(** ** What a result looks like *)

Lemma strip_end_last (p : N -> bool) (l : jsstring) (x : N) :
  strip_end p l <> [] -> p (last (strip_end p l) x) = false.
Proof.
  intros H. destruct (strip_end_spec p l) as (b & _ & _ & L).
  destruct (p (last (strip_end p l) x)) eqn:E; [|reflexivity].
  now apply L in E.
Qed.

Lemma last_stripped (l : jsstring) :
  strip_trailing_slashes l <> [] -> last (strip_trailing_slashes l) 0 <> 47.
Proof.
  intros Ne E. pose proof (strip_end_last (N.eqb 47) l 0 Ne) as F.
  unfold strip_trailing_slashes in E. rewrite E in F. discriminate.
Qed.

Lemma last_app_nonempty (a b : jsstring) :
  b <> [] -> last (a ++ b) 0 = last b 0.
Proof.
  intros Ne. induction a as [|c a IH]; [reflexivity|].
  cbn [app]. destruct (a ++ b) eqn:E; [|exact IH].
  apply app_eq_nil in E as [_ E]. contradiction.
Qed.

Lemma serialized_head (segs : list jsstring) :
  serialize_segments segs <> [] -> hd 0 (serialize_segments segs) = 47.
Proof. destruct segs; [contradiction|reflexivity]. Qed.

(** X5.  Every result of [parseGoogleMeet] is well formed.  A [code]
    result carries a meeting code without capital letters and the URL
    [https://meet.google.com/<code>]; a [lookup] result carries a
    non-empty token without a slash and the URL
    [https://meet.google.com/lookup/<token>]; a [url] result carries a
    path that starts with a slash and does not end with one. *)
Theorem result_well_formed (input : jsstring) (r : ParsedMeet) :
  parseGoogleMeet input = Normal (Some r) ->
  match r with
  | kind_code c v =>
      meeting_code c /\ forallb (fun x => negb (is_upper x)) c = true /\
      v = js "https://meet.google.com/" ++ c
  | kind_lookup t v =>
      t <> [] /\ forallb (fun x => negb (x =? 47)) t = true /\
      v = js "https://meet.google.com/lookup/" ++ t
  | kind_url p v =>
      hd 0 p = 47 /\ last p 0 <> 47 /\ (2 <= length p)%nat
  end.
Proof.
  intros H.
  assert (C : forall g, match_classes meet_code_pattern g = true ->
            meeting_code (toLowerCase g) /\
            forallb (fun x => negb (is_upper x)) (toLowerCase g) = true /\
            js "https://meet.google.com/" ++ toLowerCase g =
            js "https://meet.google.com/" ++ toLowerCase g).
  { intros g M. split; [|split; [apply toLowerCase_is_lower|reflexivity]].
    apply meet_code_pattern_iff. now rewrite meet_code_lower. }
  assert (L : forall p, p <> [] -> hd 0 p = 47 -> last p 0 <> 47 ->
            hd 0 p = 47 /\ last p 0 <> 47 /\ (2 <= length p)%nat).
  { intros p Hne Hh Hl. repeat split; trivial.
    destruct p as [|a [|b p]]; [contradiction| |simpl; lia].
    simpl in Hh, Hl. congruence. }
  destruct (parseGoogleMeet_cases _ _ H)
    as [[M ->]|(u & U & [[G R]|(G & Hm & R)])].
  - now apply C.
  - revert R. unfold redirect_branch, match_meet_code.
    destruct (match_classes meet_code_pattern _) eqn:M.
    + intros [= <-]. now apply C.
    + destruct (nonempty (strip_trailing_slashes (slice 6 (pathname u))))
        eqn:Ne; [|discriminate].
      intros R.
      assert (E : r = kind_url
                (js "/meet/" ++ strip_trailing_slashes (slice 6 (pathname u)))
                (toString u)) by congruence.
      rewrite E. apply nonempty_true in Ne.
      apply L; [discriminate|reflexivity|].
      rewrite last_app_nonempty by trivial. now apply last_stripped.
  - destruct (parsed_with_host _ _ _ U Hm) as (_ & _ & segs & P & Hs);
      [discriminate|].
    pose proof (stripped_pathname u segs P Hs) as E.
    revert R. unfold primary_branch.
    destruct (match_lookup _) as [token|] eqn:ML.
    { intros [= <-]. destruct (match_lookup_inv _ _ ML) as (_ & _ & _ & A & B).
      now repeat split. }
    unfold match_path_code, match_meet_code.
    destruct (startsWith [47] _).
    { destruct (match_classes meet_code_pattern _) eqn:M.
      - intros [= <-]. now apply C.
      - destruct (_ && _) eqn:Ne; [|discriminate]. intros [= <-].
        apply andb_true_iff in Ne as [Ne _]. apply nonempty_true in Ne.
        apply L; trivial.
        + rewrite E in *. now apply serialized_head.
        + now apply last_stripped. }
    destruct (_ && _) eqn:Ne; [|discriminate]. intros [= <-].
    apply andb_true_iff in Ne as [Ne _]. apply nonempty_true in Ne.
    apply L; trivial.
    + rewrite E in *. now apply serialized_head.
    + now apply last_stripped.
Qed.

(** X6.  On [meet.google.com] a URL is rejected exactly when its path is
    made of slashes only (the root included); the test [path !== "/"] of
    line 260 never decides, since no path without its trailing slashes is
    a single slash. *)
Theorem primary_host_rejection (input : jsstring) (u : URL) :
  new_URL (meet_raw (trim input)) = Normal u ->
  hostname u = js "meet.google.com" ->
  (parseGoogleMeet input = Normal None <->
   forallb (N.eqb 47) (pathname u) = true) /\
  strip_trailing_slashes (pathname u) <> js "/".
Proof.
  intros U H.
  assert (S : strip_trailing_slashes (pathname u) <> js "/").
  { intros E. apply (last_stripped (pathname u)); rewrite E;
      [discriminate|reflexivity]. }
  split; [|exact S].
  rewrite (parseGoogleMeet_url _ _ U). unfold is_g_co_meet. rewrite H.
  replace (jseqb (js "meet.google.com") (js "g.co")) with false by reflexivity.
  rewrite jseqb_refl. cbn [andb negb]. unfold primary_branch.
  split.
  - intros R. destruct (strip_end_spec (N.eqb 47) (pathname u)) as (b & E & Hb & _).
    fold (strip_trailing_slashes (pathname u)) in E.
    destruct (strip_trailing_slashes (pathname u)) as [|c p] eqn:P.
    + now rewrite E.
    + exfalso. destruct (match_lookup (c :: p)); [discriminate|].
      destruct (match_path_code (c :: p)); [discriminate|].
      apply jseqb_neq in S. rewrite S in R. discriminate.
  - intros A. apply strip_end_all in A.
    unfold strip_trailing_slashes. now rewrite A.
Qed.

(** ** The scheme is not looked at *)

Lemma token_not_drive_letter (s : jsstring) :
  forallb is_token_char s = true -> is_windows_drive_letter s = false.
Proof.
  destruct s as [|a [|c [|d s]]]; trivial. cbn [forallb is_windows_drive_letter].
  intros H. apply andb_true_iff in H as [_ H]. apply andb_true_iff in H as [H _].
  apply andb_false_iff. right. clear a. unfold is_token_char in H.
  unfold_classes. char_cases.
Qed.

Lemma token_segments_ok (special file : bool) (segs : list jsstring) :
  forallb (forallb is_token_char) segs = true -> segs <> [] ->
  forallb (segment_ok special) segs = true /\ path_ok special file segs = true.
Proof.
  intros H Hne.
  assert (A : forallb (segment_ok special) segs = true).
  { clear Hne. induction segs as [|s segs IH]; [trivial|]. cbn [forallb] in *.
    apply andb_true_iff in H as [H1 H2].
    now rewrite (token_segment_ok special s H1), IH. }
  split; [exact A|]. rewrite path_ok_split, A by trivial.
  destruct segs as [|s segs]; [contradiction|]. cbn [forallb first_ok] in *.
  apply andb_true_iff in H as [H _].
  rewrite (token_not_drive_letter s H). cbn [negb]. now rewrite orb_true_r.
Qed.

(** The record of [<sch>://meet.google.com<path>]. *)
Definition meet_url (sch : jsstring) (segs : list jsstring) : URL :=
  mkURL sch [] [] (Some (js "meet.google.com")) None (Segments segs) None None.

Lemma meet_url_text (sch : jsstring) (segs : list jsstring) :
  toString (meet_url sch segs) =
  sch ++ js "://meet.google.com" ++ serialize_segments segs.
Proof.
  unfold toString.
  rewrite (url_serializer_with_host (meet_url sch segs) (js "meet.google.com")
             segs eq_refl eq_refl).
  cbn [meet_url scheme username password port query fragment
         credentials_text nonempty orb port_text query_text fragment_text].
  now rewrite !app_nil_r.
Qed.

(** X7.  [parseGoogleMeet] never looks at the scheme of a URL: under
    every scheme in lower case ([http], [ftp], [ws], even [javascript]) a
    link to [meet.google.com] with a path of plain segments (letters,
    digits, hyphens, underscores) resolves as the same link under
    [https]. *)
Theorem scheme_not_checked (sch : jsstring) (segs : list jsstring) :
  scheme_ok sch = true -> segs <> [] ->
  forallb (forallb is_token_char) segs = true ->
  parseGoogleMeet (sch ++ js "://meet.google.com" ++ serialize_segments segs) =
  parseGoogleMeet (js "https://meet.google.com" ++ serialize_segments segs).
Proof.
  intros Hs Hne Ht.
  destruct (token_segments_ok true false segs Ht Hne) as [A _].
  destruct (token_segments_ok (is_special sch) (jseqb sch (js "file")) segs Ht Hne)
    as [_ B].
  rewrite parse_primary_url by trivial.
  rewrite <- meet_url_text.
  rewrite (parseGoogleMeet_url _ (meet_url sch segs)).
  - reflexivity.
  - apply parse_serialized with (h := js "meet.google.com");
      [|reflexivity|apply host_ok_meet].
    apply url_ok_intro; trivial; try reflexivity. now intros _.
Qed.

(** * The dashboard *)

(** ** The two tabs *)

Lemma filter_split_length {A} (f : A -> bool) (l : list A) :
  (length (filter (fun x => negb (f x)) l) + length (filter f l))%nat = length l.
Proof.
  induction l as [|x l IH]; [reflexivity|]. cbn [filter].
  destruct (f x); cbn [negb length]; lia.
Qed.

(** X8.  The tabs partition the meetings: every meeting is under exactly
    one of [upcoming] and [completed], a live meeting is under
    [upcoming], the two counts add up to the number of meetings, and the
    list shown is [upcoming] on the first tab and [completed] on the
    second. *)
Theorem tabs_partition (meetings : list Meeting) :
  (forall m, In m meetings <->
     In m (upcoming meetings) \/ In m (completed meetings)) /\
  (forall m, ~ (In m (upcoming meetings) /\ In m (completed meetings))) /\
  (forall m, In m meetings -> status m = status_live ->
     In m (upcoming meetings)) /\
  (length (upcoming meetings) + length (completed meetings))%nat =
    length meetings /\
  filteredMeetings tab_upcoming meetings = upcoming meetings /\
  filteredMeetings tab_past meetings = completed meetings.
Proof.
  unfold upcoming, completed.
  split; [|split; [|split; [|split; [|split; reflexivity]]]].
  - intros m. split.
    + intros H. destruct (is_completed m) eqn:E; [right|left];
        apply filter_In; split; trivial. now rewrite E.
    + intros [H|H]; now apply filter_In in H.
  - intros m [H1 H2]. apply filter_In in H1 as [_ H1], H2 as [_ H2].
    rewrite H2 in H1. discriminate.
  - intros m H L. apply filter_In. split; [exact H|].
    unfold is_completed. now rewrite L.
  - apply filter_split_length.
Qed.

(** ** Auto-join *)

Lemma flip_autoJoin_twice (m : Meeting) : flip_autoJoin (flip_autoJoin m) = m.
Proof. destruct m. unfold flip_autoJoin. cbn. now rewrite negb_involutive. Qed.

Lemma flip_autoJoin_differs (m : Meeting) : flip_autoJoin m <> m.
Proof.
  destruct m as [? ? ? ? ? ? ? ? a ? ? ?]. unfold flip_autoJoin. cbn.
  intros E. injection E as E. now destruct a.
Qed.

Lemma toggle_unknown (target : jsstring) (meetings : list Meeting) :
  has_id meetings target = false ->
  map (fun m => if jseqb (id m) target then flip_autoJoin m else m) meetings =
    meetings /\
  find (fun x => jseqb (id x) target) meetings = None.
Proof.
  unfold has_id. induction meetings as [|m l IH]; [now split|].
  cbn [existsb map find]. intros H. apply orb_false_iff in H as [H1 H2].
  rewrite H1. destruct (IH H2) as [A B]. now rewrite A, B.
Qed.

Lemma toggle_known (target : jsstring) (meetings : list Meeting) :
  has_id meetings target = true ->
  map (fun m => if jseqb (id m) target then flip_autoJoin m else m) meetings <>
    meetings /\
  exists m, find (fun x => jseqb (id x) target) meetings = Some m /\
            In m meetings /\ id m = target.
Proof.
  unfold has_id. induction meetings as [|m l IH]; [discriminate|].
  cbn [existsb map find]. destruct (jseqb (id m) target) eqn:E.
  - intros _. split.
    + intros Q. injection Q as Q _. now apply flip_autoJoin_differs in Q.
    + exists m. apply jseqb_eq in E. repeat split; trivial. now left.
  - cbn [orb]. intros H. destruct (IH H) as [A (x & F & I & X)]. split.
    + intros Q. injection Q as Q. contradiction.
    + exists x. repeat split; trivial. now right.
Qed.

Lemma toggle_pointwise (target : jsstring) (meetings : list Meeting) :
  Forall2
    (fun m m' =>
       (id m = target ->
        m' = mkMeeting (id m) (title m) (dateLabel m) (timeLabel m)
               (platform m) (status m) (durationLabel m) (participants m)
               (negb (autoJoin m)) (joinUrl m) (meetUrl m) (recordingUrl m)) /\
       (id m <> target -> m' = m))
    meetings
    (map (fun m => if jseqb (id m) target then flip_autoJoin m else m) meetings).
Proof.
  induction meetings as [|m l IH]; [constructor|]. cbn [map].
  constructor; [|exact IH]. destruct (jseqb (id m) target) eqn:E.
  - apply jseqb_eq in E. split; [reflexivity|contradiction].
  - split; [|reflexivity]. intros H. rewrite H, jseqb_refl in E. discriminate.
Qed.

Lemma find_first (target : jsstring) (meetings : list Meeting) (m : Meeting) :
  find (fun x => jseqb (id x) target) meetings = Some m ->
  exists before after, meetings = before ++ m :: after /\
    (forall x, In x before -> id x <> target) /\ id m = target.
Proof.
  induction meetings as [|c l IH]; [discriminate|]. cbn [find].
  destruct (jseqb (id c) target) eqn:E.
  - intros [= <-]. exists [], l. apply jseqb_eq in E.
    split; [reflexivity|]. split; [intros x []|exact E].
  - intros F. destruct (IH F) as (b & a & -> & Hb & Hm).
    exists (c :: b), a. split; [reflexivity|]. split; [|exact Hm].
    intros x [<-|I]; [|now apply Hb].
    intros H. rewrite H, jseqb_refl in E. discriminate.
Qed.

(** X9.  [toggleMeetingAutoJoin] negates [autoJoin] of the meetings with
    the given id and changes nothing else: position by position, a meeting
    with that id comes back with [autoJoin] negated and every other field
    as it was, and a meeting with another id comes back as it was.  So the
    ids stay as they are and a second toggle restores the list.  With an
    id that no meeting has, the list is unchanged and there is no toast;
    with an id that some meeting has, the list changes, and the toast
    names the first meeting with that id and says [disabled] exactly when
    that meeting had auto-join on. *)
Theorem toggle_auto_join (target : jsstring) (meetings : list Meeting) :
  Forall2
    (fun m m' =>
       (id m = target ->
        m' = mkMeeting (id m) (title m) (dateLabel m) (timeLabel m)
               (platform m) (status m) (durationLabel m) (participants m)
               (negb (autoJoin m)) (joinUrl m) (meetUrl m) (recordingUrl m)) /\
       (id m <> target -> m' = m))
    meetings (fst (toggleMeetingAutoJoin target meetings)) /\
  fst (toggleMeetingAutoJoin target
         (fst (toggleMeetingAutoJoin target meetings))) = meetings /\
  map id (fst (toggleMeetingAutoJoin target meetings)) = map id meetings /\
  (has_id meetings target = false ->
   toggleMeetingAutoJoin target meetings = (meetings, None)) /\
  (has_id meetings target = true ->
   fst (toggleMeetingAutoJoin target meetings) <> meetings /\
   exists before m after,
     meetings = before ++ m :: after /\
     (forall x, In x before -> id x <> target) /\ id m = target /\
     snd (toggleMeetingAutoJoin target meetings) =
     Some (mkToast (title m ++ js ": auto-join " ++
                    (if autoJoin m then js "disabled" else js "enabled"))
             toast_success)).
Proof.
  unfold toggleMeetingAutoJoin. cbn [fst snd].
  split; [apply toggle_pointwise|].
  split; [|split; [|split; [|intros H; split]]].
  - rewrite map_map. rewrite <- (map_id meetings) at 2. apply map_ext.
    intros m. destruct (jseqb (id m) target) eqn:E.
    + replace (id (flip_autoJoin m)) with (id m) by now destruct m.
      rewrite E. apply flip_autoJoin_twice.
    + now rewrite E.
  - rewrite map_map. apply map_ext. intros m.
    destruct (jseqb (id m) target); [now destruct m|reflexivity].
  - intros H. destruct (toggle_unknown _ _ H) as [A B]. now rewrite A, B.
  - now apply toggle_known.
  - destruct (toggle_known _ _ H) as [_ (m & F & _ & _)].
    destruct (find_first _ _ _ F) as (b & a & E & Hb & Hm).
    exists b, m, a. rewrite F. repeat split; trivial.
Qed.

(** ** Opening a meeting *)

(** X10.  [joinMeeting] never opens an empty URL: it opens [joinUrl] when
    that is a non-empty string, else [meetUrl] when that is one (an empty
    string counts as a missing one), else [https://meet.google.com] for a
    Google Meet meeting and [https://calendar.google.com] for a Zoom or
    Teams meeting. *)
Theorem join_url_nonempty (m : Meeting) :
  join_url m <> [] /\
  (forall u, joinUrl m = Some u -> u <> [] -> join_url m = u) /\
  (joinUrl m = None \/ joinUrl m = Some [] ->
   forall u, meetUrl m = Some u -> u <> [] -> join_url m = u) /\
  (joinUrl m = None \/ joinUrl m = Some [] ->
   meetUrl m = None \/ meetUrl m = Some [] ->
   (platform m = GoogleMeet -> join_url m = js "https://meet.google.com") /\
   (platform m = Zoom \/ platform m = Teams ->
    join_url m = js "https://calendar.google.com")).
Proof.
  unfold join_url, or_else. split; [|split; [|split]].
  - destruct (joinUrl m) as [[|c j]|]; cbn [nonempty]; try discriminate;
      destruct (meetUrl m) as [[|d k]|]; cbn [nonempty]; try discriminate;
      destruct (platform m); discriminate.
  - intros u E Hu. rewrite E. apply nonempty_true in Hu. now rewrite Hu.
  - intros [E|E] u F Hu; rewrite E, F; apply nonempty_true in Hu;
      cbn [nonempty]; now rewrite Hu.
  - intros [E|E] [F|F]; rewrite E, F; cbn [nonempty];
      (split; [intros ->; reflexivity|intros [->| ->]; reflexivity]).
Qed.

(** ** Calendar sync *)

Lemma has_id_app (a b : list Meeting) (x : jsstring) :
  has_id (a ++ b) x = has_id a x || has_id b x.
Proof. apply existsb_app. Qed.

Lemma has_id_In (l : list Meeting) (x : jsstring) :
  has_id l x = true <-> In x (map id l).
Proof.
  unfold has_id. rewrite existsb_exists, in_map_iff. split.
  - intros (m & I & E). apply jseqb_eq in E. eauto.
  - intros (m & E & I). exists m. split; [exact I|]. now apply jseqb_eq.
Qed.

Lemma inbound_ids (a : bool) : map id (inbound a) = [js "gcal_101"; js "gcal_102"].
Proof. reflexivity. Qed.

Lemma sync_has_inbound (a : bool) (prev : list Meeting) (x : jsstring) :
  In x [js "gcal_101"; js "gcal_102"] -> has_id (sync_meetings a prev) x = true.
Proof.
  intros I. unfold sync_meetings. rewrite has_id_app.
  destruct (has_id prev x) eqn:P; [apply orb_true_r|]. rewrite orb_false_r.
  unfold inbound. cbn [filter id].
  destruct I as [<-|[<-|[]]]; rewrite ?P; cbn [negb].
  - reflexivity.
  - destruct (negb (has_id prev (js "gcal_101"))); reflexivity.
Qed.

Lemma sync_adds_nothing (a : bool) (l : list Meeting) :
  has_id l (js "gcal_101") = true -> has_id l (js "gcal_102") = true ->
  sync_meetings a l = l.
Proof.
  intros H1 H2. unfold sync_meetings, inbound. cbn [filter id].
  now rewrite H1, H2.
Qed.

(** X11.  The import of [syncNow] is idempotent: a second sync adds
    nothing and changes nothing, whatever the auto-join default has become
    (an imported meeting keeps the [autoJoin] it was imported with).  The
    meetings that were there stay, in their order, after the new ones;
    both calendar events are in the list afterwards; and ids that were
    distinct stay distinct. *)
Theorem sync_idempotent (a b : bool) (prev : list Meeting) :
  sync_meetings b (sync_meetings a prev) = sync_meetings a prev /\
  (exists add, sync_meetings a prev = add ++ prev /\
     forall m, In m add -> In m (inbound a) /\ has_id prev (id m) = false) /\
  (forall m, In m (inbound a) -> has_id (sync_meetings a prev) (id m) = true) /\
  (NoDup (map id prev) -> NoDup (map id (sync_meetings a prev))).
Proof.
  split; [|split; [|split]].
  - apply sync_adds_nothing; apply sync_has_inbound; cbn; auto.
  - eexists. split; [reflexivity|]. intros m I. apply filter_In in I as [I N].
    split; [exact I|]. now apply negb_true_iff.
  - intros m I. apply sync_has_inbound. rewrite <- (inbound_ids a).
    now apply in_map.
  - intros ND. unfold sync_meetings, inbound. cbn [filter id].
    destruct (has_id prev (js "gcal_101")) eqn:H1;
      destruct (has_id prev (js "gcal_102")) eqn:H2; cbn [negb app map id];
      trivial.
    + constructor; trivial. intros I. apply has_id_In in I. congruence.
    + constructor; trivial. intros I. apply has_id_In in I. congruence.
    + constructor.
      * intros [E|I]; [discriminate E|]. apply has_id_In in I. congruence.
      * constructor; trivial. intros I. apply has_id_In in I. congruence.
Qed.

(** ** The WhatsApp group *)

Lemma whatsapp_result (input r : jsstring) :
  parseWhatsAppGroupLink input = Normal (Some r) ->
  exists code, r = js "https://chat.whatsapp.com/" ++ code /\
    test_invite_token code = true.
Proof.
  intros H. destruct (new_URL (whatsapp_raw (trim input))) as [u|] eqn:U.
  2:{ rewrite (parseWhatsAppGroupLink_no_url _ U) in H. discriminate. }
  rewrite (parseWhatsAppGroupLink_url _ _ U) in H.
  destruct (negb _); [discriminate|].
  destruct (first_segment (pathname u)) as [code|]; [|discriminate].
  destruct (test_invite_token code) eqn:T; [|discriminate].
  cbn [negb] in H. exists code. split; [congruence|exact T].
Qed.

Lemma whatsapp_again (input r : jsstring) :
  parseWhatsAppGroupLink input = Normal (Some r) ->
  parseWhatsAppGroupLink r = Normal (Some r).
Proof.
  intros H. destruct (whatsapp_result _ _ H) as (code & -> & T).
  rewrite parse_whatsapp_token, T; trivial.
  unfold test_invite_token in T. now apply andb_true_iff in T as [_ T].
Qed.

Lemma parseWhatsAppGroupLink_normal (input : jsstring) :
  exists r, parseWhatsAppGroupLink input = Normal r.
Proof.
  destruct (new_URL (whatsapp_raw (trim input))) as [u|] eqn:U.
  - rewrite (parseWhatsAppGroupLink_url _ _ U). eauto.
  - rewrite (parseWhatsAppGroupLink_no_url _ U). eauto.
Qed.

(** X12.  [connectWhatsAppGroup] never throws.  When it accepts the
    pasted link it stores the canonical link
    [https://chat.whatsapp.com/<token>] and clears the error, and
    connecting again from that state changes nothing; when it rejects the
    link it sets the error and leaves the connection and the stored text
    as they were (a group that was connected stays connected). *)
Theorem connect_whatsapp (s : WhatsApp) :
  exists s' t, connectWhatsAppGroup s = Normal (s', t) /\
    ((whatsAppConnected s' = true /\ whatsAppError s' = None /\
      parseWhatsAppGroupLink (whatsAppGroupUrl s) =
        Normal (Some (whatsAppGroupUrl s')) /\
      startsWith (js "https://chat.whatsapp.com/") (whatsAppGroupUrl s') = true /\
      connectWhatsAppGroup s' = Normal (s', t)) \/
     (parseWhatsAppGroupLink (whatsAppGroupUrl s) = Normal None /\
      whatsAppError s' <> None /\ type t = toast_error /\
      whatsAppConnected s' = whatsAppConnected s /\
      whatsAppGroupUrl s' = whatsAppGroupUrl s)).
Proof.
  unfold connectWhatsAppGroup.
  destruct (parseWhatsAppGroupLink_normal (whatsAppGroupUrl s)) as [[n|] E];
    rewrite E; cbn [bind].
  - pose proof (whatsapp_again _ _ E) as A.
    destruct (whatsapp_result _ _ E) as (code & Hn & _).
    assert (Ne : nonempty n = true) by (now rewrite Hn).
    rewrite Ne. eexists _, _. split; [reflexivity|]. left.
    cbn [whatsAppConnected whatsAppError whatsAppGroupUrl].
    repeat split.
    + rewrite Hn. apply startsWith_app.
    + rewrite A. cbn [bind]. now rewrite Ne.
  - eexists _, _. split; [reflexivity|]. right.
    cbn [whatsAppConnected whatsAppError whatsAppGroupUrl type].
    repeat split. discriminate.
Qed.

(** ** The link of a manual meeting *)

Lemma parseGoogleMeet_normal (input : jsstring) :
  exists r, parseGoogleMeet input = Normal r.
Proof.
  destruct (match_meet_code (trim input)) as [g|] eqn:M.
  - unfold parseGoogleMeet. rewrite M.
    destruct (negb (nonempty (trim input))); eauto.
  - destruct (new_URL (meet_raw (trim input))) as [u|] eqn:U.
    + rewrite (parseGoogleMeet_url _ _ U). eauto.
    + rewrite (parseGoogleMeet_no_url _ M U). eauto.
Qed.

Lemma url_nonempty (input : jsstring) (r : ParsedMeet) :
  parseGoogleMeet input = Normal (Some r) -> url r <> [].
Proof.
  intros H. destruct (parseGoogleMeet_cases _ _ H)
    as [[M ->]|(u & U & [[G R]|(G & Hm & R)])].
  - discriminate.
  - destruct (redirect_branch_cases _ _ R) as [(g & M & ->)|[p ->]];
      [discriminate|].
    cbn [url]. unfold toString, url_serializer. intros E.
    apply app_eq_nil in E as [_ E]. discriminate.
  - rewrite (primary_rebuilt _ _ R). discriminate.
Qed.

Lemma parseGoogleMeet_trim (input : jsstring) :
  parseGoogleMeet (trim input) = parseGoogleMeet input.
Proof. unfold parseGoogleMeet. now rewrite trim_idem. Qed.

Lemma normalizeExternalUrl_trim (raw : jsstring) :
  normalizeExternalUrl (trim raw) = normalizeExternalUrl raw.
Proof. unfold normalizeExternalUrl. now rewrite trim_idem. Qed.

Lemma normalized_shape (raw : jsstring) :
  trim raw <> [] ->
  normalizeExternalUrl raw <> [] /\
  startsWith (js "http://") (normalizeExternalUrl raw) ||
    startsWith (js "https://") (normalizeExternalUrl raw) = true.
Proof.
  intros Ne. unfold normalizeExternalUrl. pose proof Ne as Ne'.
  apply nonempty_true in Ne'. rewrite Ne'. cbn [negb].
  destruct (startsWith (js "http://") (trim raw) ||
            startsWith (js "https://") (trim raw)) eqn:S.
  - now split.
  - split; [discriminate|]. now rewrite (startsWith_app (js "https://")), orb_true_r.
Qed.

(** X13.  The link of a manually added meeting (in
    [submitManualMeeting]).  The check never throws; a link that is empty
    after trimming is refused with [Please paste a meeting link].  An
    accepted link gives a non-empty [joinUrl], which is the URL that
    [joinMeeting] opens for the meeting: for Google Meet it is the [url]
    of what [parseGoogleMeet] returns, stored as [meetUrl] too; for Zoom
    and Teams every non-empty link is accepted, [meetUrl] stays
    undefined, and [joinUrl] starts with [http://] or [https://]. *)
Theorem manual_link_contract (p : Platform) (link : jsstring) :
  exists r, manual_link p link = Normal r /\
    (trim link = [] ->
     r = inl (mkToast (js "Please paste a meeting link") toast_error)) /\
    (forall j mu, r = inr (j, mu) ->
       exists u, j = Some u /\ u <> [] /\
         (forall m, joinUrl m = j -> join_url m = u) /\
         match p with
         | GoogleMeet =>
             mu = Some u /\
             exists q, parseGoogleMeet link = Normal (Some q) /\ u = url q
         | _ =>
             mu = None /\ u = normalizeExternalUrl link /\
             startsWith (js "http://") u || startsWith (js "https://") u = true
         end) /\
    (p <> GoogleMeet -> trim link <> [] -> exists j, r = inr (j, None)).
Proof.
  assert (J : forall u m, u <> [] -> joinUrl m = Some u -> join_url m = u).
  { intros u m Hu E. unfold join_url, or_else. rewrite E.
    apply nonempty_true in Hu. now rewrite Hu. }
  unfold manual_link. destruct (nonempty (trim link)) eqn:Ne.
  - pose proof Ne as Ne'. apply nonempty_true in Ne'.
    destruct p.
    + rewrite parseGoogleMeet_trim.
      destruct (parseGoogleMeet_normal link) as [[q|] E]; rewrite E; cbn [bind].
      * eexists. split; [reflexivity|]. split; [contradiction|].
        split; [|now intros []]. intros j mu [= <- <-].
        pose proof (url_nonempty _ _ E) as Hu.
        exists (url q). repeat split; eauto.
      * eexists. split; [reflexivity|]. split; [contradiction|].
        split; [discriminate|now intros []].
    + rewrite normalizeExternalUrl_trim.
      destruct (normalized_shape link Ne') as [A B].
      eexists. split; [reflexivity|]. split; [contradiction|].
      split; [|eauto]. intros j mu [= <- <-].
      exists (normalizeExternalUrl link). repeat split; eauto.
    + rewrite normalizeExternalUrl_trim.
      destruct (normalized_shape link Ne') as [A B].
      eexists. split; [reflexivity|]. split; [contradiction|].
      split; [|eauto]. intros j mu [= <- <-].
      exists (normalizeExternalUrl link). repeat split; eauto.
  - apply nonempty_false in Ne. eexists. split; [reflexivity|].
    split; [reflexivity|]. split; [discriminate|]. intros _ H. contradiction.
Qed.

(** ** Duration labels *)

Definition is_not_digit (c : N) : bool := negb (is_digit c).

(** The minutes that a duration label stands for. *)
Definition label_minutes (s : jsstring) : N :=
  let d := before is_not_digit s in
  let rest := from is_not_digit s in
  if jseqb rest (js " min") then number_of 10 d
  else if jseqb rest (js " hr") then 60 * number_of 10 d
  else 60 * number_of 10 d +
       number_of 10 (before is_not_digit (skipn 4 rest)).

Lemma digits_then (n : N) (t : jsstring) :
  stops is_not_digit t = true ->
  before is_not_digit (decimal n ++ t) = decimal n /\
  from is_not_digit (decimal n ++ t) = t.
Proof.
  intros S.
  assert (D : forallb (fun c => negb (is_not_digit c)) (decimal n) = true).
  { pose proof (decimal_digits n) as D. revert D. apply forallb_imp.
    intros c Hc. unfold is_not_digit. now rewrite Hc. }
  now rewrite before_to, from_to.
Qed.

Lemma label_minutes_format (z : Z) :
  label_minutes (formatDurationLabel z) = Z.to_N (Z.max 0 z).
Proof.
  unfold formatDurationLabel. generalize (Z.to_N (Z.max 0 z)). intros mins.
  cbv zeta. destruct (N.eqb_spec mins 60) as [->|N60]; [reflexivity|].
  destruct (N.ltb_spec 60 mins) as [L|L].
  - pose proof (N.div_mod mins 60 ltac:(lia)) as DM.
    destruct (N.eqb_spec (mins mod 60) 0) as [M0|M0]; cbn [negb].
    + unfold label_minutes.
      destruct (digits_then (mins / 60) (js " hr") eq_refl) as [-> ->].
      replace (jseqb (js " hr") (js " min")) with false by reflexivity.
      rewrite jseqb_refl, number_of_decimal. lia.
    + unfold label_minutes.
      destruct (digits_then (mins / 60)
                  (js " hr " ++ decimal (mins mod 60) ++ js " min") eq_refl)
        as [-> ->].
      replace (jseqb (js " hr " ++ decimal (mins mod 60) ++ js " min") (js " min"))
        with false by reflexivity.
      replace (jseqb (js " hr " ++ decimal (mins mod 60) ++ js " min") (js " hr"))
        with false by reflexivity.
      replace (skipn 4 (js " hr " ++ decimal (mins mod 60) ++ js " min"))
        with (decimal (mins mod 60) ++ js " min") by reflexivity.
      destruct (digits_then (mins mod 60) (js " min") eq_refl) as [-> _].
      rewrite !number_of_decimal. lia.
  - unfold label_minutes.
    destruct (digits_then mins (js " min") eq_refl) as [-> ->].
    rewrite jseqb_refl. apply number_of_decimal.
Qed.

(** X14.  [formatDurationLabel] loses nothing: two durations of whole,
    non-negative minutes (safe integers) with the same label are equal,
    as the label reads back to the minutes ([label_minutes]). *)
Theorem formatDurationLabel_injective (a b : Z) :
  (0 <= a <= MAX_SAFE_INTEGER)%Z -> (0 <= b <= MAX_SAFE_INTEGER)%Z ->
  formatDurationLabel a = formatDurationLabel b -> a = b.
Proof.
  intros Ha Hb E. apply (f_equal label_minutes) in E.
  rewrite !label_minutes_format in E. lia.
Qed.

(** X15.  The shape of a duration label: below an hour it is the minutes
    and [min]; from an hour on it is the whole hours and [hr], followed
    by the remaining minutes (between 1 and 59) and [min] unless they are
    zero; a negative duration is shown as [0 min]. *)
Theorem formatDurationLabel_shape (z : Z) :
  (z <= MAX_SAFE_INTEGER)%Z ->
  exists h m : N,
    Z.of_N (60 * h + m) = Z.max 0 z /\ m < 60 /\
    formatDurationLabel z =
      (if h =? 0 then decimal m ++ js " min"
       else if m =? 0 then decimal h ++ js " hr"
       else decimal h ++ js " hr " ++ decimal m ++ js " min").
Proof.
  intros _. unfold formatDurationLabel.
  remember (Z.to_N (Z.max 0 z)) as mins eqn:E.
  assert (E' : Z.max 0 z = Z.of_N mins) by lia. clear E.
  cbv zeta. exists (mins / 60), (mins mod 60).
  pose proof (N.div_mod mins 60 ltac:(lia)) as DM.
  pose proof (N.mod_lt mins 60 ltac:(lia)) as ML.
  split; [lia|]. split; [lia|].
  destruct (N.eqb_spec mins 60) as [->|N60]; [reflexivity|].
  destruct (N.ltb_spec 60 mins) as [L|L].
  - assert (H1 : 1 <= mins / 60) by (apply N.div_le_lower_bound; lia).
    destruct (N.eqb_spec (mins / 60) 0) as [H0|_]; [lia|].
    now destruct (N.eqb_spec (mins mod 60) 0).
  - assert (H0 : mins / 60 = 0) by (apply N.div_small; lia).
    rewrite H0. cbn [N.eqb]. rewrite N.mod_small by lia. reflexivity.
Qed.

End Resolver.

(** * Concrete runs

    The host parser is taken without Unicode support and without IPv6
    literals ([unsupported]); the inputs below are ASCII and have no IPv6
    literal, so neither part is consulted. *)

(** C1 fails as stated: [https://g.co/meet/foo] resolves to a result whose
    URL is [https://g.co/meet/foo], on the host [g.co]. *)
Lemma url_field_counterexample :
  ~ (forall (idna : list N -> option jsstring)
            (ipv6 : jsstring -> option jsstring) input r,
       parseGoogleMeet idna ipv6 input = Normal (Some r) ->
       exists u', new_URL idna ipv6 (url r) = Normal u' /\
         scheme u' = js "https" /\ hostname u' = js "meet.google.com").
Proof.
  intros H.
  destruct (H unsupported unsupported (js "https://g.co/meet/foo")
              (kind_url (js "/meet/foo") (js "https://g.co/meet/foo")) eq_refl)
    as (u' & U & _ & Hh).
  vm_compute in U. injection U as <-. vm_compute in Hh. discriminate.
Qed.

Lemma url_field_witness :
  parseGoogleMeet unsupported unsupported (js "g.co/meet/foo/") =
    Normal (Some (kind_url (js "/meet/foo") (js "https://g.co/meet/foo/"))) /\
  ((exists u', new_URL unsupported unsupported (js "https://g.co/meet/foo/") =
       Normal u' /\
     scheme u' = js "https" /\ hostname u' = js "meet.google.com") \/
   (exists u p,
      new_URL unsupported unsupported (meet_raw (trim (js "g.co/meet/foo/"))) =
        Normal u /\
      hostname u = js "g.co" /\
      kind_url (js "/meet/foo") (js "https://g.co/meet/foo/") =
        kind_url p (toString u) /\
      new_URL unsupported unsupported (js "https://g.co/meet/foo/") = Normal u)).
Proof.
  split; [reflexivity|].
  exact (url_field_canonical unsupported unsupported (js "g.co/meet/foo/")
           (kind_url (js "/meet/foo") (js "https://g.co/meet/foo/")) eq_refl).
Defined.

(** C2 fails as stated: [foo://meet.google.com/lookup/a\b] resolves to the
    lookup of [a\b], and the URL of that result resolves to the path
    [/lookup/a/b]. *)
Lemma idempotence_counterexample :
  ~ (forall (idna : list N -> option jsstring)
            (ipv6 : jsstring -> option jsstring) input r,
       parseGoogleMeet idna ipv6 input = Normal (Some r) ->
       parseGoogleMeet idna ipv6 (url r) = Normal (Some r)).
Proof.
  intros H.
  specialize (H unsupported unsupported (js "foo://meet.google.com/lookup/a\b")
                (kind_lookup (js "a\b") (js "https://meet.google.com/lookup/a\b"))
                eq_refl).
  vm_compute in H. discriminate.
Qed.

Lemma resolution_idempotent_witness :
  parseGoogleMeet unsupported unsupported
    (js "https://meet.google.com/lookup/a\b") =
    Normal (Some (kind_url (js "/lookup/a/b")
                    (js "https://meet.google.com/lookup/a/b"))) /\
  parseGoogleMeet unsupported unsupported
    (js "https://meet.google.com/lookup/a/b") =
    Normal (Some (kind_url (js "/lookup/a/b")
                    (js "https://meet.google.com/lookup/a/b"))).
Proof.
  split; [reflexivity|].
  exact (proj1 (resolution_idempotent unsupported unsupported)
           (js "https://meet.google.com/lookup/a\b")
           (kind_url (js "/lookup/a/b") (js "https://meet.google.com/lookup/a/b"))
           eq_refl (fun _ => eq_refl)).
Defined.

(** The group invite link without its scheme, with white space around
    it. *)
Lemma group_invite_witness :
  parseWhatsAppGroupLink unsupported unsupported
    (js "  chat.whatsapp.com/AbCdEfGhIj1234 ") =
    Normal (Some (js "https://chat.whatsapp.com/AbCdEfGhIj1234")) /\
  parseWhatsAppGroupLink unsupported unsupported
    (js " chat.whatsapp.com/AbCdEfGhI ") = Normal None.
Proof.
  pose proof (proj1 (proj2 (proj2 (proj2
                (group_invite_contract unsupported unsupported))))) as H.
  split.
  - refine (proj2 (H (js "  ") (js " ") (js "AbCdEfGhIj1234")
                     eq_refl eq_refl eq_refl) _).
    apply Nat.leb_le. reflexivity.
  - refine (proj1 (H (js " ") (js " ") (js "AbCdEfGhI")
                     eq_refl eq_refl eq_refl) _).
    apply Nat.ltb_lt. reflexivity.
Defined.

Lemma bare_code_witness :
  meeting_code (trim (js "  ABC-defg-HIJ ")) /\
  parseGoogleMeet unsupported unsupported (js "  ABC-defg-HIJ ") =
    Normal (Some (kind_code (js "abc-defg-hij")
                    (js "https://meet.google.com/abc-defg-hij"))).
Proof.
  assert (H : meeting_code (trim (js "  ABC-defg-HIJ ")))
    by (apply meet_code_pattern_iff; reflexivity).
  split; [exact H|].
  exact (proj1 (bare_code_case_normalization unsupported unsupported
                  (js "  ABC-defg-HIJ ") H)).
Defined.

Lemma redirect_unwrapping_witness :
  meeting_code (js "Abc-Defg-hiJ") /\
  parseGoogleMeet unsupported unsupported (js "https://g.co/meet/Abc-Defg-hiJ") =
    parseGoogleMeet unsupported unsupported (js "Abc-Defg-hiJ").
Proof.
  assert (H : meeting_code (js "Abc-Defg-hiJ"))
    by (apply meet_code_pattern_iff; reflexivity).
  split; [exact H|].
  exact (proj1 (redirect_unwrapping unsupported unsupported (js "Abc-Defg-hiJ") H)).
Defined.

Lemma lookup_handling_witness :
  parseGoogleMeet unsupported unsupported
    (js "meet.google.com/lookup/xyz123//?authuser=0") =
  Normal (Some (kind_lookup (js "xyz123")
                  (js "https://meet.google.com/lookup/xyz123"))).
Proof.
  refine (lookup_handling unsupported unsupported
            (js "meet.google.com/lookup/xyz123//?authuser=0")
            (mkURL (js "https") [] [] (Some (js "meet.google.com")) None
               (Segments [js "lookup"; js "xyz123"; []; []])
               (Some (js "authuser=0")) None)
            (js "xyz123") _ _ _ _ _);
    [reflexivity | reflexivity | reflexivity | discriminate | reflexivity].
Defined.

(** ** Runs of the further properties *)

Lemma surrounding_space_ignored_witness :
  parseGoogleMeet unsupported unsupported
    (js "  " ++ js "meet.google.com/abc-defg-hij" ++ js " ") =
    parseGoogleMeet unsupported unsupported (js "meet.google.com/abc-defg-hij") /\
  parseWhatsAppGroupLink unsupported unsupported
    (js "  " ++ js "meet.google.com/abc-defg-hij" ++ js " ") =
    parseWhatsAppGroupLink unsupported unsupported
      (js "meet.google.com/abc-defg-hij") /\
  normalizeExternalUrl (js "  " ++ js "meet.google.com/abc-defg-hij" ++ js " ") =
    normalizeExternalUrl (js "meet.google.com/abc-defg-hij").
Proof.
  exact (surrounding_space_ignored unsupported unsupported
           (js "  ") (js "meet.google.com/abc-defg-hij") (js " ")
           eq_refl eq_refl).
Defined.

Lemma result_well_formed_witness :
  js "xyz123" <> [] /\
  forallb (fun x => negb (x =? 47)) (js "xyz123") = true /\
  js "https://meet.google.com/lookup/xyz123" =
    js "https://meet.google.com/lookup/" ++ js "xyz123".
Proof.
  exact (result_well_formed unsupported unsupported
           (js "meet.google.com/lookup/xyz123")
           (kind_lookup (js "xyz123") (js "https://meet.google.com/lookup/xyz123"))
           eq_refl).
Defined.

Lemma primary_host_rejection_witness :
  (parseGoogleMeet unsupported unsupported (js "https://meet.google.com///?x") =
     Normal None <->
   forallb (N.eqb 47) (js "///") = true) /\
  strip_trailing_slashes (js "///") <> js "/".
Proof.
  exact (primary_host_rejection unsupported unsupported
           (js "https://meet.google.com///?x")
           (mkURL (js "https") [] [] (Some (js "meet.google.com")) None
              (Segments [[]; []; []]) (Some (js "x")) None)
           eq_refl eq_refl).
Defined.

Lemma scheme_not_checked_witness :
  parseGoogleMeet unsupported unsupported
    (js "javascript" ++ js "://meet.google.com" ++
     serialize_segments [js "lookup"; js "abc"]) =
  parseGoogleMeet unsupported unsupported
    (js "https://meet.google.com" ++ serialize_segments [js "lookup"; js "abc"]).
Proof.
  refine (scheme_not_checked unsupported unsupported (js "javascript")
            [js "lookup"; js "abc"] eq_refl _ eq_refl).
  discriminate.
Defined.

Lemma formatDurationLabel_injective_witness :
  formatDurationLabel 135 = js "2 hr 15 min" /\ 135%Z = (75 + 60)%Z.
Proof.
  split; [reflexivity|].
  refine (formatDurationLabel_injective 135 (75 + 60) _ _ eq_refl);
    unfold MAX_SAFE_INTEGER; lia.
Defined.

Lemma formatDurationLabel_shape_witness :
  exists h m : N,
    Z.of_N (60 * h + m) = Z.max 0 120 /\ m < 60 /\
    formatDurationLabel 120 =
      (if h =? 0 then decimal m ++ js " min"
       else if m =? 0 then decimal h ++ js " hr"
       else decimal h ++ js " hr " ++ decimal m ++ js " min").
Proof.
  refine (formatDurationLabel_shape 120 _). unfold MAX_SAFE_INTEGER. lia.
Defined.
